(** * Verification of the disjoint-set engine of [cpplib/djset.cpp]

    The C++ class [DisjointSet] keeps three raw [int] arrays ([parent],
    [rank], [size]) and two [uint32_t] counters ([n], [components]).  The
    embedding below keeps that shape: the arrays are lists of [Z] indexed by
    a C [int], every array access is a bounds-tested read or write whose
    failure is the undefined behaviour of the C++ program, signed arithmetic
    that leaves the [int] range is undefined as well, and [uint32_t]
    arithmetic wraps modulo [2^32].  The recursion of [find] is bounded by
    a fuel that a well-formed forest never exhausts. *)

From Stdlib Require Import ZArith Lia String Bool Sorting.Sorted QArith.
From Stdlib Require Import Floats.SpecFloat.
From stdpp Require Import base decidable option list list_numbers.

Local Open Scope Z_scope.

(** ** Machine integers *)

Module Int.

Definition INT_MAX : Z := 2147483647.
Definition INT_MIN : Z := -2147483648.
Definition UINT32_MOD : Z := 4294967296.

Definition in_int (z : Z) : bool := (INT_MIN <=? z) && (z <=? INT_MAX).

(** Conversion to [uint32_t]: reduction modulo [2^32]. *)
Definition to_uint32 (z : Z) : Z := z mod UINT32_MOD.

(** Conversion of a [uint32_t] to [int] (argument passing in
    [unite(i, j)], [find(i)], [parent[i] = i]): the two's complement
    reading of the same 32 bits. *)
Definition to_int (z : Z) : Z :=
  let u := z mod UINT32_MOD in
  if u <=? INT_MAX then u else u - UINT32_MOD.

(** Signed addition: overflow is undefined behaviour. *)
Definition add (a b : Z) : option Z :=
  if in_int (a + b) then Some (a + b) else None.

End Int.

(** ** Outcomes of a call

    [Ok a s]: every step of the call is defined; it returns [a] and leaves
    the object in state [s].
    [Throw msg s]: the call throws [std::runtime_error(msg)] (or the named
    standard exception) with the object in state [s].
    [Undefined]: the call runs into undefined behaviour (an access outside
    an array, a signed overflow).  The language gives such a call no
    meaning: a compiled program may return any value, change any memory or
    crash, so [Undefined] says nothing about what is observed.
    [OutOfFuel]: the recursion did not end within the fuel. *)

Inductive outcome (S A : Type) : Type :=
| Ok (a : A) (s : S)
| Throw (msg : string) (s : S)
| Undefined
| OutOfFuel.

Arguments Ok {S A} a s.
Arguments Throw {S A} msg s.
Arguments Undefined {S A}.
Arguments OutOfFuel {S A}.

(** ** The object state *)

Record DisjointSet : Type := mkDS {
  parent : list Z;
  rank : list Z;
  size : list Z;
  n : Z;
  components : Z
}.

Definition set_parent (p : list Z) (s : DisjointSet) : DisjointSet :=
  mkDS p (rank s) (size s) (n s) (components s).
Definition set_rank (r : list Z) (s : DisjointSet) : DisjointSet :=
  mkDS (parent s) r (size s) (n s) (components s).
Definition set_size (z : list Z) (s : DisjointSet) : DisjointSet :=
  mkDS (parent s) (rank s) z (n s) (components s).
Definition set_components (c : Z) (s : DisjointSet) : DisjointSet :=
  mkDS (parent s) (rank s) (size s) (n s) c.

(** ** Raw arrays indexed by an [int] *)

Definition in_bounds (a : list Z) (i : Z) : bool :=
  (0 <=? i) && (i <? Z.of_nat (length a)).

Definition rd (a : list Z) (i : Z) : option Z :=
  if in_bounds a i then a !! Z.to_nat i else None.

Definition wr (a : list Z) (i v : Z) : option (list Z) :=
  if in_bounds a i then Some (<[Z.to_nat i := v]> a) else None.

(** ** The monad of member functions *)

Definition M (A : Type) : Type := DisjointSet → outcome DisjointSet A.

Global Instance M_ret : MRet M := fun A (a : A) s => Ok a s.

Global Instance M_bind : MBind M := fun A B (k : A → M B) (m : M A) s =>
  match m s with
  | Ok a s' => k a s'
  | Throw msg s' => Throw msg s'
  | Undefined => Undefined
  | OutOfFuel => OutOfFuel
  end.

Definition throw {A} (msg : string) : M A := fun s => Throw msg s.

Definition lift_opt {A} (o : option A) : M A :=
  fun s => match o with Some a => Ok a s | None => Undefined end.

Definition load_parent (i : Z) : M Z := fun s => lift_opt (rd (parent s) i) s.
Definition load_rank (i : Z) : M Z := fun s => lift_opt (rd (rank s) i) s.
Definition load_size (i : Z) : M Z := fun s => lift_opt (rd (size s) i) s.

Definition store_parent (i v : Z) : M unit :=
  fun s => match wr (parent s) i v with
           | Some p => Ok tt (set_parent p s)
           | None => Undefined
           end.
Definition store_rank (i v : Z) : M unit :=
  fun s => match wr (rank s) i v with
           | Some r => Ok tt (set_rank r s)
           | None => Undefined
           end.
Definition store_size (i v : Z) : M unit :=
  fun s => match wr (size s) i v with
           | Some z => Ok tt (set_size z s)
           | None => Undefined
           end.

(** [components--] on a [uint32_t]. *)
Definition dec_components : M unit :=
  fun s => Ok tt (set_components (Int.to_uint32 (components s - 1)) s).

(** ** [DisjointSet(int n)]

    [new int[n]] with a negative [int] throws [std::bad_array_new_length];
    the members [n] and [components] are [uint32_t]. *)

Definition new (n0 : Z) : outcome unit DisjointSet :=
  if n0 <? 0 then Throw "std::bad_array_new_length" tt
  else Ok (mkDS (seqZ 0 n0)
                (replicate (Z.to_nat n0) 0)
                (replicate (Z.to_nat n0) 1)
                (Int.to_uint32 n0) (Int.to_uint32 n0)) tt.

(** ** [find] and [unite] *)

Fixpoint find_fuel (fuel : nat) (x : Z) : M Z :=
  match fuel with
  | O => fun _ => OutOfFuel
  | S k =>
      px ← load_parent x;
      (if negb (px =? x)
       then (r ← find_fuel k px; store_parent x r)
       else mret tt);;
      load_parent x
  end.

(** The recursion of the C++ [find] has no bound; on a forest it visits
    each node at most once, so one more step than there are elements is
    always enough (see [find_spec]). *)
Definition find (x : Z) : M Z :=
  fun s => find_fuel (S (length (parent s))) x s.

Definition unite (x y : Z) : M bool :=
  rx ← find x;
  ry ← find y;
  if rx =? ry then mret false
  else
    rkx ← load_rank rx;
    rky ← load_rank ry;
    (if rkx <? rky then
       store_parent rx ry;;
       szy ← load_size ry;
       szx ← load_size rx;
       sz ← lift_opt (Int.add szy szx);
       store_size ry sz
     else if rkx >? rky then
       store_parent ry rx;;
       szx ← load_size rx;
       szy ← load_size ry;
       sz ← lift_opt (Int.add szx szy);
       store_size rx sz
     else
       store_parent ry rx;;
       szx ← load_size rx;
       szy ← load_size ry;
       sz ← lift_opt (Int.add szx szy);
       store_size rx sz;;
       rk ← load_rank rx;
       rk' ← lift_opt (Int.add rk 1);
       store_rank rx rk');;
    dec_components;;
    mret true.

Definition get_component_rank (x : Z) : M Z :=
  r ← find x; load_rank r.

Definition get_component_size (x : Z) : M Z :=
  r ← find x; load_size r.

(** [static_cast<int>(components)]. *)
Definition get_component_number : M Z :=
  fun s => Ok (Int.to_int (components s)) s.

(** ** Loops *)

Fixpoint for_each {A} (l : list A) (body : A → M unit) : M unit :=
  match l with
  | [] => mret tt
  | a :: l' => body a;; for_each l' body
  end.

(** ** NumPy buffers

    A [py::array_t<T>] as the constructors and [add_edges] see it: the
    number of dimensions, the shape and the elements as they lie in the
    buffer, which is taken to be C-contiguous (row-major). *)

Record pyarray (T : Type) : Type := mkArr {
  ndim : Z;
  shape : list Z;
  data : list T
}.
Arguments mkArr {T} ndim shape data.
Arguments ndim {T} _.
Arguments shape {T} _.
Arguments data {T} _.

Definition msg_size : string :=
  "Input array must be 1-dimensional and match the specified size.".
Definition msg_shape : string :=
  "Input array must be 2-dimensional and match the specified shape.".

(** ** [add_edges]

    The test [buf.ndim != 1 || buf.shape[0] != b_array_size] short-circuits;
    [unite(a, b)] converts both [uint32_t] arguments to [int]. *)

Definition add_edges (a : Z) (b_array : pyarray Z) (b_array_size : Z) : M unit :=
  if negb (ndim b_array =? 1) then throw msg_size
  else
    d0 ← lift_opt (shape b_array !! 0%nat);
    if negb (d0 =? b_array_size) then throw msg_size
    else
      for_each (seqZ 0 b_array_size) (fun i =>
        b ← lift_opt (data b_array !! Z.to_nat i);
        unite (Int.to_int a) (Int.to_int b);;
        mret tt).

(** ** [get_ancestors] and [get_unique_ancestors] *)

Fixpoint find_all (l : list Z) : M (list Z) :=
  match l with
  | [] => mret []
  | i :: l' =>
      r ← find (Int.to_int i);
      rs ← find_all l';
      mret (r :: rs)
  end.

Definition get_ancestors : M (list Z) :=
  fun s => find_all (seqZ 0 (n s)) s.

(** [std::set<int>::insert] on the ascending sequence of the set's keys. *)
Fixpoint set_insert (x : Z) (l : list Z) : list Z :=
  match l with
  | [] => [x]
  | y :: l' =>
      if x <? y then x :: l
      else if x =? y then l
      else y :: set_insert x l'
  end.

Fixpoint find_unique (l : list Z) (acc : list Z) : M (list Z) :=
  match l with
  | [] => mret acc
  | i :: l' =>
      r ← find (Int.to_int i);
      find_unique l' (set_insert r acc)
  end.

Definition get_unique_ancestors : M (list Z) :=
  fun s => find_unique (seqZ 0 (n s)) [] s.

(** ** Single-precision arithmetic

    [float] is IEEE-754 binary32: 24 bits of precision, [emax = 128].  The
    operations are those of the specification of floating-point numbers
    of the standard library, each rounding to nearest, ties to even: every
    [-], [*] and [+=] of the source is one binary32 operation (no excess
    precision, no fused multiply-add). *)

Module F32.

Definition prec : Z := 24.
Definition emax : Z := 128.

Definition t : Type := spec_float.

Definition zero : t := S754_zero false.
Definition sub : t → t → t := SFsub prec emax.
Definition add : t → t → t := SFadd prec emax.
Definition mul : t → t → t := SFmul prec emax.
(** [a > b] and [a <= b]; both are false when an operand is a NaN. *)
Definition gt (a b : t) : bool := SFltb b a.
Definition le (a b : t) : bool := SFleb a b.

Definition valid (x : t) : bool := valid_binary prec emax x.

End F32.

(** ** The spatial constructors

    The two constructors run the same loops and differ in how they read
    the element [(i, k)]: [buf(i, k)] of [mutable_unchecked<2>] for the
    first, [ptr[i * cols + k]] with [uint32_t] index arithmetic for the
    second. *)

Section Spatial.

Variable read : Z → Z → option F32.t.
Variable unit_dist_threshold : F32.t.

(** The loop over [k] with its [break] for the pair [(i, j)]. *)
Fixpoint accumulate (ks : list Z) (i j : Z) (dist : F32.t) : option F32.t :=
  match ks with
  | [] => Some dist
  | k :: ks' =>
      match read i k, read j k with
      | Some a, Some b =>
          let diff := F32.sub a b in
          let dist := F32.add dist (F32.mul diff diff) in
          if F32.gt dist (F32.mul unit_dist_threshold unit_dist_threshold)
          then Some dist
          else accumulate ks' i j dist
      | _, _ => None
      end
  end.

(** The same loop without the [break]: every dimension is accumulated.
    This is the unpruned builder that the pruned one is compared with. *)
Fixpoint accumulate_full (ks : list Z) (i j : Z) (dist : F32.t) : option F32.t :=
  match ks with
  | [] => Some dist
  | k :: ks' =>
      match read i k, read j k with
      | Some a, Some b =>
          let diff := F32.sub a b in
          let dist := F32.add dist (F32.mul diff diff) in
          accumulate_full ks' i j dist
      | _, _ => None
      end
  end.

Variable acc : list Z → Z → Z → F32.t → option F32.t.

Definition pair_body (cols i j : Z) : M unit :=
  dist ← lift_opt (acc (seqZ 0 cols) i j F32.zero);
  if F32.le dist (F32.mul unit_dist_threshold unit_dist_threshold)
  then unite (Int.to_int i) (Int.to_int j);; mret tt
  else mret tt.

Definition build_edges (rows cols : Z) : M unit :=
  for_each (seqZ 0 rows) (fun i =>
    for_each (seqZ (i + 1) (rows - (i + 1))) (fun j =>
      pair_body cols i j)).

End Spatial.

(** The state after the three [new int[n]] and the initialising loop of a
    spatial constructor ([parent[i] = i] converts [uint32_t] to [int]). *)
Definition init_rows (rows : Z) : DisjointSet :=
  mkDS (Int.to_int <$> seqZ 0 rows)
       (replicate (Z.to_nat rows) 0)
       (replicate (Z.to_nat rows) 1)
       rows rows.

Definition construct (body : M unit) (s0 : DisjointSet) : outcome unit DisjointSet :=
  match body s0 with
  | Ok _ s => Ok s tt
  | Throw msg _ => Throw msg tt
  | Undefined => Undefined
  | OutOfFuel => OutOfFuel
  end.

(** [buf(i, k)]: element [i * shape(1) + k] of a row-major buffer. *)
Definition read_unchecked (array : pyarray F32.t) (i k : Z) : option F32.t :=
  d1 ← shape array !! 1%nat;
  let ix := i * d1 + k in
  if (0 <=? ix) then data array !! Z.to_nat ix else None.

(** [ptr[i * cols + k]]: the index is computed in [uint32_t]. *)
Definition read_ptr (array : pyarray F32.t) (cols i k : Z) : option F32.t :=
  data array !! Z.to_nat (Int.to_uint32 (Int.to_uint32 (i * cols) + k)).

(** [DisjointSet(py::array_t<float> array, float unit_dist_threshold)];
    [mutable_unchecked<2>()] throws [std::domain_error] unless the array has
    two dimensions (the message is abbreviated here).  The constructor
    takes the accumulation loop as a parameter, so that the loop of the
    source and the loop without [break] can be compared. *)
Definition new_spatial_with
    (acc : (Z → Z → option F32.t) → F32.t → list Z → Z → Z → F32.t → option F32.t)
    (array : pyarray F32.t) (unit_dist_threshold : F32.t)
  : outcome unit DisjointSet :=
  if negb (ndim array =? 2) then Throw "array has incorrect number of dimensions" tt
  else
    match shape array !! 0%nat, shape array !! 1%nat with
    | Some d0, Some d1 =>
        let rows := Int.to_uint32 d0 in
        let cols := Int.to_uint32 d1 in
        construct
          (build_edges unit_dist_threshold
             (acc (read_unchecked array) unit_dist_threshold) rows cols)
          (init_rows rows)
    | _, _ => Undefined
    end.

Definition new_spatial := new_spatial_with accumulate.

(** [DisjointSet(py::array_t<float> array, uint32_t rows, uint32_t cols,
    float unit_dist_threshold)]. *)
Definition new_spatial_checked_with
    (acc : (Z → Z → option F32.t) → F32.t → list Z → Z → Z → F32.t → option F32.t)
    (array : pyarray F32.t) (rows cols : Z) (unit_dist_threshold : F32.t)
  : outcome unit DisjointSet :=
  if negb (ndim array =? 2) then Throw msg_shape tt
  else
    match shape array !! 0%nat, shape array !! 1%nat with
    | Some d0, Some d1 =>
        if negb (d0 =? rows) || negb (d1 =? cols) then Throw msg_shape tt
        else
          construct
            (build_edges unit_dist_threshold
               (acc (read_ptr array cols) unit_dist_threshold) rows cols)
            (init_rows rows)
    | _, _ => Undefined
    end.

Definition new_spatial_checked := new_spatial_checked_with accumulate.

(** The constructors with the loop that never breaks. *)
Definition accumulate_unpruned (read : Z → Z → option F32.t) (_ : F32.t) :=
  accumulate_full read.
Definition new_spatial_unpruned := new_spatial_with accumulate_unpruned.
Definition new_spatial_checked_unpruned :=
  new_spatial_checked_with accumulate_unpruned.

(** ** Arrays with strides

    The bindings take any [py::array_t<float>]: a transposed or sliced
    NumPy array is handed over as it is, with its strides, and so is a
    read-only one.  The two constructors treat such an array differently:
    [buf(i, k)] of [mutable_unchecked<2>()] follows the strides, and
    [mutable_unchecked] throws [std::domain_error] for an array that is
    not writeable; [ptr[i * cols + k]] on the pointer of [request()] does
    neither.  [ndarray] is the array with what this takes: the memory the
    array is a view of, the place of its first element in it, and the
    strides, counted in elements (a stride of a [float] array is a
    multiple of four bytes, views of packed records apart).  [pyarray]
    above is the C-contiguous, writeable case (see [new_spatial_nd_flat]
    and [new_spatial_checked_nd_flat]). *)

Record ndarray : Type := mkNd {
  nd_writeable : bool;
  nd_ndim : Z;
  nd_shape : list Z;
  nd_strides : list Z;
  nd_origin : Z;
  nd_mem : list F32.t
}.

(** The element [off] places after the first one. *)
Definition nd_at (a : ndarray) (off : Z) : option F32.t :=
  let ix := nd_origin a + off in
  if (0 <=? ix) then nd_mem a !! Z.to_nat ix else None.

(** [buf(i, k)]: the element at [i * strides(0) + k * strides(1)]. *)
Definition read_strided (a : ndarray) (i k : Z) : option F32.t :=
  s0 ← nd_strides a !! 0%nat;
  s1 ← nd_strides a !! 1%nat;
  nd_at a (i * s0 + k * s1).

(** [ptr[i * cols + k]], the index computed in [uint32_t]. *)
Definition read_raw (a : ndarray) (cols i k : Z) : option F32.t :=
  nd_at a (Int.to_uint32 (Int.to_uint32 (i * cols) + k)).

(** [DisjointSet(py::array_t<float> array, float unit_dist_threshold)]:
    [mutable_unchecked<2>()] tests the number of dimensions, then that the
    array is writeable. *)
Definition new_spatial_nd (a : ndarray) (unit_dist_threshold : F32.t)
  : outcome unit DisjointSet :=
  if negb (nd_ndim a =? 2) then Throw "array has incorrect number of dimensions" tt
  else if negb (nd_writeable a) then Throw "array is not writeable" tt
  else
    match nd_shape a !! 0%nat, nd_shape a !! 1%nat with
    | Some d0, Some d1 =>
        let rows := Int.to_uint32 d0 in
        let cols := Int.to_uint32 d1 in
        construct
          (build_edges unit_dist_threshold
             (accumulate (read_strided a) unit_dist_threshold) rows cols)
          (init_rows rows)
    | _, _ => Undefined
    end.

(** [DisjointSet(py::array_t<float> array, uint32_t rows, uint32_t cols,
    float unit_dist_threshold)]. *)
Definition new_spatial_checked_nd (a : ndarray) (rows cols : Z)
    (unit_dist_threshold : F32.t) : outcome unit DisjointSet :=
  if negb (nd_ndim a =? 2) then Throw msg_shape tt
  else
    match nd_shape a !! 0%nat, nd_shape a !! 1%nat with
    | Some d0, Some d1 =>
        if negb (d0 =? rows) || negb (d1 =? cols) then Throw msg_shape tt
        else
          construct
            (build_edges unit_dist_threshold
               (accumulate (read_raw a cols) unit_dist_threshold) rows cols)
            (init_rows rows)
    | _, _ => Undefined
    end.

(** The buffer of [a] from its first element on, as a [pyarray]. *)
Definition flat (a : ndarray) : pyarray F32.t :=
  mkArr (nd_ndim a) (nd_shape a) (drop (Z.to_nat (nd_origin a)) (nd_mem a)).

(** The same memory seen as a writeable row-major [rows x cols] array. *)
Definition as_contiguous (a : ndarray) (rows cols : Z) : ndarray :=
  mkNd true 2 [rows; cols] [cols; 1] (nd_origin a) (nd_mem a).

(** The points [(0, 0)] and [(3, 3)] in row-major order, in a view that
    starts at the second element of its memory. *)
Definition sample_row_major : ndarray :=
  mkNd true 2 [2; 2] [2; 1] 1
    [S754_finite false 8388608 (-23);
     F32.zero; F32.zero;
     S754_finite false 12582912 (-22); S754_finite false 12582912 (-22)].

(** Points [(0, 0)] and [(3, 3)] in column-major order: the memory holds
    the first coordinates, then the second ones. *)
Definition sample_column_major : ndarray :=
  mkNd true 2 [2; 2] [1; 2] 0
    [F32.zero; S754_finite false 12582912 (-22);
     F32.zero; S754_finite false 12582912 (-22)].

(** ** The public interface as a type of calls *)

Inductive call : Type :=
| CFind (x : Z)
| CUnite (x y : Z)
| CRank (x : Z)
| CSize (x : Z)
| CNumber
| CAncestors
| CUniqueAncestors
| CAddEdges (a : Z) (b_array : pyarray Z) (b_array_size : Z).

Inductive value : Type :=
| VInt (z : Z)
| VBool (b : bool)
| VList (l : list Z)
| VNone.

Definition run_call (c : call) : M value :=
  match c with
  | CFind x => r ← find x; mret (VInt r)
  | CUnite x y => b ← unite x y; mret (VBool b)
  | CRank x => k ← get_component_rank x; mret (VInt k)
  | CSize x => k ← get_component_size x; mret (VInt k)
  | CNumber => k ← get_component_number; mret (VInt k)
  | CAncestors => l ← get_ancestors; mret (VList l)
  | CUniqueAncestors => l ← get_unique_ancestors; mret (VList l)
  | CAddEdges a b_array b_array_size =>
      add_edges a b_array b_array_size;; mret VNone
  end.

(** The arguments of a call are indices of the partition. *)
Definition in_range (s : DisjointSet) (c : call) : Prop :=
  match c with
  | CFind x | CRank x | CSize x => 0 ≤ x < n s
  | CUnite x y => 0 ≤ x < n s ∧ 0 ≤ y < n s
  | CAddEdges a b_array _ =>
      0 ≤ a < n s ∧ ∀ b, b ∈ data b_array → 0 ≤ b < n s
  | CNumber | CAncestors | CUniqueAncestors => True
  end.

(** The states a caller can observe: a partition as one of the three
    constructors returns it (with a number of rows that fits an [int]),
    and every state that a call with indices in range leaves behind,
    whether it returns or throws. *)
Inductive reachable : DisjointSet → Prop :=
| reach_new n0 s :
    Int.in_int n0 = true → new n0 = Ok s tt → reachable s
| reach_new_spatial array t s :
    (∀ d0, shape array !! 0%nat = Some d0 → Int.to_uint32 d0 ≤ Int.INT_MAX) →
    new_spatial array t = Ok s tt → reachable s
| reach_new_spatial_checked array rows cols t s :
    0 ≤ rows ≤ Int.INT_MAX →
    new_spatial_checked array rows cols t = Ok s tt → reachable s
| reach_return s c v s' :
    reachable s → in_range s c → run_call c s = Ok v s' → reachable s'
| reach_throw s c msg s' :
    reachable s → in_range s c → run_call c s = Throw msg s' → reachable s'.

(** A caller's sequence of calls, with the values they return. *)
Fixpoint run_calls (cs : list call) : M (list value) :=
  match cs with
  | [] => mret []
  | c :: cs' =>
      v ← run_call c;
      vs ← run_calls cs';
      mret (v :: vs)
  end.

(** The calls that merge nothing. *)
Definition is_query (c : call) : bool :=
  match c with
  | CUnite _ _ | CAddEdges _ _ _ => false
  | _ => true
  end.

(** The calls that reach [unite] only through [CUnite]. *)
Definition is_plain (c : call) : bool :=
  match c with
  | CAddEdges _ _ _ => false
  | _ => true
  end.

Global Instance value_eq_dec : EqDecision value.
Proof. solve_decision. Defined.

(** The number of calls of [unite] in a trace that returned [true]. *)
Definition successes (vs : list value) : Z :=
  Z.of_nat (length (filter (fun v => v = VBool true) vs)).


(** * The vocabulary of the properties *)

(** ** Arrays, paths and roots *)

(** The array after a write in bounds. *)
Definition upd (a : list Z) (i v : Z) : list Z := <[Z.to_nat i := v]> a.

(** [rpath p x l r]: following [parent] from [x] visits exactly the nodes
    of [l], in order, and stops at the root [r], which is its own
    parent. *)
Inductive rpath (p : list Z) : Z → list Z → Z → Prop :=
| rpath_root x :
    rd p x = Some x → rpath p x [x] x
| rpath_step x y l r :
    rd p x = Some y → y ≠ x → rpath p y l r → rpath p x (x :: l) r.

(** Path compression: every node of the path gets the root as parent. *)
Definition compress (p : list Z) (l : list Z) (r : Z) : list Z :=
  foldr (fun v q => upd q v r) p l.

(** The root of [x], as [find] computes it. *)
Definition root_of (s : DisjointSet) (x : Z) : option Z :=
  match find x s with
  | Ok r _ => Some r
  | _ => None
  end.

(** The elements [0 .. n-1]. *)
Definition indices (s : DisjointSet) : list Z := seqZ 0 (n s).

(** [parent[x] == x]. *)
Definition is_root (s : DisjointSet) (x : Z) : Prop := rd (parent s) x = Some x.

Global Instance is_root_dec s x : Decision (is_root s x).
Proof. unfold is_root. apply _. Defined.

(** The current roots, and the elements whose root is [r]. *)
Definition roots (s : DisjointSet) : list Z := filter (is_root s) (indices s).

Definition members (s : DisjointSet) (r : Z) : list Z :=
  filter (fun x => root_of s x = Some r) (indices s).

(** Every element reaches a root: [parent] has no cycle but the loops of
    the roots. *)
Definition forest (s : DisjointSet) : Prop :=
  ∀ x, 0 ≤ x < n s → ∃ l r, rpath (parent s) x l r.

(** ** The invariant of the partition *)

(** The invariant: [n] fits an [int]; the three arrays have [n] entries;
    [parent] is a forest; the size of a root is the number of elements
    under it; the rank of a root is less than that number; [components]
    counts the roots. *)
Record wf (s : DisjointSet) : Prop := mkWf {
  wf_n : 0 ≤ n s ≤ Int.INT_MAX;
  wf_parent_len : Z.of_nat (length (parent s)) = n s;
  wf_rank_len : Z.of_nat (length (rank s)) = n s;
  wf_size_len : Z.of_nat (length (size s)) = n s;
  wf_forest : forest s;
  wf_size : ∀ r, is_root s r →
    rd (size s) r = Some (Z.of_nat (length (members s r)));
  wf_rank : ∀ r, is_root s r →
    ∃ k, rd (rank s) r = Some k ∧ 0 ≤ k < Z.of_nat (length (members s r));
  wf_components : components s = Z.of_nat (length (roots s))
}.

(** Two states with the same roots for all elements and the same [rank],
    [size] and [components]: they differ in [parent] only, by path
    compression. *)
Record same_partition (s s' : DisjointSet) : Prop := mkSame {
  sp_n : n s' = n s;
  sp_rank : rank s' = rank s;
  sp_size : size s' = size s;
  sp_components : components s' = components s;
  sp_root_of : ∀ z, root_of s' z = root_of s z;
  sp_is_root : ∀ v, is_root s' v ↔ is_root s v
}.

(** The partition of [m] singletons. *)
Definition singletons (m : Z) : DisjointSet :=
  mkDS (seqZ 0 m) (replicate (Z.to_nat m) 0) (replicate (Z.to_nat m) 1) m m.

(** ** The merge step of [unite] *)

(** The body of [unite] after the two calls of [find]. *)
Definition link (rx ry : Z) : M bool :=
  if rx =? ry then mret false
  else
    rkx ← load_rank rx;
    rky ← load_rank ry;
    (if rkx <? rky then
       store_parent rx ry;;
       szy ← load_size ry;
       szx ← load_size rx;
       sz ← lift_opt (Int.add szy szx);
       store_size ry sz
     else if rkx >? rky then
       store_parent ry rx;;
       szx ← load_size rx;
       szy ← load_size ry;
       sz ← lift_opt (Int.add szx szy);
       store_size rx sz
     else
       store_parent ry rx;;
       szx ← load_size rx;
       szy ← load_size ry;
       sz ← lift_opt (Int.add szx szy);
       store_size rx sz;;
       rk ← load_rank rx;
       rk' ← lift_opt (Int.add rk 1);
       store_rank rx rk');;
    dec_components;;
    mret true.

(** The state in which root [a] hangs under root [b]. *)
Definition merged (s : DisjointSet) (a b zsum : Z) (rk : list Z) : DisjointSet :=
  mkDS (upd (parent s) a b) rk (upd (size s) b zsum) (n s) (components s - 1).

(** The state after the merge of two roots [rx ≠ ry] of ranks [kx], [ky]
    and sizes [zx], [zy]. *)
Definition link_state (s : DisjointSet) (rx ry kx ky zx zy : Z) : DisjointSet :=
  if kx <? ky then merged s rx ry (zy + zx) (rank s)
  else if kx >? ky then merged s ry rx (zx + zy) (rank s)
  else merged s ry rx (zx + zy) (upd (rank s) rx (kx + 1)).

(** ** How a call may change the partition *)

(** From [s] to [s']: [n] stays, no entry of [rank] gets lower, and the
    rank of the root of an element does not get lower. *)
Record evolves (s s' : DisjointSet) : Prop := mkEvolves {
  ev_n : n s' = n s;
  ev_rank : ∀ x k, rd (rank s) x = Some k →
    ∃ k', rd (rank s') x = Some k' ∧ k ≤ k';
  ev_component_rank : ∀ x r k,
    root_of s x = Some r → rd (rank s) r = Some k →
    ∃ r' k', root_of s' x = Some r' ∧ rd (rank s') r' = Some k' ∧ k ≤ k'
}.

Definition good (s s' : DisjointSet) : Prop := wf s' ∧ evolves s s'.

(** Postconditions that hold whether the call returns or throws. *)
Definition post {A} (Q : DisjointSet → Prop) (o : outcome DisjointSet A) : Prop :=
  match o with
  | Ok _ s' | Throw _ s' => Q s'
  | Undefined | OutOfFuel => True
  end.

(** ** Sums of sizes *)

Definition sumZ (g : Z → Z) (l : list Z) : Z :=
  foldr (fun r acc => g r + acc) 0 l.

(** The sum of [size[r]] over the current roots. *)
Definition size_sum (s : DisjointSet) : Z :=
  sumZ (fun r => default 0 (rd (size s) r)) (roots s).

(** ** Buffers and binary32 numbers *)

(** A buffer whose shape has as many entries as it has dimensions. *)
Definition shaped {T} (a : pyarray T) : Prop :=
  Z.of_nat (length (shape a)) = ndim a.

(** The number of binary digits of a mantissa. *)
Definition digits (m : positive) : Z := Zpos (digits2_pos m).

(** A finite number in canonical form: its exponent is the one its
    magnitude asks for. *)
Definition canon (prec emax : Z) (x : spec_float) : Prop :=
  match x with
  | S754_finite _ m e => SpecFloat.fexp prec emax (digits m + e) = e
  | _ => True
  end.

(** The values a sum of squares can take: [+0], a positive canonical
    number, [+∞], or a NaN. *)
Definition nonneg (prec emax : Z) (x : spec_float) : Prop :=
  match x with
  | S754_zero false | S754_infinity false | S754_nan => True
  | S754_finite false m e => SpecFloat.fexp prec emax (digits m + e) = e
  | _ => False
  end.

Definition nonneg32 : F32.t → Prop := nonneg F32.prec F32.emax.

(** A buffer that holds as many elements as its shape says, each of them
    a binary32 number. *)
Record well_formed (array : pyarray F32.t) : Prop := mkWellFormed {
  wfa_ndim : Z.of_nat (length (shape array)) = ndim array;
  wfa_shape : Forall (fun d => 0 ≤ d) (shape array);
  wfa_length : Z.of_nat (length (data array)) = foldr Z.mul 1 (shape array);
  wfa_valid : Forall (fun x => F32.valid x = true) (data array)
}.

(** Every column of row [i] can be read and holds a binary32 number. *)
Definition readable (read : Z → Z → option F32.t) (ks : list Z) (i : Z) : Prop :=
  ∀ k, k ∈ ks → ∃ a, read i k = Some a ∧ F32.valid a = true.

(** The running sum is known to end above the threshold: it is above it
    now, or it is a NaN. *)
Definition exceeds (t : F32.t) (d : F32.t) : Prop :=
  d = S754_nan ∨ F32.gt d (F32.mul t t) = true.

(** The points [(0, 0)], [(1, 0)], [(3, 1)] and the threshold [1.5]. *)
Definition sample_points : pyarray F32.t :=
  mkArr 2 [3; 2]
    [F32.zero; F32.zero;
     S754_finite false 8388608 (-23); F32.zero;
     S754_finite false 12582912 (-22); S754_finite false 8388608 (-23)].

Definition sample_threshold : F32.t := S754_finite false 12582912 (-23).

(** ** Connectivity *)

(** [a] and [b] are elements with the same root: [find(a) == find(b)]. *)
Definition connected (s : DisjointSet) (a b : Z) : Prop :=
  is_Some (root_of s a) ∧ root_of s a = root_of s b.

Global Instance connected_dec s a b : Decision (connected s a b).
Proof. unfold connected. apply _. Defined.

(** The elements connected to [x]. *)
Definition component (s : DisjointSet) (x : Z) : list Z :=
  filter (connected s x) (indices s).

(** The equivalence on [0 .. N-1] that the edges [E] generate. *)
Inductive joined (E : Z → Z → Prop) (N : Z) : Z → Z → Prop :=
| joined_refl a : 0 ≤ a < N → joined E N a a
| joined_edge a b : E a b → 0 ≤ a < N → 0 ≤ b < N → joined E N a b
| joined_sym a b : joined E N a b → joined E N b a
| joined_trans a b c : joined E N a b → joined E N b c → joined E N a c.

(** [s'] comes from [s] by calls of [find] and [unite] with indices in
    range. *)
Inductive moves : DisjointSet → DisjointSet → Prop :=
| moves_refl s : moves s s
| moves_find s x r s1 s2 :
    0 ≤ x < n s → find x s = Ok r s1 → moves s1 s2 → moves s s2
| moves_unite s x y b s1 s2 :
    0 ≤ x < n s → 0 ≤ y < n s → unite x y s = Ok b s1 → moves s1 s2 →
    moves s s2.

(** ** Ranks and heights *)

Definition rank_of (s : DisjointSet) (x : Z) : Z := default 0 (rd (rank s) x).
Definition size_of (s : DisjointSet) (x : Z) : Z := default 0 (rd (size s) x).

(** Ranks are not negative, grow strictly from an element to its parent,
    and a root of rank [k] has at least [2^k] elements under it. *)
Record ranked (s : DisjointSet) : Prop := mkRanked {
  rk_nonneg : ∀ x, 0 ≤ rank_of s x;
  rk_parent : ∀ x y, rd (parent s) x = Some y → y ≠ x →
    rank_of s x < rank_of s y;
  rk_size : ∀ r, is_root s r → 2 ^ rank_of s r ≤ size_of s r
}.

(** The squared distance of the rows [i] and [j], accumulated in binary32
    over all the columns, is at most [t * t]. *)
Definition within (read : Z → Z → option F32.t) (t : F32.t) (cols i j : Z) : Prop :=
  ∃ d, accumulate_full read (seqZ 0 cols) i j F32.zero = Some d ∧
       F32.le d (F32.mul t t) = true.

(** [s'] is a well-formed partition of the same elements that comes from
    [s] by calls of [find] and [unite]. *)
Definition steps (s s' : DisjointSet) : Prop :=
  wf s' ∧ n s' = n s ∧ moves s s'.

(** ** Chains that leave the array *)

(** [epath p x l]: following [parent] from [x] visits the nodes of [l], in
    order, each inside the array and none its own parent, and then comes
    to an index outside the array. *)
Inductive epath (p : list Z) : Z → list Z → Prop :=
| epath_out x :
    rd p x = None → epath p x []
| epath_step x y l :
    rd p x = Some y → y ≠ x → epath p y l → epath p x (x :: l).

(** ** The pairs that the spatial builder unites *)

(** The pairs [(i, j)], [i < j < rows], in the order of the two loops. *)
Definition pairs (rows : Z) : list (Z * Z) :=
  seqZ 0 rows ≫= fun i => pair i <$> seqZ (i + 1) (rows - (i + 1)).

(** The squared distance of the rows of [p], accumulated in binary32 over
    all the columns, is at most the binary32 product [t * t]. *)
Definition close (read : Z → Z → option F32.t) (t : F32.t) (cols : Z)
    (p : Z * Z) : bool :=
  match accumulate_full read (seqZ 0 cols) p.1 p.2 F32.zero with
  | Some d => F32.le d (F32.mul t t)
  | None => false
  end.

Definition united_pairs (read : Z → Z → option F32.t) (t : F32.t)
    (rows cols : Z) : list (Z * Z) :=
  filter (fun p => close read t cols p = true) (pairs rows).

(** [unite(i, j)] for each pair of the list, in order. *)
Definition unite_all (l : list (Z * Z)) : M unit :=
  for_each l (fun p => unite p.1 p.2;; mret tt).

(** ** Exact values

    The rational number that a finite binary32 value stands for, and the
    squared Euclidean distance of two rows computed without rounding. *)
Definition exact (x : F32.t) : option Q :=
  match x with
  | S754_zero _ => Some 0%Q
  | S754_finite s m e =>
      Some ((if s then -1 else 1) * inject_Z (Zpos m) * Qpower 2 e)%Q
  | _ => None
  end.

Fixpoint exact_sqdist (read : Z → Z → option F32.t) (ks : list Z) (i j : Z)
  : option Q :=
  match ks with
  | [] => Some 0%Q
  | k :: ks' =>
      a ← read i k ≫= exact;
      b ← read j k ≫= exact;
      d ← exact_sqdist read ks' i j;
      Some ((a - b) * (a - b) + d)%Q
  end.

(** A binary32 value that is a number and not an infinity. *)
Definition finite32 (a : F32.t) : bool :=
  match a with
  | S754_zero _ | S754_finite _ _ _ => true
  | _ => false
  end.

(** ** A sample partition *)

(** The partition of four elements after [unite(0, 1)], [unite(2, 3)] and
    [unite(0, 2)]: one class, with the chain [3 → 2 → 0]. *)
Definition sample_chain : DisjointSet :=
  mkDS [0; 0; 0; 2] [2; 0; 1; 0] [4; 1; 2; 1] 4 1.

(** * Properties *)

(** ** Raw arrays *)

Lemma in_bounds_iff (a : list Z) i :
  in_bounds a i = true ↔ 0 ≤ i < Z.of_nat (length a).
Proof. unfold in_bounds. rewrite andb_true_iff. lia. Qed.

Lemma in_bounds_false (a : list Z) i :
  in_bounds a i = false ↔ ¬ (0 ≤ i < Z.of_nat (length a)).
Proof. rewrite <- in_bounds_iff. destruct (in_bounds a i); naive_solver. Qed.

Lemma rd_Some_bounds (a : list Z) i v :
  rd a i = Some v → 0 ≤ i < Z.of_nat (length a).
Proof.
  unfold rd. destruct (in_bounds a i) eqn:E; [|done].
  intros _. by apply in_bounds_iff.
Qed.

Lemma rd_is_Some (a : list Z) i :
  0 ≤ i < Z.of_nat (length a) → ∃ v, rd a i = Some v.
Proof.
  intros H. unfold rd. rewrite (proj2 (in_bounds_iff a i) H).
  apply lookup_lt_is_Some. lia.
Qed.

Lemma rd_None (a : list Z) i :
  ¬ (0 ≤ i < Z.of_nat (length a)) → rd a i = None.
Proof. intros H. unfold rd. by rewrite (proj2 (in_bounds_false a i) H). Qed.

Lemma wr_upd (a : list Z) i v :
  0 ≤ i < Z.of_nat (length a) → wr a i v = Some (upd a i v).
Proof. intros H. unfold wr. by rewrite (proj2 (in_bounds_iff a i) H). Qed.

Lemma wr_None (a : list Z) i v :
  ¬ (0 ≤ i < Z.of_nat (length a)) → wr a i v = None.
Proof. intros H. unfold wr. by rewrite (proj2 (in_bounds_false a i) H). Qed.

Lemma length_upd (a : list Z) i v : length (upd a i v) = length a.
Proof. apply length_insert. Qed.

Lemma rd_upd_eq (a : list Z) i v :
  0 ≤ i < Z.of_nat (length a) → rd (upd a i v) i = Some v.
Proof.
  intros H. unfold rd.
  rewrite (proj2 (in_bounds_iff _ i)) by (rewrite length_upd; lia).
  apply list_lookup_insert_eq. lia.
Qed.

Lemma rd_upd_ne (a : list Z) i j v :
  0 ≤ i → i ≠ j → rd (upd a i v) j = rd a j.
Proof.
  intros Hi Hne. unfold rd, in_bounds. rewrite length_upd.
  destruct (_ && _) eqn:E; [|done].
  apply andb_true_iff in E as [E1 E2].
  apply list_lookup_insert_ne. lia.
Qed.

Lemma rd_upd (a : list Z) i j v :
  0 ≤ i < Z.of_nat (length a) →
  rd (upd a i v) j = if decide (j = i) then Some v else rd a j.
Proof.
  intros H. case_decide as E.
  - subst. by apply rd_upd_eq.
  - apply rd_upd_ne; [lia | done].
Qed.

Lemma upd_id (a : list Z) i v : rd a i = Some v → upd a i v = a.
Proof.
  unfold rd. destruct (in_bounds a i); [|done].
  intros H. by apply list_insert_id.
Qed.

(** ** Paths to the root

    [rpath p x l r]: following [parent] from [x] visits exactly the nodes
    of [l], in order, and stops at the root [r]. *)

Lemma rpath_fun p x l r l' r' :
  rpath p x l r → rpath p x l' r' → l = l' ∧ r = r'.
Proof.
  intros H. revert l' r'. induction H as [x Hx | x y l r Hx Hne H IH];
    intros l' r' H'; inversion H'; subst; try congruence.
  - done.
  - assert (y0 = y) by congruence. subst.
    destruct (IH _ _ H2) as [-> ->]. done.
Qed.

Lemma rpath_is_root p x l r : rpath p x l r → rd p r = Some r.
Proof. induction 1; done. Qed.

Lemma rpath_bounds p x l r y :
  rpath p x l r → y ∈ l → 0 ≤ y < Z.of_nat (length p).
Proof.
  induction 1 as [x Hx | x z l r Hx Hne H IH]; intros Hy.
  - apply list_elem_of_singleton in Hy as ->. by eapply rd_Some_bounds.
  - apply elem_of_cons in Hy as [-> | Hy]; [by eapply rd_Some_bounds | auto].
Qed.

Lemma rpath_start p x l r : rpath p x l r → x ∈ l.
Proof. destruct 1; left. Qed.

Lemma rpath_end p x l r : rpath p x l r → r ∈ l.
Proof. induction 1; [left | by right]. Qed.

Lemma rpath_suffix p x l r y :
  rpath p x l r → y ∈ l →
  ∃ l', rpath p y l' r ∧ (length l' ≤ length l)%nat.
Proof.
  induction 1 as [x Hx | x z l r Hx Hne H IH]; intros Hy.
  - apply list_elem_of_singleton in Hy as ->.
    exists [x]. split; [by constructor | done].
  - apply elem_of_cons in Hy as [-> | Hy].
    + exists (x :: l). split; [by econstructor | done].
    + destruct (IH Hy) as (l' & H' & Hlen). exists l'. split; [done | simpl; lia].
Qed.

Lemma rpath_NoDup p x l r : rpath p x l r → NoDup l.
Proof.
  induction 1 as [x Hx | x z l r Hx Hne H IH].
  - apply NoDup_singleton.
  - constructor; [|done]. intros Hin.
    destruct (rpath_suffix _ _ _ _ _ H Hin) as (l' & H' & Hlen).
    assert (Hfull : rpath p x (x :: l) r) by (by econstructor).
    destruct (rpath_fun _ _ _ _ _ _ H' Hfull) as [-> _]. simpl in Hlen. lia.
Qed.

Lemma rpath_length p x l r : rpath p x l r → (length l ≤ length p)%nat.
Proof.
  intros H.
  assert (Hnd : NoDup (Z.to_nat <$> l)).
  { apply NoDup_fmap_2_strong; [|by eapply rpath_NoDup].
    intros a b Ha Hb Hab.
    pose proof (rpath_bounds _ _ _ _ _ H Ha).
    pose proof (rpath_bounds _ _ _ _ _ H Hb). lia. }
  assert (Hsub : Z.to_nat <$> l ⊆ seq 0 (length p)).
  { intros k Hk. apply list_elem_of_fmap in Hk as (y & -> & Hy).
    pose proof (rpath_bounds _ _ _ _ _ H Hy).
    apply elem_of_seq. lia. }
  pose proof (submseteq_length _ _ (NoDup_submseteq _ _ Hnd Hsub)) as Hlen.
  rewrite length_fmap, length_seq in Hlen. done.
Qed.

(** ** Running the monad *)

Lemma bind_Ok {A B} (m : M A) (k : A → M B) s a s' :
  m s = Ok a s' → (m ≫= k) s = k a s'.
Proof. intros H. unfold mbind, M_bind. by rewrite H. Qed.

Lemma bind_Undefined {A B} (m : M A) (k : A → M B) s :
  m s = Undefined → (m ≫= k) s = Undefined.
Proof. intros H. unfold mbind, M_bind. by rewrite H. Qed.

Lemma bind_OutOfFuel {A B} (m : M A) (k : A → M B) s :
  m s = OutOfFuel → (m ≫= k) s = OutOfFuel.
Proof. intros H. unfold mbind, M_bind. by rewrite H. Qed.

Lemma bind_Throw {A B} (m : M A) (k : A → M B) s msg s' :
  m s = Throw msg s' → (m ≫= k) s = Throw msg s'.
Proof. intros H. unfold mbind, M_bind. by rewrite H. Qed.

Lemma bind_inv_Ok {A B} (m : M A) (k : A → M B) s b s' :
  (m ≫= k) s = Ok b s' → ∃ a s1, m s = Ok a s1 ∧ k a s1 = Ok b s'.
Proof. unfold mbind, M_bind. destruct (m s); naive_solver. Qed.

Lemma load_parent_Ok s i v : rd (parent s) i = Some v → load_parent i s = Ok v s.
Proof. intros H. unfold load_parent, lift_opt. by rewrite H. Qed.
Lemma load_rank_Ok s i v : rd (rank s) i = Some v → load_rank i s = Ok v s.
Proof. intros H. unfold load_rank, lift_opt. by rewrite H. Qed.
Lemma load_size_Ok s i v : rd (size s) i = Some v → load_size i s = Ok v s.
Proof. intros H. unfold load_size, lift_opt. by rewrite H. Qed.

Lemma store_parent_Ok s i v :
  0 ≤ i < Z.of_nat (length (parent s)) →
  store_parent i v s = Ok tt (set_parent (upd (parent s) i v) s).
Proof. intros H. unfold store_parent. by rewrite wr_upd. Qed.
Lemma store_rank_Ok s i v :
  0 ≤ i < Z.of_nat (length (rank s)) →
  store_rank i v s = Ok tt (set_rank (upd (rank s) i v) s).
Proof. intros H. unfold store_rank. by rewrite wr_upd. Qed.
Lemma store_size_Ok s i v :
  0 ≤ i < Z.of_nat (length (size s)) →
  store_size i v s = Ok tt (set_size (upd (size s) i v) s).
Proof. intros H. unfold store_size. by rewrite wr_upd. Qed.

Lemma set_parent_id s : set_parent (parent s) s = s.
Proof. by destruct s. Qed.
Lemma set_parent_twice p q s : set_parent p (set_parent q s) = set_parent p s.
Proof. done. Qed.

(** ** [find] on a forest *)

Lemma length_compress p l r : length (compress p l r) = length p.
Proof. induction l as [|v l IH]; simpl; [done | by rewrite length_upd]. Qed.

Lemma rd_compress p l r v :
  (∀ y, y ∈ l → 0 ≤ y < Z.of_nat (length p)) →
  rd (compress p l r) v = if decide (v ∈ l) then Some r else rd p v.
Proof.
  induction l as [|y l IH]; intros Hb.
  - destruct (decide (v ∈ [])) as [E|E]; [inversion E | done].
  - change (compress p (y :: l) r) with (upd (compress p l r) y r).
    rewrite rd_upd by (rewrite length_compress; apply Hb; left).
    rewrite IH by (intros; apply Hb; by right).
    destruct (decide (v = y)) as [->|Hne].
    + by rewrite (decide_True _ _ (list_elem_of_here y l)).
    + destruct (decide (v ∈ l)) as [Hin|Hin].
      * by rewrite (decide_True _ _ (list_elem_of_further v y l Hin)).
      * rewrite decide_False; [done|]. rewrite elem_of_cons. by intros [?|?].
Qed.

Lemma find_fuel_rpath s x l r fuel :
  rpath (parent s) x l r → (length l ≤ fuel)%nat →
  find_fuel fuel x s = Ok r (set_parent (compress (parent s) l r) s).
Proof.
  intros H. revert fuel.
  induction H as [x Hx | x y l r Hx Hne H IH]; intros fuel Hfuel;
    (destruct fuel as [|k]; [simpl in Hfuel; lia|]); simpl.
  - rewrite (bind_Ok _ _ _ _ _ (load_parent_Ok _ _ _ Hx)).
    rewrite Z.eqb_refl. simpl.
    unfold mbind at 1, M_bind, mret, M_ret.
    rewrite (upd_id _ _ _ Hx), set_parent_id. by apply load_parent_Ok.
  - rewrite (bind_Ok _ _ _ _ _ (load_parent_Ok _ _ _ Hx)).
    rewrite (proj2 (Z.eqb_neq y x) Hne). simpl.
    assert (Hk : (length l ≤ k)%nat) by (simpl in Hfuel; lia).
    pose proof (rd_Some_bounds _ _ _ Hx) as Hb.
    erewrite bind_Ok; last first.
    { erewrite bind_Ok by (by apply IH).
      apply store_parent_Ok. simpl. by rewrite length_compress. }
    apply load_parent_Ok. simpl. apply rd_upd_eq. by rewrite length_compress.
Qed.

Lemma find_rpath s x l r :
  rpath (parent s) x l r →
  find x s = Ok r (set_parent (compress (parent s) l r) s).
Proof.
  intros H. apply find_fuel_rpath; [done|].
  pose proof (rpath_length _ _ _ _ H). lia.
Qed.

(** An access outside the array is the first thing [find] does. *)
Lemma find_out_of_range s x :
  ¬ (0 ≤ x < Z.of_nat (length (parent s))) → find x s = Undefined.
Proof.
  intros H. unfold find. simpl. apply bind_Undefined.
  unfold load_parent, lift_opt. by rewrite rd_None.
Qed.

(** ** Pointer jumping keeps the roots

    If every node's new parent is its old parent or its old root, each
    node keeps its root. *)

Lemma rpath_jump p p' :
  (∀ v w, rd p v = Some w →
     rd p' v = Some w ∨ ∃ l r, rpath p v l r ∧ rd p' v = Some r) →
  ∀ x l r, rpath p x l r →
  ∃ l', rpath p' x l' r ∧ (length l' ≤ length l)%nat.
Proof.
  intros Hj x l r H.
  assert (Hroot : ∀ z, rd p z = Some z → rd p' z = Some z).
  { intros z Hz. destruct (Hj _ _ Hz) as [? | (l0 & r0 & H0 & ?)]; [done|].
    destruct (rpath_fun _ _ _ _ _ _ H0 (rpath_root _ _ Hz)) as [_ ->]. done. }
  induction H as [x Hx | x y l r Hx Hne H (l' & IH & Hlen)].
  - exists [x]. split; [constructor; auto | done].
  - destruct (Hj _ _ Hx) as [Hx' | (l0 & r0 & H0 & Hx')].
    + exists (x :: l'). split; [by econstructor | simpl; lia].
    + assert (Hfull : rpath p x (x :: l) r) by (by econstructor).
      destruct (rpath_fun _ _ _ _ _ _ H0 Hfull) as [_ ->].
      pose proof (rpath_is_root _ _ _ _ H) as Hr.
      assert (r ≠ x) by congruence.
      exists [x; r]. split.
      * econstructor; [done | done | constructor; auto].
      * destruct l; [inversion H | simpl; lia].
Qed.

Lemma rpath_compress p x l r :
  rpath p x l r →
  ∀ z lz rz, rpath p z lz rz → ∃ lz', rpath (compress p l r) z lz' rz.
Proof.
  intros H z lz rz Hz.
  assert (Hj : ∀ v w, rd p v = Some w →
     rd (compress p l r) v = Some w ∨
     ∃ l0 r0, rpath p v l0 r0 ∧ rd (compress p l r) v = Some r0).
  { intros v w Hv. rewrite rd_compress
      by (intros y Hy; exact (rpath_bounds _ _ _ _ _ H Hy)).
    case_decide as Hin; [|by left].
    right. destruct (rpath_suffix _ _ _ _ _ H Hin) as (l0 & H0 & _). eauto. }
  destruct (rpath_jump _ _ Hj _ _ _ Hz) as (lz' & H' & _). by exists lz'.
Qed.

(** ** Linking a root under another root *)

Lemma rpath_link p a b :
  rd p a = Some a → rd p b = Some b → a ≠ b →
  ∀ x l r, rpath p x l r →
  if decide (r = a) then rpath (upd p a b) x (l ++ [b]) b
  else rpath (upd p a b) x l r.
Proof.
  intros Ha Hb Hab x l r H.
  pose proof (rd_Some_bounds _ _ _ Ha) as Hba.
  induction H as [x Hx | x y l r Hx Hne H IH].
  - case_decide as E.
    + subst. simpl. econstructor; [by apply rd_upd_eq | done |].
      constructor. rewrite rd_upd_ne by lia. done.
    + constructor. rewrite rd_upd_ne by (try lia; congruence). done.
  - assert (x ≠ a) by congruence.
    case_decide as E; simpl; (econstructor; [|done|done]);
      rewrite rd_upd_ne by (try lia; congruence); done.
Qed.

(** ** Counting with [filter] *)

Section Filter.

Context {A : Type}.
Implicit Types (P Q : A → Prop) (l : list A).

Lemma filter_ext_elem P Q `{∀ x, Decision (P x)} `{∀ x, Decision (Q x)} l :
  (∀ x, x ∈ l → (P x ↔ Q x)) → filter P l = filter Q l.
Proof.
  induction l as [|a l IH]; intros Heq; [done|].
  rewrite !filter_cons.
  pose proof (Heq a (list_elem_of_here a l)) as Ha.
  rewrite IH by (intros x Hx; apply Heq; by right).
  destruct (decide (P a)), (decide (Q a)); try done; exfalso; tauto.
Qed.

Lemma filter_none P `{∀ x, Decision (P x)} l :
  (∀ x, x ∈ l → ¬ P x) → filter P l = [].
Proof.
  induction l as [|a l IH]; intros Hl; [done|].
  rewrite filter_cons, decide_False by (apply Hl; left).
  apply IH. intros x Hx. apply Hl. by right.
Qed.

Lemma filter_all P `{∀ x, Decision (P x)} l :
  (∀ x, x ∈ l → P x) → filter P l = l.
Proof.
  induction l as [|a l IH]; intros Hl; [done|].
  rewrite filter_cons, decide_True by (apply Hl; left).
  f_equal. apply IH. intros x Hx. apply Hl. by right.
Qed.

Lemma length_filter_or P Q R
    `{∀ x, Decision (P x)} `{∀ x, Decision (Q x)} `{∀ x, Decision (R x)} l :
  (∀ x, x ∈ l → (R x ↔ P x ∨ Q x)) →
  (∀ x, x ∈ l → P x → Q x → False) →
  length (filter R l) = (length (filter P l) + length (filter Q l))%nat.
Proof.
  induction l as [|a l IH]; intros Heq Hdis; [done|].
  rewrite !filter_cons.
  pose proof (Heq a (list_elem_of_here a l)) as Ha.
  pose proof (Hdis a (list_elem_of_here a l)) as Hd.
  specialize (IH (fun x Hx => Heq x (list_elem_of_further x a l Hx))
                 (fun x Hx => Hdis x (list_elem_of_further x a l Hx))).
  destruct (decide (P a)), (decide (Q a)), (decide (R a));
    simpl; try lia; exfalso; tauto.
Qed.

Lemma length_filter_remove P Q `{∀ x, Decision (P x)} `{∀ x, Decision (Q x)}
    `{EqDecision A} l a :
  NoDup l → a ∈ l → P a →
  (∀ x, x ∈ l → (Q x ↔ P x ∧ x ≠ a)) →
  S (length (filter Q l)) = length (filter P l).
Proof.
  induction l as [|b l IH]; intros Hnd Hin Ha Heq; [inversion Hin|].
  apply NoDup_cons in Hnd as [Hb Hnd].
  rewrite !filter_cons.
  pose proof (Heq b (list_elem_of_here b l)) as Hbq.
  destruct (decide (b = a)) as [->|Hne].
  - assert (Hpq : filter Q l = filter P l).
    { apply filter_ext_elem. intros x Hx. rewrite (Heq x) by (by right).
      assert (x ≠ a) by (intros ->; done). tauto. }
    rewrite Hpq.
    destruct (decide (P a)), (decide (Q a)); simpl; try done; exfalso; tauto.
  - apply elem_of_cons in Hin as [->|Hin]; [done|].
    specialize (IH Hnd Hin Ha (fun x Hx => Heq x (list_elem_of_further x b l Hx))).
    destruct (decide (P b)), (decide (Q b)); simpl; try lia; exfalso; tauto.
Qed.

End Filter.

(** ** The invariant of the partition *)

Lemma root_of_rpath s x l r : rpath (parent s) x l r → root_of s x = Some r.
Proof. intros H. unfold root_of. by rewrite (find_rpath _ _ _ _ H). Qed.

Lemma root_of_out_of_range s x :
  ¬ (0 ≤ x < Z.of_nat (length (parent s))) → root_of s x = None.
Proof. intros H. unfold root_of. by rewrite find_out_of_range. Qed.

Lemma root_of_inv s x r :
  forest s → Z.of_nat (length (parent s)) = n s →
  root_of s x = Some r → ∃ l, rpath (parent s) x l r.
Proof.
  intros Hf Hlen Hr.
  destruct (decide (0 ≤ x < n s)) as [Hx|Hx].
  - destruct (Hf x Hx) as (l & r' & H). rewrite (root_of_rpath _ _ _ _ H) in Hr.
    exists l. congruence.
  - rewrite root_of_out_of_range in Hr by lia. done.
Qed.

Lemma root_of_is_root s x r :
  forest s → Z.of_nat (length (parent s)) = n s →
  root_of s x = Some r → is_root s r.
Proof.
  intros Hf Hlen Hr. destruct (root_of_inv _ _ _ Hf Hlen Hr) as (l & H).
  by eapply rpath_is_root.
Qed.

Lemma root_of_root s r : is_root s r → root_of s r = Some r.
Proof. intros H. eapply root_of_rpath. by constructor. Qed.

Lemma elem_of_indices s x : x ∈ indices s ↔ 0 ≤ x < n s.
Proof. unfold indices. rewrite elem_of_seqZ. lia. Qed.

Lemma NoDup_indices s : NoDup (indices s).
Proof. apply NoDup_seqZ. Qed.

Lemma length_indices s : 0 ≤ n s → Z.of_nat (length (indices s)) = n s.
Proof. intros H. unfold indices. rewrite length_seqZ. lia. Qed.

Lemma elem_of_members s r x :
  x ∈ members s r ↔ 0 ≤ x < n s ∧ root_of s x = Some r.
Proof. unfold members. rewrite list_elem_of_filter, elem_of_indices. tauto. Qed.

Lemma elem_of_roots s r : r ∈ roots s ↔ 0 ≤ r < n s ∧ is_root s r.
Proof. unfold roots. rewrite list_elem_of_filter, elem_of_indices. tauto. Qed.

Lemma is_root_range s r :
  Z.of_nat (length (parent s)) = n s → is_root s r → 0 ≤ r < n s.
Proof. intros Hlen H. apply rd_Some_bounds in H. lia. Qed.

Lemma members_length_le s r : 0 ≤ n s → Z.of_nat (length (members s r)) ≤ n s.
Proof.
  intros H. rewrite <- (length_indices s H). apply inj_le, length_filter.
Qed.

(** ** [find] keeps the invariant *)

Section Compress.

Variables (s : DisjointSet) (x : Z) (l : list Z) (r : Z).
Hypothesis Hforest : forest s.
Hypothesis Hlen : Z.of_nat (length (parent s)) = n s.
Hypothesis Hpath : rpath (parent s) x l r.

Let s' : DisjointSet := set_parent (compress (parent s) l r) s.

Lemma compress_root_of z : root_of s' z = root_of s z.
Proof using Hforest Hlen Hpath.
  destruct (decide (0 ≤ z < n s)) as [Hz|Hz].
  - destruct (Hforest z Hz) as (lz & rz & H).
    rewrite (root_of_rpath _ _ _ _ H).
    destruct (rpath_compress _ _ _ _ Hpath _ _ _ H) as (lz' & H').
    by apply (root_of_rpath s' z lz').
  - rewrite !root_of_out_of_range; [done | lia |].
    subst s'. simpl. rewrite length_compress. lia.
Qed.

Lemma compress_is_root v : is_root s' v ↔ is_root s v.
Proof using Hpath.
  unfold is_root. subst s'. simpl.
  rewrite rd_compress by (intros y Hy; exact (rpath_bounds _ _ _ _ _ Hpath Hy)).
  case_decide as Hin; [|done].
  split.
  - intros [= ->]. by eapply rpath_is_root.
  - intros Hv. destruct (rpath_suffix _ _ _ _ _ Hpath Hin) as (l' & H' & _).
    destruct (rpath_fun _ _ _ _ _ _ H' (rpath_root _ _ Hv)) as [_ ->]. done.
Qed.

Lemma compress_forest : forest s'.
Proof using Hforest Hpath.
  intros z Hz. destruct (Hforest z Hz) as (lz & rz & H).
  destruct (rpath_compress _ _ _ _ Hpath _ _ _ H) as (lz' & H'). eauto.
Qed.

Lemma compress_members r0 : members s' r0 = members s r0.
Proof using Hforest Hlen Hpath.
  unfold members. apply filter_ext_elem. intros z _.
  by rewrite compress_root_of.
Qed.

Lemma compress_roots : roots s' = roots s.
Proof using Hpath.
  unfold roots. apply filter_ext_elem. intros z _. apply compress_is_root.
Qed.

End Compress.

Lemma compress_wf s x l r :
  wf s → rpath (parent s) x l r →
  wf (set_parent (compress (parent s) l r) s).
Proof.
  intros [Hn Hp Hr Hs Hf Hsz Hrk Hc] H.
  constructor; simpl; try done.
  - by rewrite length_compress.
  - by eapply compress_forest.
  - intros r0 Hr0. rewrite (compress_members s x l r Hf Hp H).
    apply Hsz. by eapply compress_is_root.
  - intros r0 Hr0. rewrite (compress_members s x l r Hf Hp H).
    apply Hrk. by eapply compress_is_root.
  - by rewrite (compress_roots s x l r H).
Qed.

(** On a well-formed partition [find] returns: it yields the root of [x]
    and compresses the path it walked. *)
Lemma find_wf s x :
  wf s → 0 ≤ x < n s →
  ∃ l r, rpath (parent s) x l r ∧
    find x s = Ok r (set_parent (compress (parent s) l r) s) ∧
    wf (set_parent (compress (parent s) l r) s).
Proof.
  intros Hwf Hx. destruct (wf_forest s Hwf x Hx) as (l & r & H).
  exists l, r. split; [done|]. split; [by apply find_rpath | by eapply compress_wf].
Qed.

(** ** Merging two roots keeps the invariant *)

Section Link.

Variables (s s' : DisjointSet) (a b : Z).
Hypothesis Hwf : wf s.
Hypothesis Ha : is_root s a.
Hypothesis Hb : is_root s b.
Hypothesis Hab : a ≠ b.
Hypothesis Hparent : parent s' = upd (parent s) a b.
Hypothesis Hn : n s' = n s.

Lemma link_root_of z :
  root_of s' z = if decide (root_of s z = Some a) then Some b else root_of s z.
Proof using Hwf Ha Hb Hab Hparent.
  destruct (decide (0 ≤ z < n s)) as [Hz|Hz].
  - destruct (wf_forest s Hwf z Hz) as (lz & rz & H).
    rewrite (root_of_rpath _ _ _ _ H).
    pose proof (rpath_link _ _ _ Ha Hb Hab _ _ _ H) as H'.
    rewrite <- Hparent in H'.
    destruct (decide (rz = a)) as [->|Hne].
    + rewrite decide_True by done. by eapply root_of_rpath.
    + rewrite decide_False by congruence. by eapply root_of_rpath.
  - pose proof (wf_parent_len s Hwf).
    rewrite !root_of_out_of_range; [by rewrite decide_False | lia |].
    rewrite Hparent, length_upd. lia.
Qed.

Lemma link_is_root v : is_root s' v ↔ is_root s v ∧ v ≠ a.
Proof using Ha Hab Hparent.
  unfold is_root in *. rewrite Hparent.
  rewrite rd_upd by (by eapply rd_Some_bounds).
  case_decide as E; [subst|]; split; try tauto; congruence.
Qed.

Lemma link_forest : forest s'.
Proof using Hwf Ha Hb Hab Hparent Hn.
  intros z Hz. rewrite Hn in Hz.
  destruct (wf_forest s Hwf z Hz) as (lz & rz & H).
  pose proof (rpath_link _ _ _ Ha Hb Hab _ _ _ H) as H'.
  rewrite <- Hparent in H'. case_decide; eauto.
Qed.

Lemma link_members_b :
  length (members s' b) = (length (members s a) + length (members s b))%nat.
Proof using Hwf Ha Hb Hab Hparent Hn.
  unfold members, indices. rewrite Hn. apply length_filter_or.
  - intros z _. rewrite link_root_of. case_decide as E.
    + rewrite E. split; [tauto | done].
    + split; [tauto | intros [?|?]; done].
  - intros z _ H1 H2. congruence.
Qed.

Lemma link_members_other r : r ≠ a → r ≠ b → members s' r = members s r.
Proof using Hwf Ha Hb Hab Hparent Hn.
  intros Hra Hrb. unfold members, indices. rewrite Hn.
  apply filter_ext_elem. intros z _. rewrite link_root_of.
  case_decide as E; [|done]. rewrite E. split; congruence.
Qed.

Lemma link_roots : S (length (roots s')) = length (roots s).
Proof using Hwf Ha Hab Hparent Hn.
  unfold roots, indices. rewrite Hn. apply (length_filter_remove _ _ _ a).
  - apply NoDup_seqZ.
  - apply elem_of_indices. apply is_root_range; [by apply wf_parent_len | done].
  - done.
  - intros z _. apply link_is_root.
Qed.

(** The shape of the state after a merge of [a] under [b]: the surviving
    root [b] gets the sum of the sizes; its rank stays, or, on a tie, grows
    by one. *)
Lemma link_wf za zb kb :
  rd (size s) a = Some za → rd (size s) b = Some zb →
  rd (rank s) b = Some kb →
  size s' = upd (size s) b (zb + za) →
  (rank s' = rank s ∨
   rank s' = upd (rank s) b (kb + 1) ∧ rd (rank s) a = Some kb) →
  components s' = components s - 1 →
  wf s'.
Proof using Hwf Ha Hb Hab Hparent Hn.
  intros Hza Hzb Hkb Hsize Hrank Hcomp.
  pose proof Hwf as [Hn0 Hp Hr Hs Hf Hsz Hrk Hc].
  pose proof (Hsz a Ha) as Hsa. pose proof (Hsz b Hb) as Hsb.
  destruct (Hrk a Ha) as (ka & Hka & Hka_bound).
  destruct (Hrk b Hb) as (kb' & Hkb' & Hkb_bound).
  assert (kb' = kb) as -> by congruence.
  assert (za = Z.of_nat (length (members s a))) as Eza by congruence.
  assert (zb = Z.of_nat (length (members s b))) as Ezb by congruence.
  pose proof link_members_b as Hmb.
  pose proof (rd_Some_bounds _ _ _ Hzb) as Hbb.
  pose proof (rd_Some_bounds _ _ _ Hkb) as Hbr.
  constructor.
  - by rewrite Hn.
  - rewrite Hparent, length_upd, Hn. done.
  - destruct Hrank as [-> | [-> _]]; rewrite ?length_upd, Hn; done.
  - rewrite Hsize, length_upd, Hn. done.
  - apply link_forest.
  - intros r Hr'. apply link_is_root in Hr' as [Hr' Hra].
    rewrite Hsize, rd_upd by done. case_decide as E.
    + subst r. f_equal. rewrite Hmb. lia.
    + rewrite link_members_other by done. by apply Hsz.
  - intros r Hr'. apply link_is_root in Hr' as [Hr' Hra].
    destruct (decide (r = b)) as [->|E].
    + rewrite Hmb. destruct Hrank as [-> | [-> Hka']].
      * exists kb. split; [done | lia].
      * exists (kb + 1). split; [by apply rd_upd_eq | ].
        assert (ka = kb) as -> by congruence. lia.
    + rewrite link_members_other by done.
      destruct (Hrk r Hr') as (k & Hk & Hk_bound). exists k. split; [|done].
      destruct Hrank as [-> | [-> _]]; [done|].
      rewrite rd_upd_ne by (try lia; congruence). done.
  - rewrite Hcomp, Hc. pose proof link_roots. lia.
Qed.

End Link.

(** ** [unite] on a well-formed partition *)

Lemma unite_unfold x y : unite x y = (rx ← find x; ry ← find y; link rx ry).
Proof. reflexivity. Qed.

Lemma Int_add_Some a b :
  Int.INT_MIN ≤ a + b ≤ Int.INT_MAX → Int.add a b = Some (a + b).
Proof.
  intros H. unfold Int.add, Int.in_int.
  rewrite (proj2 (Z.leb_le _ _)), (proj2 (Z.leb_le _ _)) by lia. done.
Qed.

Lemma to_uint32_small z : 0 ≤ z < Int.UINT32_MOD → Int.to_uint32 z = z.
Proof. intros H. unfold Int.to_uint32. by apply Z.mod_small. Qed.

Lemma to_int_small z : 0 ≤ z ≤ Int.INT_MAX → Int.to_int z = z.
Proof.
  intros H. unfold Int.to_int. cbv zeta.
  rewrite Z.mod_small by (unfold Int.INT_MAX, Int.UINT32_MOD in *; lia).
  rewrite (proj2 (Z.leb_le _ _)) by lia. done.
Qed.

Lemma roots_length_le s : 0 ≤ n s → Z.of_nat (length (roots s)) ≤ n s.
Proof.
  intros H. rewrite <- (length_indices s H). apply inj_le, length_filter.
Qed.

Lemma roots_length_pos s r : wf s → is_root s r → 0 < Z.of_nat (length (roots s)).
Proof.
  intros Hwf Hr.
  assert (Hin : r ∈ roots s).
  { apply elem_of_roots. split; [|done].
    apply is_root_range; [by apply wf_parent_len | done]. }
  destruct (roots s) as [|r0 l0]; [inversion Hin|].
  rewrite length_cons. lia.
Qed.

Lemma members_sum_le s a b :
  wf s → is_root s a → is_root s b → a ≠ b →
  Z.of_nat (length (members s a)) + Z.of_nat (length (members s b)) ≤ n s.
Proof.
  intros Hwf Ha Hb Hab.
  pose proof (link_members_b s (set_parent (upd (parent s) a b) s) a b
                Hwf Ha Hb Hab eq_refl eq_refl) as Hm.
  pose proof (members_length_le (set_parent (upd (parent s) a b) s) b
                (proj1 (wf_n s Hwf))) as Hle.
  simpl in Hle. lia.
Qed.

Lemma link_spec s rx ry :
  wf s → is_root s rx → is_root s ry → rx ≠ ry →
  ∃ kx ky zx zy,
    rd (rank s) rx = Some kx ∧ rd (rank s) ry = Some ky ∧
    rd (size s) rx = Some zx ∧ rd (size s) ry = Some zy ∧
    link rx ry s = Ok true (link_state s rx ry kx ky zx zy) ∧
    wf (link_state s rx ry kx ky zx zy).
Proof.
  intros Hwf Hrx Hry Hne.
  pose proof Hwf as [Hn0 Hp Hr Hs Hf Hsz Hrk Hc].
  destruct (Hrk rx Hrx) as (kx & Hkx & Hkxb).
  destruct (Hrk ry Hry) as (ky & Hky & Hkyb).
  pose proof (Hsz rx Hrx) as Hzx. pose proof (Hsz ry Hry) as Hzy.
  pose proof (members_sum_le s rx ry Hwf Hrx Hry Hne) as Hsum.
  set (zx := Z.of_nat (length (members s rx))) in *.
  set (zy := Z.of_nat (length (members s ry))) in *.
  exists kx, ky, zx, zy. do 4 (split; [done|]).
  pose proof (is_root_range _ _ Hp Hrx) as Hbx.
  pose proof (is_root_range _ _ Hp Hry) as Hby.
  pose proof (roots_length_pos _ _ Hwf Hrx) as Hpos.
  pose proof (roots_length_le s (proj1 Hn0)) as Hle.
  assert (Hcomp : Int.to_uint32 (components s - 1) = components s - 1).
  { apply to_uint32_small. unfold Int.UINT32_MOD, Int.INT_MAX in *. lia. }
  assert (Hadd1 : Int.add zy zx = Some (zy + zx)).
  { apply Int_add_Some. unfold Int.INT_MIN, Int.INT_MAX in *. lia. }
  assert (Hadd2 : Int.add zx zy = Some (zx + zy)).
  { apply Int_add_Some. unfold Int.INT_MIN, Int.INT_MAX in *. lia. }
  assert (Hadd3 : Int.add kx 1 = Some (kx + 1)).
  { apply Int_add_Some. unfold Int.INT_MIN, Int.INT_MAX in *. lia. }
  unfold link. rewrite (proj2 (Z.eqb_neq rx ry) Hne).
  rewrite (bind_Ok _ _ _ _ _ (load_rank_Ok _ _ _ Hkx)).
  rewrite (bind_Ok _ _ _ _ _ (load_rank_Ok _ _ _ Hky)).
  unfold link_state.
  destruct (kx <? ky) eqn:E1; [|destruct (kx >? ky) eqn:E2].
  - split.
    + erewrite bind_Ok; last first.
      { erewrite bind_Ok by (apply store_parent_Ok; lia).
        erewrite bind_Ok by (by apply load_size_Ok).
        erewrite bind_Ok by (by apply load_size_Ok).
        erewrite bind_Ok by (unfold lift_opt; by rewrite Hadd1).
        apply store_size_Ok. simpl. lia. }
      unfold mbind, M_bind, dec_components, mret, M_ret, merged. simpl.
      by rewrite Hcomp.
    + apply (link_wf s _ rx ry) with (za := zx) (zb := zy) (kb := ky);
        try done. by left.
  - split.
    + erewrite bind_Ok; last first.
      { erewrite bind_Ok by (apply store_parent_Ok; lia).
        erewrite bind_Ok by (by apply load_size_Ok).
        erewrite bind_Ok by (by apply load_size_Ok).
        erewrite bind_Ok by (unfold lift_opt; by rewrite Hadd2).
        apply store_size_Ok. simpl. lia. }
      unfold mbind, M_bind, dec_components, mret, M_ret, merged. simpl.
      by rewrite Hcomp.
    + apply (link_wf s _ ry rx) with (za := zy) (zb := zx) (kb := kx);
        try done. by left.
  - assert (kx = ky) as <- by lia.
    split.
    + erewrite bind_Ok; last first.
      { erewrite bind_Ok by (apply store_parent_Ok; lia).
        erewrite bind_Ok by (by apply load_size_Ok).
        erewrite bind_Ok by (by apply load_size_Ok).
        erewrite bind_Ok by (unfold lift_opt; by rewrite Hadd2).
        erewrite bind_Ok by (apply store_size_Ok; simpl; lia).
        erewrite bind_Ok by (by apply load_rank_Ok).
        erewrite bind_Ok by (unfold lift_opt; by rewrite Hadd3).
        apply store_rank_Ok. simpl. lia. }
      unfold mbind, M_bind, dec_components, mret, M_ret, merged. simpl.
      by rewrite Hcomp.
    + apply (link_wf s _ ry rx) with (za := zy) (zb := zx) (kb := kx);
        try done. by right.
Qed.

(** ** States that differ by path compression only *)

Lemma same_partition_refl s : same_partition s s.
Proof. by constructor. Qed.

Lemma same_partition_trans s1 s2 s3 :
  same_partition s1 s2 → same_partition s2 s3 → same_partition s1 s3.
Proof.
  intros [? ? ? ? Hr1 Hi1] [? ? ? ? Hr2 Hi2].
  constructor; [congruence .. | |].
  - intros z. by rewrite Hr2, Hr1.
  - intros v. by rewrite Hi2, Hi1.
Qed.

Lemma same_partition_members s s' r :
  same_partition s s' → members s' r = members s r.
Proof.
  intros H. unfold members, indices. rewrite (sp_n _ _ H).
  apply filter_ext_elem. intros z _. by rewrite (sp_root_of _ _ H).
Qed.

Lemma same_partition_roots s s' : same_partition s s' → roots s' = roots s.
Proof.
  intros H. unfold roots, indices. rewrite (sp_n _ _ H).
  apply filter_ext_elem. intros z _. apply (sp_is_root _ _ H).
Qed.

Lemma find_spec s x :
  wf s → 0 ≤ x < n s →
  ∃ r s', find x s = Ok r s' ∧ wf s' ∧ same_partition s s' ∧
          root_of s x = Some r ∧ is_root s r.
Proof.
  intros Hwf Hx. destruct (find_wf s x Hwf Hx) as (l & r & H & Hfind & Hwf').
  eexists r, _. split; [exact Hfind|]. split; [done|].
  pose proof (wf_forest s Hwf) as Hf. pose proof (wf_parent_len s Hwf) as Hp.
  split; [|split].
  - constructor; try done.
    + intros z. by apply (compress_root_of s x l r).
    + intros v. by apply (compress_is_root s x l r).
  - by eapply root_of_rpath.
  - by eapply rpath_is_root.
Qed.

(** [unite] on a well-formed partition always returns; [s2] is the state
    after the two calls of [find]. *)
Lemma unite_spec s x y :
  wf s → 0 ≤ x < n s → 0 ≤ y < n s →
  ∃ rx ry s2,
    root_of s x = Some rx ∧ root_of s y = Some ry ∧
    is_root s rx ∧ is_root s ry ∧
    wf s2 ∧ same_partition s s2 ∧
    if decide (rx = ry) then unite x y s = Ok false s2
    else ∃ kx ky zx zy,
      rd (rank s) rx = Some kx ∧ rd (rank s) ry = Some ky ∧
      rd (size s) rx = Some zx ∧ rd (size s) ry = Some zy ∧
      unite x y s = Ok true (link_state s2 rx ry kx ky zx zy) ∧
      wf (link_state s2 rx ry kx ky zx zy).
Proof.
  intros Hwf Hx Hy.
  destruct (find_spec s x Hwf Hx) as (rx & s1 & Hf1 & Hwf1 & Hs1 & Hrx & Hirx).
  assert (Hy1 : 0 ≤ y < n s1) by (by rewrite (sp_n _ _ Hs1)).
  destruct (find_spec s1 y Hwf1 Hy1) as (ry & s2 & Hf2 & Hwf2 & Hs2 & Hry & Hiry).
  pose proof (same_partition_trans _ _ _ Hs1 Hs2) as Hs12.
  exists rx, ry, s2.
  rewrite (sp_root_of _ _ Hs1) in Hry. apply (sp_is_root _ _ Hs1) in Hiry.
  do 6 (split; [done|]).
  rewrite unite_unfold.
  rewrite (bind_Ok _ _ _ _ _ Hf1), (bind_Ok _ _ _ _ _ Hf2).
  case_decide as E.
  - unfold link. by rewrite (proj2 (Z.eqb_eq rx ry) E).
  - assert (Hirx2 : is_root s2 rx) by (by apply (sp_is_root _ _ Hs12)).
    assert (Hiry2 : is_root s2 ry) by (by apply (sp_is_root _ _ Hs12)).
    destruct (link_spec s2 rx ry Hwf2 Hirx2 Hiry2 E)
      as (kx & ky & zx & zy & Hkx & Hky & Hzx & Hzy & Hlink & Hwf3).
    exists kx, ky, zx, zy.
    rewrite <- (sp_rank _ _ Hs12), <- (sp_size _ _ Hs12). done.
Qed.

(** ** The freshly constructed partition *)

Lemma length_filter_unique {A} (P : A → Prop) `{∀ x, Decision (P x)} l r :
  NoDup l → r ∈ l → (∀ x, x ∈ l → (P x ↔ x = r)) →
  length (filter P l) = 1%nat.
Proof.
  induction l as [|a l IH]; intros Hnd Hin Hiff; [inversion Hin|].
  apply NoDup_cons in Hnd as [Ha Hnd].
  rewrite filter_cons.
  pose proof (Hiff a (list_elem_of_here a l)) as Hpa.
  apply elem_of_cons in Hin as [-> | Hin].
  - rewrite decide_True by tauto. simpl. f_equal.
    rewrite filter_none; [done|].
    intros x Hx Hp. apply Hiff in Hp; [|by right]. congruence.
  - rewrite decide_False by (intros Hp; apply Hpa in Hp; by subst).
    apply IH; [done | done |]. intros x Hx. apply Hiff. by right.
Qed.

Lemma rd_seqZ m x : 0 ≤ x < m → rd (seqZ 0 m) x = Some x.
Proof.
  intros H. unfold rd.
  rewrite (proj2 (in_bounds_iff _ _)) by (rewrite length_seqZ; lia).
  rewrite lookup_seqZ. split; lia.
Qed.

Lemma rd_replicate m v x :
  0 ≤ x < m → rd (replicate (Z.to_nat m) v) x = Some v.
Proof.
  intros H. unfold rd.
  rewrite (proj2 (in_bounds_iff _ _)) by (rewrite length_replicate; lia).
  apply lookup_replicate_2. lia.
Qed.

Lemma singletons_is_root m x : is_root (singletons m) x ↔ 0 ≤ x < m.
Proof.
  unfold is_root. simpl. split.
  - intros H. apply rd_Some_bounds in H. rewrite length_seqZ in H. lia.
  - apply rd_seqZ.
Qed.

Lemma singletons_root_of m x :
  0 ≤ x < m → root_of (singletons m) x = Some x.
Proof. intros H. apply root_of_root. by apply singletons_is_root. Qed.

Lemma singletons_members m r :
  0 ≤ r < m → length (members (singletons m) r) = 1%nat.
Proof.
  intros H. unfold members. apply (length_filter_unique _ _ r).
  - apply NoDup_indices.
  - by apply elem_of_indices.
  - intros x Hx. apply elem_of_indices in Hx. simpl in Hx.
    rewrite singletons_root_of by done. split; congruence.
Qed.

Lemma singletons_wf m : 0 ≤ m ≤ Int.INT_MAX → wf (singletons m).
Proof.
  intros Hm. constructor; simpl.
  - done.
  - rewrite length_seqZ. lia.
  - rewrite length_replicate. lia.
  - rewrite length_replicate. lia.
  - intros x Hx. exists [x], x. constructor. by apply rd_seqZ.
  - intros r Hr. apply singletons_is_root in Hr.
    rewrite singletons_members by done. by apply rd_replicate.
  - intros r Hr. apply singletons_is_root in Hr.
    rewrite singletons_members by done. exists 0.
    split; [by apply rd_replicate | lia].
  - unfold roots. rewrite filter_all.
    + unfold indices. simpl. rewrite length_seqZ. lia.
    + intros x Hx. apply elem_of_indices in Hx.
      by apply singletons_is_root.
Qed.

Lemma new_singletons n0 :
  0 ≤ n0 ≤ Int.INT_MAX → new n0 = Ok (singletons n0) tt.
Proof.
  intros H. unfold new. rewrite (proj2 (Z.ltb_ge _ _)) by lia.
  rewrite to_uint32_small by (unfold Int.INT_MAX, Int.UINT32_MOD in *; lia).
  done.
Qed.

Lemma init_rows_singletons rows :
  0 ≤ rows ≤ Int.INT_MAX → init_rows rows = singletons rows.
Proof.
  intros H. unfold init_rows, singletons. f_equal.
  rewrite <- (list_fmap_id (seqZ 0 rows)) at 2.
  apply list_fmap_ext. intros i x Hx. apply lookup_seqZ in Hx.
  simpl. apply to_int_small. lia.
Qed.

(** ** What [find] never touches *)

Lemma find_fuel_frame fuel x s r s' :
  find_fuel fuel x s = Ok r s' →
  rank s' = rank s ∧ size s' = size s ∧ n s' = n s ∧
  components s' = components s ∧ length (parent s') = length (parent s).
Proof.
  revert x s r s'. induction fuel as [|k IH]; intros x s r s' H; [done|].
  simpl in H.
  apply bind_inv_Ok in H as (px & s1 & H1 & H).
  apply bind_inv_Ok in H as ([] & s2 & H2 & H3).
  unfold load_parent, lift_opt in H1, H3.
  destruct (rd (parent s) x) as [px0|]; [|done]. injection H1 as -> ->.
  destruct (rd (parent s2) x) as [r0|]; [|done]. injection H3 as -> ->.
  destruct (negb (px =? x)).
  - apply bind_inv_Ok in H2 as (r' & s3 & H2 & H4).
    apply IH in H2 as (? & ? & ? & ? & Hl).
    unfold store_parent, wr in H4.
    destruct (in_bounds (parent s3) x); [|done]. injection H4 as <-.
    simpl. rewrite length_insert. done.
  - injection H2 as <-. done.
Qed.

Lemma find_frame x s r s' :
  find x s = Ok r s' →
  rank s' = rank s ∧ size s' = size s ∧ n s' = n s ∧
  components s' = components s ∧ length (parent s') = length (parent s).
Proof. apply find_fuel_frame. Qed.

(** [find] never throws. *)
Lemma find_fuel_no_throw fuel x s msg s' : find_fuel fuel x s ≠ Throw msg s'.
Proof.
  revert x s msg s'. induction fuel as [|k IH]; intros x s msg s'; [done|].
  simpl. unfold mbind, M_bind, load_parent, lift_opt.
  destruct (rd (parent s) x) as [px|]; [|done].
  destruct (negb (px =? x)).
  - destruct (find_fuel k px s) as [r s1| m s1 | |] eqn:E; try done.
    + unfold store_parent. destruct (wr (parent s1) x r); [|done].
      simpl. destruct (rd _ x); done.
    + by apply IH in E.
  - unfold mret, M_ret. destruct (rd (parent s) x); done.
Qed.

(** ** How a call may change the partition *)

Lemma evolves_refl s : evolves s s.
Proof.
  constructor; [done | |].
  - intros x k H. exists k. split; [done | lia].
  - intros x r k H1 H2. exists r, k. split; [done|]. split; [done | lia].
Qed.

Lemma evolves_trans s1 s2 s3 : evolves s1 s2 → evolves s2 s3 → evolves s1 s3.
Proof.
  intros [Hn1 Hr1 Hc1] [Hn2 Hr2 Hc2]. constructor; [congruence | |].
  - intros x k H. destruct (Hr1 _ _ H) as (k1 & H1 & ?).
    destruct (Hr2 _ _ H1) as (k2 & H2 & ?). exists k2. split; [done | lia].
  - intros x r k H H'. destruct (Hc1 _ _ _ H H') as (r1 & k1 & Ha & Hb & ?).
    destruct (Hc2 _ _ _ Ha Hb) as (r2 & k2 & ? & ? & ?).
    exists r2, k2. split; [done|]. split; [done | lia].
Qed.

Lemma good_refl s : wf s → good s s.
Proof. intros H. split; [done | apply evolves_refl]. Qed.

Lemma good_trans s1 s2 s3 : good s1 s2 → good s2 s3 → good s1 s3.
Proof. intros [_ H1] [? H2]. split; [done | by eapply evolves_trans]. Qed.

Lemma same_partition_evolves s s' : same_partition s s' → evolves s s'.
Proof.
  intros [Hn Hr Hz Hc Hro Hir]. constructor; [done | |].
  - intros x k H. exists k. rewrite Hr. split; [done | lia].
  - intros x r k H1 H2. exists r, k. rewrite Hro, Hr.
    split; [done|]. split; [done | lia].
Qed.

Lemma good_bind {A B} (m : M A) (k : A → M B) s :
  post (good s) (m s) →
  (∀ a s1, m s = Ok a s1 → good s s1 → post (good s1) (k a s1)) →
  post (good s) ((m ≫= k) s).
Proof.
  intros Hm Hk. unfold mbind, M_bind.
  destruct (m s) as [a s1 | msg s1 | |] eqn:E; simpl in *; try done.
  specialize (Hk a s1 eq_refl Hm).
  destruct (k a s1); simpl in *; try done; by eapply good_trans.
Qed.

Lemma find_good s x : wf s → 0 ≤ x < n s → post (good s) (find x s).
Proof.
  intros Hwf Hx.
  destruct (find_spec s x Hwf Hx) as (r & s' & -> & Hwf' & Hs & _).
  split; [done | by apply same_partition_evolves].
Qed.

Lemma merged_evolves s a b ka kb zsum rk' :
  wf s → is_root s a → is_root s b → a ≠ b →
  rd (rank s) a = Some ka → rd (rank s) b = Some kb →
  (rk' = rank s ∧ ka < kb ∨ rk' = upd (rank s) b (kb + 1) ∧ ka = kb) →
  evolves s (merged s a b zsum rk').
Proof.
  intros Hwf Ha Hb Hab Hka Hkb Hrk.
  pose proof (rd_Some_bounds _ _ _ Hkb) as Hbb.
  assert (Hrank : ∀ x k, rd (rank s) x = Some k →
            ∃ k', rd rk' x = Some k' ∧ k ≤ k' ∧ (x = b → kb ≤ k')).
  { intros x k Hx. destruct Hrk as [[-> ?] | [-> ?]].
    - exists k. split; [done|]. split; [lia|]. intros ->. 
      assert (k = kb) by congruence. lia.
    - rewrite rd_upd by done. case_decide as E.
      + subst x. assert (k = kb) by congruence. exists (kb + 1).
        split; [done | lia].
      + exists k. split; [done|]. split; [lia | done]. }
  constructor; [done | |].
  - intros x k Hx. destruct (Hrank x k Hx) as (k' & ? & ? & _). eauto.
  - intros x r k Hx Hr.
    rewrite (link_root_of s (merged s a b zsum rk') a b Hwf Ha Hb Hab eq_refl).
    rewrite Hx. case_decide as E.
    + injection E as ->. assert (k = ka) by congruence. subst k.
      destruct (Hrank b kb Hkb) as (k' & ? & ? & Hb').
      exists b, k'. split; [done|]. split; [done|].
      specialize (Hb' eq_refl). destruct Hrk as [[_ ?] | [_ ?]]; lia.
    + destruct (Hrank r k Hr) as (k' & ? & ? & _). exists r, k'. done.
Qed.

Lemma link_state_evolves s rx ry kx ky zx zy :
  wf s → is_root s rx → is_root s ry → rx ≠ ry →
  rd (rank s) rx = Some kx → rd (rank s) ry = Some ky →
  evolves s (link_state s rx ry kx ky zx zy).
Proof.
  intros Hwf Hrx Hry Hne Hkx Hky. unfold link_state.
  destruct (kx <? ky) eqn:E1; [|destruct (kx >? ky) eqn:E2].
  - apply (merged_evolves s rx ry kx ky); try done. left. split; [done | lia].
  - apply (merged_evolves s ry rx ky kx); try done. left. split; [done | lia].
  - assert (kx = ky) as <- by lia.
    apply (merged_evolves s ry rx kx kx); try done. by right.
Qed.

Lemma unite_good s x y :
  wf s → 0 ≤ x < n s → 0 ≤ y < n s → post (good s) (unite x y s).
Proof.
  intros Hwf Hx Hy.
  destruct (unite_spec s x y Hwf Hx Hy)
    as (rx & ry & s2 & Hrx & Hry & Hirx & Hiry & Hwf2 & Hs & H).
  pose proof (same_partition_evolves _ _ Hs) as Hev.
  case_decide as E.
  - rewrite H. by split.
  - destruct H as (kx & ky & zx & zy & Hkx & Hky & Hzx & Hzy & -> & Hwf3).
    split; [done|]. eapply evolves_trans; [exact Hev|].
    apply link_state_evolves; try done.
    + by apply (sp_is_root _ _ Hs).
    + by apply (sp_is_root _ _ Hs).
    + by rewrite (sp_rank _ _ Hs).
    + by rewrite (sp_rank _ _ Hs).
Qed.

(** ** Loops over [find] and [unite] *)

Lemma for_each_good {A} (l : list A) (body : A → M unit) s :
  (∀ a s1, a ∈ l → wf s1 → n s1 = n s → post (good s1) (body a s1)) →
  wf s → post (good s) (for_each l body s).
Proof.
  revert s. induction l as [|a l IH]; intros s Hbody Hwf; simpl.
  - by apply good_refl.
  - apply good_bind.
    + apply Hbody; [left | done | done].
    + intros [] s1 _ [Hwf1 Hev1]. apply IH; [|done].
      intros a' s2 Ha' Hwf2 Hn2. apply Hbody; [by right | done |].
      rewrite Hn2. apply (ev_n _ _ Hev1).
Qed.

Lemma find_all_good l s :
  (∀ i, i ∈ l → 0 ≤ Int.to_int i < n s) → wf s →
  post (good s) (find_all l s).
Proof.
  revert s. induction l as [|i l IH]; intros s Hl Hwf; simpl.
  - by apply good_refl.
  - apply good_bind; [apply find_good; [done | apply Hl; left]|].
    intros r s1 _ [Hwf1 Hev1]. apply good_bind.
    + apply IH; [|done]. intros j Hj. rewrite (ev_n _ _ Hev1).
      apply Hl. by right.
    + intros rs s2 _ [Hwf2 _]. by apply good_refl.
Qed.

Lemma find_unique_good l acc s :
  (∀ i, i ∈ l → 0 ≤ Int.to_int i < n s) → wf s →
  post (good s) (find_unique l acc s).
Proof.
  revert acc s. induction l as [|i l IH]; intros acc s Hl Hwf; simpl.
  - by apply good_refl.
  - apply good_bind; [apply find_good; [done | apply Hl; left]|].
    intros r s1 _ [Hwf1 Hev1].
    apply IH; [|done]. intros j Hj. rewrite (ev_n _ _ Hev1).
    apply Hl. by right.
Qed.

(** ** Every call keeps the invariant *)

Lemma post_ret {A} (a : A) s : wf s → post (good s) ((mret a : M A) s).
Proof. intros H. by apply good_refl. Qed.

Lemma good_then_ret {A B} (m : M A) (f : A → B) s :
  post (good s) (m s) → post (good s) ((a ← m; (mret (f a) : M B)) s).
Proof.
  intros H. apply good_bind; [done|].
  intros a s1 _ [Hwf _]. by apply post_ret.
Qed.

Lemma lift_opt_good {A} (o : option A) s : wf s → post (good s) (lift_opt o s).
Proof. intros H. destruct o; simpl; [by apply good_refl | done]. Qed.

Lemma load_rank_good i s : wf s → post (good s) (load_rank i s).
Proof. intros H. by apply lift_opt_good. Qed.

Lemma load_size_good i s : wf s → post (good s) (load_size i s).
Proof. intros H. by apply lift_opt_good. Qed.

Lemma to_int_index s i : wf s → 0 ≤ i < n s → Int.to_int i = i.
Proof. intros H Hi. apply to_int_small. pose proof (wf_n s H). lia. Qed.

Lemma add_edges_good a b_array b_array_size s :
  wf s → 0 ≤ a < n s → (∀ b, b ∈ data b_array → 0 ≤ b < n s) →
  post (good s) (add_edges a b_array b_array_size s).
Proof.
  intros Hwf Ha Hb. unfold add_edges.
  destruct (negb (ndim b_array =? 1)); [by apply good_refl|].
  apply good_bind; [by apply lift_opt_good|].
  intros d0 s1 Hd0 [Hwf1 Hev1].
  assert (s1 = s) as ->.
  { unfold lift_opt in Hd0. destruct (shape b_array !! 0%nat); congruence. }
  destruct (negb (d0 =? b_array_size)); [by apply good_refl|].
  apply for_each_good; [|done].
  intros i s2 _ Hwf2 Hn2.
  apply good_bind; [by apply lift_opt_good|].
  intros b s3 Hb3 [Hwf3 Hev3].
  assert (s3 = s2 ∧ b ∈ data b_array) as [-> Hin].
  { unfold lift_opt in Hb3.
    destruct (data b_array !! Z.to_nat i) eqn:E; [|done].
    injection Hb3 as -> ->. split; [done|]. by eapply list_elem_of_lookup_2. }
  apply good_then_ret.
  rewrite (to_int_index s a), (to_int_index s b) by auto.
  apply unite_good; [done | lia | rewrite Hn2; auto].
Qed.

Lemma indices_to_int s i :
  wf s → i ∈ seqZ 0 (n s) → 0 ≤ Int.to_int i < n s.
Proof.
  intros Hwf Hi. apply elem_of_seqZ in Hi.
  rewrite (to_int_index s i) by (try done; lia). lia.
Qed.

Lemma run_call_good s c :
  wf s → in_range s c → post (good s) (run_call c s).
Proof.
  intros Hwf Hc. destruct c; simpl in Hc; unfold run_call.
  - apply good_then_ret. by apply find_good.
  - apply good_then_ret. destruct Hc. by apply unite_good.
  - apply good_then_ret. unfold get_component_rank.
    apply good_bind; [by apply find_good|].
    intros r s1 _ [Hwf1 _]. by apply load_rank_good.
  - apply good_then_ret. unfold get_component_size.
    apply good_bind; [by apply find_good|].
    intros r s1 _ [Hwf1 _]. by apply load_size_good.
  - apply good_then_ret. by apply good_refl.
  - apply good_then_ret. unfold get_ancestors.
    apply find_all_good; [|done]. intros i. by apply indices_to_int.
  - apply good_then_ret. unfold get_unique_ancestors.
    apply find_unique_good; [|done]. intros i. by apply indices_to_int.
  - destruct Hc. apply good_bind; [by apply add_edges_good|].
    intros [] s1 _ [Hwf1 _]. by apply post_ret.
Qed.

Lemma build_edges_good t acc rows cols s :
  wf s → n s = rows →
  post (good s) (build_edges t acc rows cols s).
Proof.
  intros Hwf Hn. unfold build_edges.
  apply for_each_good; [|done]. intros i s1 Hi Hwf1 Hn1.
  apply for_each_good; [|done]. intros j s2 Hj Hwf2 Hn2.
  apply elem_of_seqZ in Hi. apply elem_of_seqZ in Hj.
  unfold pair_body. apply good_bind; [by apply lift_opt_good|].
  intros d s3 Hd [Hwf3 Hev3].
  assert (s3 = s2) as ->.
  { unfold lift_opt in Hd. destruct (acc _ _ _ _); congruence. }
  destruct (F32.le _ _); [|by apply post_ret].
  apply good_then_ret.
  rewrite (to_int_index s2 i), (to_int_index s2 j) by (try done; lia).
  apply unite_good; [done | lia | lia].
Qed.

Lemma construct_wf body s0 s :
  post (good s0) (body s0) → construct body s0 = Ok s tt → wf s.
Proof.
  unfold construct. intros H Hc.
  destruct (body s0) as [[] s1 | | |]; try done.
  injection Hc as <-. apply H.
Qed.

Theorem reachable_wf s : reachable s → wf s.
Proof.
  induction 1 as [n0 s Hn0 Hnew | array t s Hrows Hnew
                 | array rows cols t s Hrows Hnew
                 | s c v s' _ IH Hc Hrun | s c msg s' _ IH Hc Hrun].
  - unfold Int.in_int in Hn0.
    apply andb_true_iff in Hn0 as [_ Hmax]. apply Z.leb_le in Hmax.
    destruct (decide (n0 < 0)) as [Hneg|Hpos].
    + unfold new in Hnew. by rewrite (proj2 (Z.ltb_lt _ _) Hneg) in Hnew.
    + rewrite new_singletons in Hnew by lia.
      injection Hnew as <-. apply singletons_wf. lia.
  - unfold new_spatial, new_spatial_with in Hnew.
    destruct (negb (ndim array =? 2)); [done|].
    destruct (shape array !! 0%nat) as [d0|] eqn:E0; [|done].
    destruct (shape array !! 1%nat) as [d1|]; [|done].
    specialize (Hrows d0 eq_refl).
    assert (0 ≤ Int.to_uint32 d0) by (apply Z.mod_pos_bound; done).
    eapply construct_wf; [|exact Hnew].
    rewrite init_rows_singletons by lia.
    apply build_edges_good; [apply singletons_wf; lia | done].
  - unfold new_spatial_checked, new_spatial_checked_with in Hnew.
    destruct (negb (ndim array =? 2)); [done|].
    destruct (shape array !! 0%nat) as [d0|] eqn:E0; [|done].
    destruct (shape array !! 1%nat) as [d1|]; [|done].
    destruct (negb (d0 =? rows) || negb (d1 =? cols)); [done|].
    eapply construct_wf; [|exact Hnew].
    rewrite init_rows_singletons by lia.
    apply build_edges_good; [apply singletons_wf; lia | done].
  - pose proof (run_call_good s c IH Hc) as H. rewrite Hrun in H. apply H.
  - pose proof (run_call_good s c IH Hc) as H. rewrite Hrun in H. apply H.
Qed.

(** ** Calls return on a well-formed partition *)

Lemma find_all_spec l s :
  (∀ i, i ∈ l → 0 ≤ Int.to_int i < n s) → wf s →
  ∃ rs s', find_all l s = Ok rs s' ∧ wf s' ∧ same_partition s s' ∧
    Forall2 (fun i r => root_of s (Int.to_int i) = Some r) l rs.
Proof.
  revert s. induction l as [|i l IH]; intros s Hl Hwf; simpl.
  - exists [], s. split; [done|]. split; [done|].
    split; [apply same_partition_refl | constructor].
  - destruct (find_spec s (Int.to_int i) Hwf (Hl i (list_elem_of_here i l)))
      as (r & s1 & Hf & Hwf1 & Hs1 & Hr & _).
    destruct (IH s1) as (rs & s2 & Hfa & Hwf2 & Hs2 & Hall); [|done|].
    { intros j Hj. rewrite (sp_n _ _ Hs1). apply Hl. by right. }
    exists (r :: rs), s2.
    rewrite (bind_Ok _ _ _ _ _ Hf), (bind_Ok _ _ _ _ _ Hfa).
    split; [done|]. split; [done|].
    split; [by eapply same_partition_trans|].
    constructor; [done|]. eapply Forall2_impl; [exact Hall|].
    intros j r' Hj. simpl in Hj. by rewrite <- (sp_root_of _ _ Hs1).
Qed.

Lemma find_unique_spec l acc s :
  (∀ i, i ∈ l → 0 ≤ Int.to_int i < n s) → wf s →
  ∃ rs s', find_unique l acc s = Ok rs s' ∧ wf s' ∧ same_partition s s'.
Proof.
  revert acc s. induction l as [|i l IH]; intros acc s Hl Hwf; simpl.
  - exists acc, s. split; [done|]. split; [done | apply same_partition_refl].
  - destruct (find_spec s (Int.to_int i) Hwf (Hl i (list_elem_of_here i l)))
      as (r & s1 & Hf & Hwf1 & Hs1 & Hr & _).
    destruct (IH (set_insert r acc) s1) as (rs & s2 & Hfa & Hwf2 & Hs2); [|done|].
    { intros j Hj. rewrite (sp_n _ _ Hs1). apply Hl. by right. }
    exists rs, s2. rewrite (bind_Ok _ _ _ _ _ Hf).
    split; [done|]. split; [done | by eapply same_partition_trans].
Qed.

Lemma get_component_rank_spec s x :
  wf s → 0 ≤ x < n s →
  ∃ r k s', get_component_rank x s = Ok k s' ∧ wf s' ∧ same_partition s s' ∧
    root_of s x = Some r ∧ rd (rank s) r = Some k.
Proof.
  intros Hwf Hx.
  destruct (find_spec s x Hwf Hx) as (r & s' & Hf & Hwf' & Hs & Hr & Hir).
  destruct (wf_rank s Hwf r Hir) as (k & Hk & _).
  exists r, k, s'. unfold get_component_rank. rewrite (bind_Ok _ _ _ _ _ Hf).
  split; [apply load_rank_Ok; by rewrite (sp_rank _ _ Hs) | done].
Qed.

Lemma get_component_size_spec s x :
  wf s → 0 ≤ x < n s →
  ∃ r s', get_component_size x s = Ok (Z.of_nat (length (members s r))) s' ∧
    wf s' ∧ same_partition s s' ∧ root_of s x = Some r.
Proof.
  intros Hwf Hx.
  destruct (find_spec s x Hwf Hx) as (r & s' & Hf & Hwf' & Hs & Hr & Hir).
  exists r, s'. unfold get_component_size. rewrite (bind_Ok _ _ _ _ _ Hf).
  split; [|done]. apply load_size_Ok. rewrite (sp_size _ _ Hs).
  by apply wf_size.
Qed.

Lemma query_spec s c :
  wf s → in_range s c → is_query c = true →
  ∃ v s', run_call c s = Ok v s' ∧ wf s' ∧ same_partition s s' ∧
          v ≠ VBool true.
Proof.
  intros Hwf Hc Hq. destruct c; try done; simpl in Hc; unfold run_call.
  - destruct (find_spec s x Hwf Hc) as (r & s' & Hf & Hwf' & Hs & _).
    exists (VInt r), s'. by rewrite (bind_Ok _ _ _ _ _ Hf).
  - destruct (get_component_rank_spec s x Hwf Hc)
      as (r & k & s' & Hf & Hwf' & Hs & _).
    exists (VInt k), s'. by rewrite (bind_Ok _ _ _ _ _ Hf).
  - destruct (get_component_size_spec s x Hwf Hc)
      as (r & s' & Hf & Hwf' & Hs & _).
    eexists (VInt _), s'. by rewrite (bind_Ok _ _ _ _ _ Hf).
  - eexists (VInt _), s. split; [reflexivity|].
    split; [done|]. split; [apply same_partition_refl | done].
  - destruct (find_all_spec (seqZ 0 (n s)) s) as (rs & s' & Hf & Hwf' & Hs & _);
      [intros i; by apply indices_to_int | done |].
    exists (VList rs), s'.
    by rewrite (bind_Ok get_ancestors _ s _ _ Hf).
  - destruct (find_unique_spec (seqZ 0 (n s)) [] s) as (rs & s' & Hf & Hwf' & Hs);
      [intros i; by apply indices_to_int | done |].
    exists (VList rs), s'.
    by rewrite (bind_Ok get_unique_ancestors _ s _ _ Hf).
Qed.

Lemma link_state_frame s rx ry kx ky zx zy :
  n (link_state s rx ry kx ky zx zy) = n s ∧
  components (link_state s rx ry kx ky zx zy) = components s - 1.
Proof. unfold link_state. by repeat case_match. Qed.

(** A call that is not [add_edges] returns, and the counter drops by one
    exactly when the call is a [unite] that returns [true]. *)
Lemma plain_spec s c :
  wf s → in_range s c → is_plain c = true →
  ∃ v s', run_call c s = Ok v s' ∧ wf s' ∧ n s' = n s ∧
    components s' = components s - successes [v].
Proof.
  intros Hwf Hc Hp. destruct (is_query c) eqn:Hq.
  - destruct (query_spec s c Hwf Hc Hq) as (v & s' & Hrun & Hwf' & Hs & Hv).
    exists v, s'. split; [done|]. split; [done|]. split; [apply (sp_n _ _ Hs)|].
    rewrite (sp_components _ _ Hs). unfold successes.
    rewrite filter_cons, decide_False by done. simpl. lia.
  - destruct c; try done. simpl in Hc. destruct Hc as [Hx Hy].
    destruct (unite_spec s x y Hwf Hx Hy)
      as (rx & ry & s2 & _ & _ & _ & _ & Hwf2 & Hs & H).
    unfold run_call. case_decide as E.
    + exists (VBool false), s2. rewrite (bind_Ok _ _ _ _ _ H).
      split; [done|]. split; [done|]. split; [apply (sp_n _ _ Hs)|].
      rewrite (sp_components _ _ Hs). unfold successes. simpl. lia.
    + destruct H as (kx & ky & zx & zy & _ & _ & _ & _ & H & Hwf3).
      eexists (VBool true), _. rewrite (bind_Ok _ _ _ _ _ H).
      split; [done|]. split; [done|].
      destruct (link_state_frame s2 rx ry kx ky zx zy) as [-> ->].
      split; [apply (sp_n _ _ Hs)|].
      rewrite (sp_components _ _ Hs). unfold successes. simpl. lia.
Qed.

(** * Single-precision arithmetic: rounding is monotone *)

Section FloatFacts.

Variables prec emax : Z.
Hypothesis prec_pos : 0 < prec.
Hypothesis emin_nonpos : 3 - emax - prec ≤ 0.

Local Abbreviation emin := (SpecFloat.emin prec emax).
Local Abbreviation fexp := (SpecFloat.fexp prec emax).

Lemma digits_pos m : 0 < digits m.
Proof. unfold digits. lia. Qed.

Lemma digits_spec m : 2 ^ (digits m - 1) ≤ Zpos m < 2 ^ digits m.
Proof.
  unfold digits. induction m as [m IH | m IH |]; simpl digits2_pos.
  - rewrite Pos2Z.inj_succ.
    replace (Z.succ (Z.pos (digits2_pos m)) - 1) with (Z.succ (Z.pos (digits2_pos m) - 1)) by lia.
    rewrite !Z.pow_succ_r by lia. lia.
  - rewrite Pos2Z.inj_succ.
    replace (Z.succ (Z.pos (digits2_pos m)) - 1) with (Z.succ (Z.pos (digits2_pos m) - 1)) by lia.
    rewrite !Z.pow_succ_r by lia. lia.
  - simpl. lia.
Qed.

Lemma digits_unique m d : 2 ^ (d - 1) ≤ Zpos m < 2 ^ d → digits m = d.
Proof.
  intros [H1 H2]. pose proof (digits_spec m) as [H3 H4]. pose proof (digits_pos m).
  assert (0 < d).
  { destruct (Z.lt_trichotomy d 0) as [?|[->|?]]; [|simpl in H2; lia|done].
    rewrite Z.pow_neg_r in H2 by done. lia. }
  destruct (Z.lt_trichotomy (digits m) d) as [Hlt|[?|Hgt]]; [|done|].
  - assert (2 ^ digits m ≤ 2 ^ (d - 1)) by (apply Z.pow_le_mono_r; lia). lia.
  - assert (2 ^ d ≤ 2 ^ (digits m - 1)) by (apply Z.pow_le_mono_r; lia). lia.
Qed.

Lemma digits_le m1 m2 : (m1 ≤ m2)%positive → digits m1 ≤ digits m2.
Proof.
  intros H. pose proof (digits_spec m1) as [H1 _]. pose proof (digits_spec m2) as [_ H2].
  pose proof (digits_pos m1). pose proof (digits_pos m2).
  destruct (Z_lt_le_dec (digits m2) (digits m1)) as [Hlt|]; [|done].
  assert (2 ^ digits m2 ≤ 2 ^ (digits m1 - 1)) by (apply Z.pow_le_mono_r; lia). lia.
Qed.

Lemma fexp_mono x y : x ≤ y → fexp x ≤ fexp y.
Proof. unfold SpecFloat.fexp. lia. Qed.

Lemma fexp_ge_emin x : emin ≤ fexp x.
Proof. unfold SpecFloat.fexp. lia. Qed.


Lemma pow2_pos k : 0 < 2 ^ k ∨ k < 0.
Proof. destruct (Z_lt_le_dec k 0); [by right | left; by apply Z.pow_pos_nonneg]. Qed.

Lemma pow2_le_digits m a : 2 ^ a ≤ Zpos m → a < digits m.
Proof.
  intros H. pose proof (digits_spec m) as [_ H2]. pose proof (digits_pos m).
  destruct (Z_lt_le_dec a (digits m)) as [|Hge]; [done|].
  assert (2 ^ digits m ≤ 2 ^ a) by (apply Z.pow_le_mono_r; lia). lia.
Qed.

(** The number of binary digits of a quotient by a power of two. *)
Lemma digits_div m k :
  0 ≤ k < digits m →
  ∃ q, Zpos m / 2 ^ k = Zpos q ∧ digits q = digits m - k.
Proof.
  intros Hk. pose proof (digits_spec m) as [H1 H2].
  assert (Hp : 0 < 2 ^ k) by (apply Z.pow_pos_nonneg; lia).
  assert (Hlo : 2 ^ (digits m - 1 - k) ≤ Zpos m / 2 ^ k).
  { apply Z.div_le_lower_bound; [done|].
    rewrite <- Z.pow_add_r by lia.
    by replace (k + (digits m - 1 - k)) with (digits m - 1) by lia. }
  assert (Hhi : Zpos m / 2 ^ k < 2 ^ (digits m - k)).
  { apply Z.div_lt_upper_bound; [done|].
    rewrite <- Z.pow_add_r by lia.
    by replace (k + (digits m - k)) with (digits m) by lia. }
  assert (0 < 2 ^ (digits m - 1 - k)) by (apply Z.pow_pos_nonneg; lia).
  destruct (Zpos m / 2 ^ k) as [|q|q] eqn:E; try lia.
  exists q. split; [done|]. apply digits_unique.
  by replace (digits m - k - 1) with (digits m - 1 - k) by lia.
Qed.

Lemma div_pow2_zero m k : 0 ≤ k → Zpos m / 2 ^ k = 0 → digits m ≤ k.
Proof.
  intros Hk H. destruct (Z_lt_le_dec k (digits m)) as [Hlt|]; [|done].
  destruct (digits_div m k) as (q & Hq & _); [lia|]. congruence.
Qed.

Lemma digits_succ m :
  digits (m + 1) = digits m ∨
  (digits (m + 1) = digits m + 1 ∧ Zpos (m + 1) = 2 ^ digits m).
Proof.
  pose proof (digits_spec m) as [H1 H2]. pose proof (digits_pos m).
  destruct (Z_lt_le_dec (Zpos (m + 1)) (2 ^ digits m)) as [Hlt|Hge].
  - left. apply digits_unique. lia.
  - right. assert (Zpos (m + 1) = 2 ^ digits m) as E by lia.
    split; [|done]. apply digits_unique.
    replace (digits m + 1 - 1) with (digits m) by lia.
    rewrite Z.pow_add_r by lia. lia.
Qed.

Lemma Zdigits2_pos p : Zdigits2 (Zpos p) = digits p.
Proof. reflexivity. Qed.

(** ** Shifting right *)

Lemma shr_1_m mrs : 0 ≤ shr_m mrs → shr_m (shr_1 mrs) = shr_m mrs / 2.
Proof.
  destruct mrs as [m r s]. simpl. intros H.
  rewrite <- Z.div2_div.
  destruct m as [|[p|p|]|p]; try reflexivity. lia.
Qed.

Lemma pow2_xO p : 2 ^ Zpos p~0 = 2 ^ Zpos p * 2 ^ Zpos p.
Proof.
  replace (Zpos p~0) with (Zpos p + Zpos p) by lia.
  apply Z.pow_add_r; lia.
Qed.

Lemma pow2_xI p : 2 ^ Zpos p~1 = 2 * (2 ^ Zpos p * 2 ^ Zpos p).
Proof.
  replace (Zpos p~1) with (1 + (Zpos p + Zpos p)) by lia.
  rewrite !Z.pow_add_r by lia. reflexivity.
Qed.

Lemma iter_pos_shr_m p mrs :
  0 ≤ shr_m mrs → shr_m (SpecFloat.iter_pos shr_1 p mrs) = shr_m mrs / 2 ^ Zpos p.
Proof.
  revert mrs. induction p as [p IH | p IH |]; intros mrs H; simpl SpecFloat.iter_pos.
  - assert (H1 : 0 ≤ shr_m (shr_1 mrs)).
    { rewrite shr_1_m by done. by apply Z.div_pos. }
    assert (H2 : 0 ≤ shr_m (SpecFloat.iter_pos shr_1 p (shr_1 mrs))).
    { rewrite IH by done. apply Z.div_pos; [done | by apply Z.pow_pos_nonneg]. }
    rewrite IH, IH, shr_1_m by done.
    assert (0 < 2 ^ Zpos p) by (by apply Z.pow_pos_nonneg).
    rewrite !Z.div_div by lia. by rewrite pow2_xI.
  - assert (H2 : 0 ≤ shr_m (SpecFloat.iter_pos shr_1 p mrs)).
    { rewrite IH by done. apply Z.div_pos; [done | by apply Z.pow_pos_nonneg]. }
    rewrite IH, IH by done.
    assert (0 < 2 ^ Zpos p) by (by apply Z.pow_pos_nonneg).
    rewrite Z.div_div by lia. by rewrite pow2_xO.
  - rewrite shr_1_m by done. reflexivity.
Qed.

Lemma shr_spec mrs e k :
  0 ≤ shr_m mrs →
  ∃ mrs', shr mrs e k = (mrs', e + Z.max k 0) ∧
    shr_m mrs' = shr_m mrs / 2 ^ Z.max k 0 ∧ (k ≤ 0 → mrs' = mrs).
Proof.
  intros H. destruct k as [|p|p]; simpl shr.
  - exists mrs. rewrite Z.add_0_r. split; [done|]. simpl. by rewrite Z.div_1_r.
  - exists (SpecFloat.iter_pos shr_1 p mrs). split; [done|].
    split; [by apply iter_pos_shr_m | lia].
  - exists mrs. split; [by rewrite Z.add_0_r|]. simpl. by rewrite Z.div_1_r.
Qed.

Lemma round_nearest_even_bounds m l :
  m ≤ round_nearest_even m l ≤ m + 1.
Proof.
  unfold round_nearest_even. destruct l as [|[]]; try lia.
  destruct (Z.even m); lia.
Qed.

Lemma round_nearest_even_exact m : round_nearest_even m loc_Exact = m.
Proof. reflexivity. Qed.

(** ** The rounding of an exact positive number *)

(** What [binary_round_aux] returns for the exact value [mx * 2^ex]: the
    mantissa is shifted to the exponent [f], rounded to [m''], and shifted
    once more when the rounding carried into a new digit. *)
Lemma binary_round_aux_exact s mx ex :
  let f := fexp (digits mx + ex) in
  ex ≤ f →
  ∃ m'',
    Zpos mx / 2 ^ (f - ex) ≤ m'' ≤ Zpos mx / 2 ^ (f - ex) + 1 ∧
    (f = ex → m'' = Zpos mx) ∧
    let k := Z.max (fexp (Zdigits2 m'' + f) - f) 0 in
    binary_round_aux prec emax s (Zpos mx) ex loc_Exact =
      match m'' / 2 ^ k with
      | Z0 => S754_zero s
      | Zpos m => if f + k <=? emax - prec then S754_finite s m (f + k)
                  else S754_infinity s
      | Zneg _ => S754_nan
      end.
Proof.
  intros f Hf. unfold binary_round_aux, shr_fexp.
  rewrite Zdigits2_pos. fold f.
  destruct (shr_spec (shr_record_of_loc (Zpos mx) loc_Exact) ex (f - ex))
    as (mrs1 & -> & Hm1 & Hid); [simpl; lia|].
  simpl shr_m in Hm1.
  rewrite Z.max_l in * by lia.
  replace (ex + (f - ex)) with f by lia.
  set (m'' := round_nearest_even (shr_m mrs1) (loc_of_shr_record mrs1)).
  exists m''.
  pose proof (round_nearest_even_bounds (shr_m mrs1) (loc_of_shr_record mrs1)) as Hb.
  fold m'' in Hb. rewrite Hm1 in Hb.
  assert (0 ≤ Zpos mx / 2 ^ (f - ex)).
  { apply Z.div_pos; [lia | apply Z.pow_pos_nonneg; lia]. }
  split; [done|]. split.
  { intros E. subst m''. rewrite Hid by lia. reflexivity. }
  destruct (shr_spec (shr_record_of_loc m'' loc_Exact) f (fexp (Zdigits2 m'' + f) - f))
    as (mrs2 & -> & Hm2 & _); [simpl; lia|].
  simpl shr_m in Hm2. rewrite Hm2. reflexivity.
Qed.


Lemma round_result mx ex m'' :
  let f := fexp (digits mx + ex) in
  ex ≤ f →
  let m' := Zpos mx / 2 ^ (f - ex) in
  m' ≤ m'' ≤ m' + 1 →
  let k := Z.max (fexp (Zdigits2 m'' + f) - f) 0 in
  let m3 := m'' / 2 ^ k in
  0 ≤ m3 ∧
  (1 ≤ m' ∨ m3 ≠ 0 →
   ∃ p, m3 = Zpos p ∧ fexp (digits p + (f + k)) = f + k ∧
        (k = 0 → Zpos p = m'')).
Proof.
  intros f Hf m' Hm'' k m3.
  pose proof (digits_pos mx) as Hd.
  assert (Hn : 0 ≤ f - ex) by lia.
  assert (Hp : 0 < 2 ^ (f - ex)) by (by apply Z.pow_pos_nonneg).
  assert (Hm'0 : 0 ≤ m') by (apply Z.div_pos; lia).
  assert (Hk0 : 0 ≤ k) by (subst k; lia).
  assert (Hpk : 0 < 2 ^ k) by (by apply Z.pow_pos_nonneg).
  split; [apply Z.div_pos; lia|].
  intros Hcase.
  destruct (Z.eq_dec m' 0) as [Hz|Hnz].
  - (* the whole mantissa was shifted out *)
    assert (Hdn : digits mx ≤ f - ex) by (by apply div_pow2_zero).
    assert (Hfe : f = emin) by (subst f; unfold SpecFloat.fexp in *; lia).
    assert (m'' = 0 ∨ m'' = 1) as [E|E] by lia.
    + exfalso. subst m3. rewrite E in Hcase. rewrite Z.div_0_l in Hcase by lia. lia.
    + assert (Hk : k = 0).
      { subst k. rewrite E. simpl Zdigits2. rewrite Hfe.
        unfold SpecFloat.fexp. lia. }
      exists 1%positive. subst m3. rewrite E, Hk. simpl.
      split; [done|]. split; [|done].
      change (digits 1) with 1. rewrite Z.add_0_r, Hfe. unfold SpecFloat.fexp. lia.
  - assert (Hlt : f - ex < digits mx).
    { destruct (Z_lt_le_dec (f - ex) (digits mx)) as [|Hge]; [done|]. exfalso.
      apply Hnz. apply Z.div_small. split; [lia|].
      pose proof (digits_spec mx) as [_ H2].
      assert (2 ^ digits mx ≤ 2 ^ (f - ex)) by (apply Z.pow_le_mono_r; lia). lia. }
    destruct (digits_div mx (f - ex)) as (q & Hq & Hdq); [lia|].
    fold m' in Hq.
    assert (Hx : digits q + f = digits mx + ex) by lia.
    assert (Hcanon : fexp (digits q + f) = f) by (by rewrite Hx).
    assert (m'' = Zpos q ∨ m'' = Zpos (q + 1)) as [E|E] by lia.
    + assert (Hk : k = 0) by (subst k; rewrite E, Zdigits2_pos, Hcanon; lia).
      exists q. subst m3. rewrite E, Hk. simpl. rewrite Z.div_1_r, Z.add_0_r. done.
    + destruct (digits_succ q) as [Hs | [Hs Hpow]].
      * assert (Hk : k = 0) by (subst k; rewrite E, Zdigits2_pos, Hs, Hcanon; lia).
        exists (q + 1)%positive. subst m3. rewrite E, Hk. simpl.
        rewrite Z.div_1_r, Z.add_0_r, Hs. done.
      * destruct (Z_le_gt_dec (fexp (digits q + 1 + f)) f) as [Hle|Hgt].
        -- assert (Hk : k = 0) by (subst k; rewrite E, Zdigits2_pos, Hs; lia).
           exists (q + 1)%positive. subst m3. rewrite E, Hk. simpl.
           rewrite Z.div_1_r, Z.add_0_r, Hs. split; [done|]. split; [|done].
           pose proof (fexp_mono (digits q + f) (digits q + 1 + f)). lia.
        -- assert (Hf2 : fexp (digits q + 1 + f) = f + 1).
           { unfold SpecFloat.fexp in *. lia. }
           assert (Hk : k = 1) by (subst k; rewrite E, Zdigits2_pos, Hs, Hf2; lia).
           pose proof (digits_pos q) as Hdq0.
           assert (Hm3 : m3 = 2 ^ (digits q - 1)).
           { subst m3. rewrite E, Hk, Hpow.
             replace (digits q) with (1 + (digits q - 1)) at 1 by lia.
             rewrite Z.pow_add_r by lia. rewrite Z.mul_comm.
             apply Z.div_mul. done. }
           assert (0 < 2 ^ (digits q - 1)) by (apply Z.pow_pos_nonneg; lia).
           destruct m3 as [|p|p] eqn:Ep; try lia.
           exists p. split; [done|].
           assert (digits p = digits q) as ->.
           { apply digits_unique. rewrite Hm3. split; [lia|].
             apply Z.pow_lt_mono_r; lia. }
           split; [|lia]. rewrite Hk.
           replace (digits q + (f + 1)) with (digits q + 1 + f) by lia. done.
Qed.


(** Rounding an exact positive number with enough digits gives a zero, an
    infinity or a finite number in canonical form, of the given sign. *)
Lemma binary_round_aux_canonical s mx ex :
  ex ≤ fexp (digits mx + ex) →
  match binary_round_aux prec emax s (Zpos mx) ex loc_Exact with
  | S754_zero s' | S754_infinity s' => s' = s
  | S754_finite s' m e => s' = s ∧ fexp (digits m + e) = e
  | S754_nan => False
  end.
Proof.
  intros Hf.
  destruct (binary_round_aux_exact s mx ex Hf) as (m'' & Hb & _ & ->).
  destruct (round_result mx ex m'' Hf Hb) as [H0 H].
  destruct (m'' / 2 ^ _) as [|p|p] eqn:E; [done| |lia].
  destruct H as (p' & Hp & Hc & _); [right; lia|]. injection Hp as <-.
  case (_ <=? _); done.
Qed.

Lemma fexp_ge_canonical mx ex m1 e1 :
  fexp (digits m1 + e1) = e1 → ex ≤ e1 →
  Zpos m1 * 2 ^ (e1 - ex) ≤ Zpos mx →
  e1 ≤ fexp (digits mx + ex).
Proof.
  intros Hc1 Hex Hle.
  pose proof (digits_spec m1) as [Hm1 _]. pose proof (digits_pos m1) as Hd1.
  assert (Hp1 : 0 < 2 ^ (e1 - ex)) by (apply Z.pow_pos_nonneg; lia).
  assert (Hdig : digits m1 + e1 ≤ digits mx + ex).
  { assert (2 ^ (digits m1 - 1 + (e1 - ex)) ≤ Zpos mx).
    { rewrite Z.pow_add_r by lia. nia. }
    pose proof (pow2_le_digits mx _ H). lia. }
  pose proof (fexp_mono _ _ Hdig) as Hfm. by rewrite Hc1 in Hfm.
Qed.

(** Rounding is monotone at a representable number: the rounding of an
    exact value that is at least the canonical [m1 * 2^e1] is at least
    that number. *)
Lemma binary_round_aux_ge mx ex m1 e1 :
  fexp (digits m1 + e1) = e1 → ex ≤ e1 →
  Zpos m1 * 2 ^ (e1 - ex) ≤ Zpos mx →
  match binary_round_aux prec emax false (Zpos mx) ex loc_Exact with
  | S754_infinity false => True
  | S754_finite false m e =>
      fexp (digits m + e) = e ∧ (e1 < e ∨ e1 = e ∧ (m1 ≤ m)%positive)
  | _ => False
  end.
Proof.
  intros Hc1 Hex Hle.
  assert (Hp1 : 0 < 2 ^ (e1 - ex)) by (apply Z.pow_pos_nonneg; lia).
  pose proof (fexp_ge_canonical mx ex m1 e1 Hc1 Hex Hle) as Hfm.
  assert (Hf : ex ≤ fexp (digits mx + ex)) by lia.
  destruct (binary_round_aux_exact false mx ex Hf) as (m'' & Hb & _ & ->).
  destruct (round_result mx ex m'' Hf Hb) as [H0 H].
  set (f := fexp (digits mx + ex)) in *.
  assert (Hm' : 1 ≤ Zpos mx / 2 ^ (f - ex) ∧
                (f = e1 → Zpos m1 ≤ Zpos mx / 2 ^ (f - ex))).
  { destruct (Z.eq_dec f e1) as [E|E].
    - assert (Zpos m1 ≤ Zpos mx / 2 ^ (f - ex)).
      { rewrite E. apply Z.div_le_lower_bound; [done | lia]. }
      split; [lia | done].
    - split; [|done].
      pose proof (fexp_ge_emin (digits m1 + e1)) as Hemin. rewrite Hc1 in Hemin.
      assert (f = digits mx + ex - prec) by (subst f; unfold SpecFloat.fexp in *; lia).
      destruct (digits_div mx (f - ex)) as (q & -> & _); lia. }
  destruct Hm' as [Hm'1 Hm'2].
  destruct H as (p & -> & Hc & Hk0); [by left|].
  set (k := Z.max (fexp (Zdigits2 m'' + f) - f) 0) in *.
  destruct (f + k <=? emax - prec); [|done].
  split; [done|].
  destruct (Z.eq_dec (f + k) e1) as [E|E]; [|left; lia].
  right. split; [done|].
  assert (k = 0) by lia. assert (f = e1) by lia.
  specialize (Hk0 H). specialize (Hm'2 H1). lia.
Qed.


(** ** Alignment *)

Lemma iter_xO m d : Zpos (Pos.iter xO m d) = Zpos m * 2 ^ Zpos d.
Proof.
  induction d as [|d IH] using Pos.peano_ind.
  - simpl. lia.
  - rewrite Pos.iter_succ, Pos2Z.inj_xO, IH, Pos2Z.inj_succ.
    rewrite Z.pow_succ_r by lia. lia.
Qed.

Lemma shl_align_le m e e' :
  e' ≤ e →
  Zpos (fst (shl_align m e e')) = Zpos m * 2 ^ (e - e') ∧
  snd (shl_align m e e') = e'.
Proof.
  intros H. unfold shl_align. destruct (e' - e) as [|d|d] eqn:E; simpl; try lia.
  - assert (e = e') as -> by lia. rewrite Z.sub_diag. simpl. lia.
  - rewrite iter_xO. replace (e - e') with (Zpos d) by lia. done.
Qed.

Lemma shl_align_ge m e e' : e ≤ e' → shl_align m e e' = (m, e).
Proof.
  intros H. unfold shl_align. destruct (e' - e) as [|d|d] eqn:E; try done. lia.
Qed.

Lemma digits_shift m q k :
  0 ≤ k → Zpos q = Zpos m * 2 ^ k → digits q = digits m + k.
Proof.
  intros Hk Hq. apply digits_unique. rewrite Hq.
  pose proof (digits_spec m) as [H1 H2]. pose proof (digits_pos m).
  assert (0 < 2 ^ k) by (by apply Z.pow_pos_nonneg).
  replace (digits m + k - 1) with (digits m - 1 + k) by lia.
  rewrite !Z.pow_add_r by lia. nia.
Qed.

(** ** Canonical and non-negative numbers *)

Lemma valid_binary_canon x : valid_binary prec emax x = true → canon prec emax x.
Proof.
  destruct x as [| | |s m e]; try done. simpl. unfold bounded.
  intros H. apply andb_true_iff in H as [H _].
  unfold canonical_mantissa in H. by apply Z.eqb_eq in H.
Qed.

Lemma binary_round_canonical s mx ex :
  match binary_round prec emax s mx ex with
  | S754_zero s' | S754_infinity s' => s' = s
  | S754_finite s' m e => s' = s ∧ fexp (digits m + e) = e
  | S754_nan => False
  end.
Proof.
  unfold binary_round. fold (digits mx).
  destruct (Z_le_gt_dec ex (fexp (digits mx + ex))) as [Hle|Hgt].
  - rewrite shl_align_ge by done. by apply binary_round_aux_canonical.
  - destruct (shl_align_le mx ex (fexp (digits mx + ex))) as [H1 H2]; [lia|].
    destruct (shl_align mx ex (fexp (digits mx + ex))) as [mz ez].
    simpl in H1, H2. subst ez.
    apply binary_round_aux_canonical.
    rewrite (digits_shift mx mz (ex - fexp (digits mx + ex))) by (done || lia).
    replace (digits mx + (ex - fexp (digits mx + ex)) + fexp (digits mx + ex))
      with (digits mx + ex) by lia. lia.
Qed.

Lemma binary_normalize_canon m e : canon prec emax (binary_normalize prec emax m e false).
Proof.
  destruct m as [|p|p]; simpl; [done | |].
  - pose proof (binary_round_canonical false p e) as H.
    destruct (binary_round _ _ _ _ _); try done. tauto.
  - pose proof (binary_round_canonical true p e) as H.
    destruct (binary_round _ _ _ _ _); try done. tauto.
Qed.

Lemma SFsub_canon a b : canon prec emax a → canon prec emax b → canon prec emax (SFsub prec emax a b).
Proof.
  intros Ha Hb.
  destruct a as [sa|sa| |sa ma ea], b as [sb|sb| |sb mb eb]; simpl; try done;
    try (by destruct sa, sb).
  apply binary_normalize_canon.
Qed.

Lemma SFmul_square_nonneg x : canon prec emax x → nonneg prec emax (SFmul prec emax x x).
Proof.
  intros Hx. destruct x as [[]|[]| |s m e]; simpl; try done.
  replace (xorb s s) with false by (by destruct s).
  simpl in Hx.
  assert (Hpre : e + e ≤ fexp (digits (m * m) + (e + e))).
  { pose proof (digits_spec m) as [H1 H2]. pose proof (digits_pos m) as Hd.
    assert (Hsq : 2 ^ (digits m - 1 + (digits m - 1)) ≤ Zpos (m * m)).
    { rewrite Z.pow_add_r by lia. rewrite Pos2Z.inj_mul. nia. }
    pose proof (pow2_le_digits _ _ Hsq) as Hdd.
    unfold SpecFloat.fexp, SpecFloat.emin in *. lia. }
  pose proof (binary_round_aux_canonical false (m * m) (e + e) Hpre) as H.
  destruct (binary_round_aux _ _ _ _ _ _) as [s'|s'| |s' m' e']; try done.
  - by subst s'.
  - by subst s'.
  - destruct H as [-> H]. done.
Qed.


(** ** Order *)

Ltac compare_cases :=
  repeat match goal with
  | H : context [Pos.compare_cont Eq ?a ?b] |- _ =>
      change (Pos.compare_cont Eq a b) with (Pos.compare a b) in H;
      destruct (Pos.compare_spec a b)
  | |- context [Pos.compare_cont Eq ?a ?b] =>
      change (Pos.compare_cont Eq a b) with (Pos.compare a b);
      destruct (Pos.compare_spec a b)
  | H : context [Z.compare ?a ?b] |- _ => destruct (Z.compare_spec a b)
  | |- context [Z.compare ?a ?b] => destruct (Z.compare_spec a b)
  end.

Lemma SFleb_finite m1 e1 m e :
  e1 < e ∨ e1 = e ∧ (m1 ≤ m)%positive →
  SFleb (S754_finite false m1 e1) (S754_finite false m e) = true.
Proof. unfold SFleb, SFcompare. intros H. compare_cases; try done; lia. Qed.

Lemma SFleb_refl_nonneg d : nonneg prec emax d → d = S754_nan ∨ SFleb d d = true.
Proof.
  destruct d as [[]|[]| |[] m e]; simpl; try done; try (by right); try (by left).
  intros _. right. apply SFleb_finite. lia.
Qed.

Lemma SFltb_leb_trans t d r :
  nonneg prec emax d → nonneg prec emax r →
  SFltb t d = true → SFleb d r = true → SFltb t r = true.
Proof.
  destruct t as [st|st| |st mt et], d as [[]|[]| |[] md ed],
    r as [[]|[]| |[] mr er]; try done;
    intros _ _; unfold SFltb, SFleb, SFcompare;
    try (by destruct st); destruct st; try done;
    intros H1 H2; compare_cases; try done; lia.
Qed.

Lemma SFltb_not_leb t d : SFltb t d = true → SFleb d t = false.
Proof.
  destruct t as [st|st| |st mt et], d as [sd|sd| |sd md ed]; try done;
    unfold SFltb, SFleb, SFcompare;
    try (by destruct st); try (by destruct sd); try (by destruct st, sd);
    destruct st, sd; try done; intros H; compare_cases; try done; lia.
Qed.

Lemma SFleb_nan_l t : SFleb S754_nan t = false.
Proof. reflexivity. Qed.

(** ** Adding a non-negative number never lowers a sum *)

Lemma SFadd_nonneg d q :
  nonneg prec emax d → nonneg prec emax q →
  nonneg prec emax (SFadd prec emax d q) ∧
  (SFadd prec emax d q = S754_nan ∨ SFleb d (SFadd prec emax d q) = true).
Proof.
  intros Hd Hq.
  destruct d as [[]|[]| |[] m1 e1]; try done;
    destruct q as [[]|[]| |[] m2 e2]; try done;
    try (split; [done | by left]); try (split; [done | by right]).
  - split; [done|]. right. apply SFleb_finite. lia.
  - simpl in Hd, Hq. unfold SFadd, cond_Zopp.
    set (ez := Z.min e1 e2).
    destruct (shl_align_le m1 e1 ez) as [Ha _]; [lia|].
    destruct (shl_align_le m2 e2 ez) as [Hb _]; [lia|].
    set (a := fst (shl_align m1 e1 ez)) in *.
    set (b := fst (shl_align m2 e2 ez)) in *.
    change (Zpos a + Zpos b) with (Zpos (a + b)).
    unfold binary_normalize, binary_round. fold (digits (a + b)).
    assert (Hle : Zpos m1 * 2 ^ (e1 - ez) ≤ Zpos (a + b)) by lia.
    assert (Hez : ez ≤ e1) by lia.
    pose proof (fexp_ge_canonical (a + b) ez m1 e1 Hd Hez Hle) as Hf.
    rewrite shl_align_ge by lia.
    pose proof (binary_round_aux_ge (a + b) ez m1 e1 Hd Hez Hle) as H.
    destruct (binary_round_aux _ _ _ _ _ _) as [s'|[]| |[] m e]; try done.
    + split; [done | by right].
    + destruct H as [Hc Hord]. split; [done|]. right. by apply SFleb_finite.
Qed.

End FloatFacts.


(** * The scenarios of the design, run on the embedding *)

(** [new(5)], [unite(0, 1)], [unite(1, 2)]: three components, [0] and [2]
    have the same root, and the component of [0] has three elements. *)
Example scenario_unions :
  ∃ s1 s2 s3 s4 r s5,
    unite 0 1 (singletons 5) = Ok true s1 ∧ unite 1 2 s1 = Ok true s2 ∧
    get_component_number s2 = Ok 3 s2 ∧
    find 0 s2 = Ok r s3 ∧ find 2 s3 = Ok r s4 ∧
    get_component_size 0 s4 = Ok 3 s5.
Proof. by repeat eexists. Qed.

(** Three collinear points at [0], [1], [3] and the threshold [1.5]: two
    components. *)
Example scenario_collinear :
  ∃ s, new_spatial
         (mkArr 2 [3; 1] [F32.zero; S754_finite false 8388608 (-23);
                          S754_finite false 12582912 (-22)])
         sample_threshold = Ok s tt ∧
       get_component_number s = Ok 2 s.
Proof. by repeat eexists. Qed.

(** [add_edges(0, [1, 2, 3], 3)] on five singletons: two components and
    two distinct roots. *)
Example scenario_add_edges :
  ∃ s1 s2 u,
    add_edges 0 (mkArr 1 [3] [1; 2; 3]) 3 (singletons 5) = Ok tt s1 ∧
    get_component_number s1 = Ok 2 s1 ∧
    get_unique_ancestors s1 = Ok u s2 ∧ length u = 2%nat.
Proof. by repeat eexists. Qed.

(** No points: no components and no ancestors. *)
Example scenario_empty :
  ∃ s s',
    new_spatial (mkArr 2 [0; 3] []) sample_threshold = Ok s tt ∧
    get_component_number s = Ok 0 s ∧ get_ancestors s = Ok [] s'.
Proof. by repeat eexists. Qed.

(** * The claims *)

(** ** Indices out of range *)

(** C1, as stated, fails: [find(3)] on a partition of three singletons
    raises no error; it reads [parent[3]], past the end of the array. *)
Lemma out_of_range_no_error :
  wf (singletons 3) ∧ ¬ (0 ≤ 3 < n (singletons 3)) ∧
  find 3 (singletons 3) = Undefined ∧
  ¬ (∃ msg, find 3 (singletons 3) = Throw msg (singletons 3)).
Proof.
  split; [apply singletons_wf; unfold Int.INT_MAX; lia|].
  split; [simpl; lia|].
  split; [reflexivity|]. intros [msg H]. vm_compute in H. discriminate H.
Qed.

(** C1, amended: no operation tests its index.  With an index outside
    [0, n), [find], [get_component_rank] and [get_component_size] read
    outside [parent] at once, and [unite] does so in its first call of
    [find] (bad first argument) or in its second (bad second argument):
    the call has undefined behaviour.  The program performs no test that
    could raise an error, and the language gives the call no result: what
    a compiled program then returns or overwrites is not determined. *)
Theorem out_of_range_undefined s x :
  wf s → ¬ (0 ≤ x < n s) →
  find x s = Undefined ∧
  get_component_rank x s = Undefined ∧
  get_component_size x s = Undefined ∧
  (∀ y, unite x y s = Undefined) ∧
  (∀ y, 0 ≤ y < n s → unite y x s = Undefined).
Proof.
  intros Hwf Hx.
  assert (Hf : ∀ s', wf s' → n s' = n s → find x s' = Undefined).
  { intros s' Hwf' Hn. apply find_out_of_range.
    rewrite (wf_parent_len s' Hwf'), Hn. done. }
  pose proof (Hf s Hwf eq_refl) as Hfs.
  split; [done|].
  split; [by apply bind_Undefined|].
  split; [by apply bind_Undefined|].
  split.
  - intros y. rewrite unite_unfold. by apply bind_Undefined.
  - intros y Hy. rewrite unite_unfold.
    destruct (find_spec s y Hwf Hy) as (r & s1 & Hfy & Hwf1 & Hs1 & _).
    rewrite (bind_Ok _ _ _ _ _ Hfy). apply bind_Undefined.
    apply Hf; [done | apply (sp_n _ _ Hs1)].
Qed.

Lemma out_of_range_undefined_witness :
  find 3 (singletons 3) = Undefined ∧
  get_component_rank 3 (singletons 3) = Undefined ∧
  get_component_size 3 (singletons 3) = Undefined ∧
  (∀ y, unite 3 y (singletons 3) = Undefined) ∧
  (∀ y, 0 ≤ y < n (singletons 3) → unite y 3 (singletons 3) = Undefined).
Proof.
  apply (out_of_range_undefined (singletons 3) 3).
  - apply singletons_wf. unfold Int.INT_MAX. lia.
  - simpl. lia.
Defined.

(** ** Merging by rank *)

(** C3: when [x] and [y] have different roots [rx] and [ry], [unite(x, y)]
    returns [true]; the root of strictly smaller rank gets the root of
    strictly greater rank as parent; on a tie [ry] gets [rx] as parent and
    the rank of [rx] grows by one; the surviving root carries the sum of
    the two sizes. *)
Theorem unite_merges_by_rank s x y rx ry :
  wf s → 0 ≤ x < n s → 0 ≤ y < n s →
  root_of s x = Some rx → root_of s y = Some ry → rx ≠ ry →
  ∃ kx ky zx zy s',
    rd (rank s) rx = Some kx ∧ rd (rank s) ry = Some ky ∧
    rd (size s) rx = Some zx ∧ rd (size s) ry = Some zy ∧
    unite x y s = Ok true s' ∧
    (kx < ky →
       rd (parent s') rx = Some ry ∧ is_root s' ry ∧
       rd (size s') ry = Some (zx + zy) ∧ rank s' = rank s) ∧
    (kx > ky →
       rd (parent s') ry = Some rx ∧ is_root s' rx ∧
       rd (size s') rx = Some (zx + zy) ∧ rank s' = rank s) ∧
    (kx = ky →
       rd (parent s') ry = Some rx ∧ is_root s' rx ∧
       rd (size s') rx = Some (zx + zy) ∧
       rank s' = upd (rank s) rx (kx + 1) ∧
       rd (rank s') rx = Some (kx + 1)).
Proof.
  intros Hwf Hx Hy Hrx Hry Hne.
  destruct (unite_spec s x y Hwf Hx Hy)
    as (rx' & ry' & s2 & Hrx' & Hry' & Hirx & Hiry & Hwf2 & Hs & H).
  assert (rx' = rx) as -> by congruence.
  assert (ry' = ry) as -> by congruence.
  rewrite decide_False in H by done.
  destruct H as (kx & ky & zx & zy & Hkx & Hky & Hzx & Hzy & Hun & Hwf3).
  exists kx, ky, zx, zy, (link_state s2 rx ry kx ky zx zy).
  do 5 (split; [done|]).
  apply (sp_is_root _ _ Hs) in Hirx, Hiry.
  pose proof (rd_Some_bounds _ _ _ Hirx) as Hbx.
  pose proof (rd_Some_bounds _ _ _ Hiry) as Hby.
  pose proof (rd_Some_bounds _ _ _ Hzx) as Hbzx.
  pose proof (rd_Some_bounds _ _ _ Hzy) as Hbzy.
  pose proof (rd_Some_bounds _ _ _ Hkx) as Hbkx.
  unfold link_state, merged, is_root.
  rewrite (sp_rank _ _ Hs), (sp_size _ _ Hs).
  split; [|split]; intros Hk.
  - rewrite (proj2 (Z.ltb_lt _ _)) by lia. simpl.
    rewrite rd_upd_eq, rd_upd_ne, rd_upd_eq by (try done; lia).
    rewrite (Z.add_comm zy zx). done.
  - rewrite (proj2 (Z.ltb_ge _ _)) by lia.
    rewrite (proj2 (Z.gtb_gt _ _)) by lia. simpl.
    rewrite rd_upd_eq, rd_upd_ne, rd_upd_eq by (try done; lia). done.
  - rewrite (proj2 (Z.ltb_ge _ _)) by lia.
    assert ((kx >? ky) = false) as -> by (rewrite Z.gtb_ltb; apply Z.ltb_ge; lia).
    simpl.
    rewrite rd_upd_eq, rd_upd_ne, !rd_upd_eq by (try done; lia). done.
Qed.

Lemma unite_merges_by_rank_witness :
  ∃ kx ky zx zy s',
    rd (rank (singletons 2)) 0 = Some kx ∧ rd (rank (singletons 2)) 1 = Some ky ∧
    rd (size (singletons 2)) 0 = Some zx ∧ rd (size (singletons 2)) 1 = Some zy ∧
    unite 0 1 (singletons 2) = Ok true s' ∧
    (kx < ky →
       rd (parent s') 0 = Some 1 ∧ is_root s' 1 ∧
       rd (size s') 1 = Some (zx + zy) ∧ rank s' = rank (singletons 2)) ∧
    (kx > ky →
       rd (parent s') 1 = Some 0 ∧ is_root s' 0 ∧
       rd (size s') 0 = Some (zx + zy) ∧ rank s' = rank (singletons 2)) ∧
    (kx = ky →
       rd (parent s') 1 = Some 0 ∧ is_root s' 0 ∧
       rd (size s') 0 = Some (zx + zy) ∧
       rank s' = upd (rank (singletons 2)) 0 (kx + 1) ∧
       rd (rank s') 0 = Some (kx + 1)).
Proof.
  apply (unite_merges_by_rank (singletons 2) 0 1 0 1).
  - apply singletons_wf. unfold Int.INT_MAX. lia.
  - simpl. lia.
  - simpl. lia.
  - reflexivity.
  - reflexivity.
  - lia.
Defined.

(** ** Redundant unions *)

(** C4: when [x] and [y] already have the same root, [unite(x, y)] returns
    [false] and leaves [components], [size] and [rank] as they were. *)
Theorem unite_same_component s x y :
  wf s → 0 ≤ x < n s → 0 ≤ y < n s → root_of s x = root_of s y →
  ∃ s', unite x y s = Ok false s' ∧
    components s' = components s ∧ size s' = size s ∧ rank s' = rank s.
Proof.
  intros Hwf Hx Hy Heq.
  destruct (unite_spec s x y Hwf Hx Hy)
    as (rx & ry & s2 & Hrx & Hry & _ & _ & _ & Hs & H).
  assert (rx = ry) by congruence.
  rewrite decide_True in H by done.
  exists s2. split; [done|].
  split; [apply (sp_components _ _ Hs)|].
  split; [apply (sp_size _ _ Hs) | apply (sp_rank _ _ Hs)].
Qed.

Lemma unite_same_component_witness :
  ∃ s', unite 1 1 (singletons 2) = Ok false s' ∧
    components s' = components (singletons 2) ∧
    size s' = size (singletons 2) ∧ rank s' = rank (singletons 2).
Proof.
  apply (unite_same_component (singletons 2) 1 1).
  - apply singletons_wf. unfold Int.INT_MAX. lia.
  - simpl. lia.
  - simpl. lia.
  - reflexivity.
Defined.

(** ** The component counter *)

Lemma in_range_n s s' c : n s' = n s → in_range s c → in_range s' c.
Proof. intros Hn. destruct c; simpl; rewrite ?Hn; done. Qed.

Lemma successes_cons v vs : successes (v :: vs) = successes [v] + successes vs.
Proof.
  unfold successes. rewrite !filter_cons. case_decide; simpl; lia.
Qed.

Lemma successes_nonneg vs : 0 ≤ successes vs.
Proof. unfold successes. lia. Qed.

Lemma run_calls_spec cs s :
  wf s → Forall (fun c => in_range s c ∧ is_plain c = true) cs →
  ∃ vs s', run_calls cs s = Ok vs s' ∧ wf s' ∧ n s' = n s ∧
    components s' = components s - successes vs.
Proof.
  revert s. induction cs as [|c cs IH]; intros s Hwf Hcs.
  - exists [], s. split; [done|]. split; [done|]. split; [done|].
    unfold successes. simpl. lia.
  - apply Forall_cons in Hcs as [[Hc Hp] Hcs].
    destruct (plain_spec s c Hwf Hc Hp) as (v & s1 & Hrun & Hwf1 & Hn1 & Hc1).
    destruct (IH s1 Hwf1) as (vs & s2 & Hruns & Hwf2 & Hn2 & Hc2).
    { eapply Forall_impl; [exact Hcs|]. intros c' [? ?].
      split; [by apply (in_range_n s) | done]. }
    exists (v :: vs), s2. simpl.
    rewrite (bind_Ok _ _ _ _ _ Hrun), (bind_Ok _ _ _ _ _ Hruns).
    split; [done|]. split; [done|]. split; [congruence|].
    rewrite successes_cons. lia.
Qed.

Lemma get_component_number_wf s :
  wf s → get_component_number s = Ok (components s) s.
Proof.
  intros Hwf. unfold get_component_number. f_equal. apply to_int_small.
  rewrite (wf_components s Hwf).
  pose proof (roots_length_le s (proj1 (wf_n s Hwf))).
  pose proof (wf_n s Hwf). lia.
Qed.

(** C2: a partition of [n0] singletons starts with [components = n0];
    after any sequence of calls (other than [add_edges], whose calls of
    [unite] return nothing to the caller) of which [k] are calls of
    [unite] that returned [true], [get_component_number()] returns
    [n0 - k]; and one more call of [unite] lowers it by one if it returns
    [true] and leaves it if it returns [false]. *)
Theorem component_count n0 cs x y :
  0 ≤ n0 ≤ Int.INT_MAX →
  Forall (fun c => in_range (singletons n0) c ∧ is_plain c = true) cs →
  0 ≤ x < n0 → 0 ≤ y < n0 →
  ∃ s0 vs s b s',
    new n0 = Ok s0 tt ∧
    get_component_number s0 = Ok n0 s0 ∧
    run_calls cs s0 = Ok vs s ∧
    get_component_number s = Ok (n0 - successes vs) s ∧
    unite x y s = Ok b s' ∧
    get_component_number s' =
      Ok (n0 - successes vs - (if b then 1 else 0)) s'.
Proof.
  intros Hn0 Hcs Hx Hy.
  pose proof (singletons_wf n0 Hn0) as Hwf0.
  destruct (run_calls_spec cs (singletons n0) Hwf0 Hcs)
    as (vs & s & Hruns & Hwf & Hn & Hc).
  simpl in Hn, Hc.
  destruct (plain_spec s (CUnite x y) Hwf) as (v & s' & Hrun & Hwf' & Hn' & Hc');
    [simpl; lia | done |].
  unfold run_call in Hrun.
  apply bind_inv_Ok in Hrun as (b & s1 & Hun & Hret). injection Hret as <- <-.
  exists (singletons n0), vs, s, b, s1.
  split; [by apply new_singletons|].
  split; [by rewrite get_component_number_wf|].
  split; [done|].
  split; [rewrite get_component_number_wf by done; congruence|].
  split; [done|].
  rewrite get_component_number_wf by done.
  rewrite Hc', Hc. f_equal. unfold successes. destruct b; simpl; lia.
Qed.

Lemma component_count_witness :
  ∃ s0 vs s b s',
    new 5 = Ok s0 tt ∧
    get_component_number s0 = Ok 5 s0 ∧
    run_calls [CUnite 0 1; CFind 1; CUnite 1 0] s0 = Ok vs s ∧
    get_component_number s = Ok (5 - successes vs) s ∧
    unite 1 2 s = Ok b s' ∧
    get_component_number s' =
      Ok (5 - successes vs - (if b then 1 else 0)) s'.
Proof.
  apply (component_count 5 [CUnite 0 1; CFind 1; CUnite 1 0] 1 2).
  - unfold Int.INT_MAX. lia.
  - repeat constructor; simpl; lia.
  - lia.
  - lia.
Defined.

(** ** [find] *)

Lemma run_queries_spec cs s :
  wf s → Forall (fun c => in_range s c ∧ is_query c = true) cs →
  ∃ vs s', run_calls cs s = Ok vs s' ∧ wf s' ∧ same_partition s s'.
Proof.
  revert s. induction cs as [|c cs IH]; intros s Hwf Hcs.
  - exists [], s. split; [done|]. split; [done | apply same_partition_refl].
  - apply Forall_cons in Hcs as [[Hc Hq] Hcs].
    destruct (query_spec s c Hwf Hc Hq) as (v & s1 & Hrun & Hwf1 & Hs1 & _).
    destruct (IH s1 Hwf1) as (vs & s2 & Hruns & Hwf2 & Hs2).
    { eapply Forall_impl; [exact Hcs|]. intros c' [? ?].
      split; [|done]. apply (in_range_n s); [apply (sp_n _ _ Hs1) | done]. }
    exists (v :: vs), s2. simpl.
    rewrite (bind_Ok _ _ _ _ _ Hrun), (bind_Ok _ _ _ _ _ Hruns).
    split; [done|]. split; [done | by eapply same_partition_trans].
Qed.

(** C7: [find(x)] returns the root [r] of [x], the end of the path [l]
    that leads from [x] along [parent] to an element that is its own
    parent; afterwards every node of that path has [r] as parent and no
    other entry of [parent] has changed; and a later [find(x)], with any
    calls but unions in between, returns [r] again. *)
Theorem find_root_and_compression s x cs :
  wf s → 0 ≤ x < n s →
  Forall (fun c => in_range s c ∧ is_query c = true) cs →
  ∃ l r s',
    rpath (parent s) x l r ∧ is_root s r ∧
    find x s = Ok r s' ∧ is_root s' r ∧
    (∀ v, v ∈ l → rd (parent s') v = Some r) ∧
    (∀ v, v ∉ l → rd (parent s') v = rd (parent s) v) ∧
    ∃ vs s1 s2, run_calls cs s' = Ok vs s1 ∧ find x s1 = Ok r s2.
Proof.
  intros Hwf Hx Hcs.
  destruct (find_wf s x Hwf Hx) as (l & r & H & Hfind & Hwf').
  set (s' := set_parent (compress (parent s) l r) s) in *.
  pose proof (rpath_is_root _ _ _ _ H) as Hr.
  assert (Hrd : ∀ v, rd (parent s') v =
            if decide (v ∈ l) then Some r else rd (parent s) v).
  { intros v. subst s'. simpl. apply rd_compress.
    intros y Hy. exact (rpath_bounds _ _ _ _ _ H Hy). }
  exists l, r, s'. split; [done|]. split; [done|]. split; [done|].
  split.
  { unfold is_root. rewrite Hrd. by rewrite decide_True by (by eapply rpath_end). }
  split; [intros v Hv; by rewrite Hrd, decide_True|].
  split; [intros v Hv; by rewrite Hrd, decide_False|].
  destruct (run_queries_spec cs s' Hwf') as (vs & s1 & Hruns & Hwf1 & Hs1).
  { eapply Forall_impl; [exact Hcs|]. intros c [? ?]. split; [|done].
    by apply (in_range_n s). }
  assert (Hx1 : 0 ≤ x < n s1) by (by rewrite (sp_n _ _ Hs1)).
  destruct (find_spec s1 x Hwf1 Hx1) as (r1 & s2 & Hf1 & _ & _ & Hr1 & _).
  rewrite (sp_root_of _ _ Hs1) in Hr1.
  unfold s' in Hr1.
  rewrite (compress_root_of s x l r (wf_forest s Hwf) (wf_parent_len s Hwf) H) in Hr1.
  rewrite (root_of_rpath _ _ _ _ H) in Hr1. injection Hr1 as <-.
  by exists vs, s1, s2.
Qed.

Lemma find_root_and_compression_witness :
  ∃ l r s',
    rpath (parent (mkDS [1; 2; 2] [0; 1; 2] [1; 1; 3] 3 1)) 0 l r ∧
    is_root (mkDS [1; 2; 2] [0; 1; 2] [1; 1; 3] 3 1) r ∧
    find 0 (mkDS [1; 2; 2] [0; 1; 2] [1; 1; 3] 3 1) = Ok r s' ∧ is_root s' r ∧
    (∀ v, v ∈ l → rd (parent s') v = Some r) ∧
    (∀ v, v ∉ l →
       rd (parent s') v = rd (parent (mkDS [1; 2; 2] [0; 1; 2] [1; 1; 3] 3 1)) v) ∧
    ∃ vs s1 s2, run_calls [CFind 1; CSize 0] s' = Ok vs s1 ∧ find 0 s1 = Ok r s2.
Proof.
  apply (find_root_and_compression
           (mkDS [1; 2; 2] [0; 1; 2] [1; 1; 3] 3 1) 0 [CFind 1; CSize 0]).
  - constructor; simpl; try done.
    + intros x Hx. simpl in Hx.
      assert (x = 0 ∨ x = 1 ∨ x = 2) as [-> | [-> | ->]] by lia.
      * exists [0; 1; 2], 2. by repeat econstructor.
      * exists [1; 2], 2. by repeat econstructor.
      * exists [2], 2. by repeat econstructor.
    + intros r Hr. apply rd_Some_bounds in Hr as Hb. simpl in Hb.
      assert (r = 0 ∨ r = 1 ∨ r = 2) as [-> | [-> | ->]] by lia;
        vm_compute in Hr; try discriminate Hr. reflexivity.
    + intros r Hr. apply rd_Some_bounds in Hr as Hb. simpl in Hb.
      assert (r = 0 ∨ r = 1 ∨ r = 2) as [-> | [-> | ->]] by lia;
        vm_compute in Hr; try discriminate Hr.
      exists 2. split; [reflexivity|]. vm_compute. split; [discriminate | reflexivity].
  - simpl. lia.
  - repeat constructor; simpl; lia.
Defined.

(** ** The defensive checks *)

(** C8: the validating constructor throws the shape error, and yields no
    partition, when the array is not two-dimensional or its shape is not
    [(rows, cols)]; [add_edges] throws the size error, with the partition
    as it was, when the array is not one-dimensional or its length is not
    the declared one. *)
Theorem mismatch_throws_first
    (array : pyarray F32.t) rows cols t (b_array : pyarray Z) a b_array_size s :
  shaped array → shaped b_array →
  (shape array ≠ [rows; cols] →
     new_spatial_checked array rows cols t = Throw msg_shape tt) ∧
  (shape b_array ≠ [b_array_size] →
     add_edges a b_array b_array_size s = Throw msg_size s).
Proof.
  unfold shaped. intros Ha Hb. split; intros Hne.
  - unfold new_spatial_checked, new_spatial_checked_with.
    destruct (ndim array =? 2) eqn:E; [|done]. apply Z.eqb_eq in E.
    destruct (shape array) as [|d0 [|d1 [|d2 l]]] eqn:Es; simpl in Ha; try lia.
    simpl.
    destruct (d0 =? rows) eqn:E0; [|done].
    destruct (d1 =? cols) eqn:E1; [|done].
    apply Z.eqb_eq in E0, E1. congruence.
  - unfold add_edges.
    destruct (ndim b_array =? 1) eqn:E; [|done]. apply Z.eqb_eq in E.
    destruct (shape b_array) as [|d0 [|d1 l]] eqn:Es; simpl in Hb; try lia.
    simpl. unfold mbind, M_bind, lift_opt.
    destruct (d0 =? b_array_size) eqn:E0; [|done].
    apply Z.eqb_eq in E0. congruence.
Qed.

Lemma mismatch_throws_first_witness :
  (shape (mkArr 2 [2; 1] [F32.zero; F32.zero]) ≠ [3; 1] →
     new_spatial_checked (mkArr 2 [2; 1] [F32.zero; F32.zero]) 3 1 F32.zero
       = Throw msg_shape tt) ∧
  (shape (mkArr 1 [2] [1; 2]) ≠ [3] →
     add_edges 0 (mkArr 1 [2] [1; 2]) 3 (singletons 5)
       = Throw msg_size (singletons 5)).
Proof.
  apply (mismatch_throws_first (mkArr 2 [2; 1] [F32.zero; F32.zero]) 3 1
           F32.zero (mkArr 1 [2] [1; 2]) 0 3 (singletons 5)); reflexivity.
Defined.

Example mismatch_throws_first_run :
  new_spatial_checked (mkArr 2 [2; 1] [F32.zero; F32.zero]) 3 1 F32.zero
    = Throw msg_shape tt ∧
  add_edges 0 (mkArr 1 [2] [1; 2]) 3 (singletons 5)
    = Throw msg_size (singletons 5).
Proof. split; reflexivity. Qed.

(** ** Sizes *)

Lemma sumZ_ext g h l : (∀ r, r ∈ l → g r = h r) → sumZ g l = sumZ h l.
Proof.
  induction l as [|a l IH]; intros H; simpl; [done|].
  rewrite (H a) by left. rewrite IH; [done|]. intros r Hr. apply H. by right.
Qed.

Lemma sumZ_add g h l : sumZ (fun r => g r + h r) l = sumZ g l + sumZ h l.
Proof. induction l as [|a l IH]; simpl; lia. Qed.

Lemma sumZ_zero l : sumZ (fun _ => 0) l = 0.
Proof. induction l as [|a l IH]; simpl; lia. Qed.

Lemma sumZ_indicator (v : option Z) r0 l :
  NoDup l → r0 ∈ l → v = Some r0 →
  sumZ (fun r => if decide (v = Some r) then 1 else 0) l = 1.
Proof.
  intros Hnd Hin ->. induction l as [|a l IH]; [inversion Hin|].
  apply NoDup_cons in Hnd as [Ha Hnd]. simpl.
  apply elem_of_cons in Hin as [-> | Hin].
  - rewrite decide_True by done.
    rewrite (sumZ_ext _ (fun _ => 0)), sumZ_zero; [done|].
    intros r Hr. rewrite decide_False; [done|]. intros [= ->]. done.
  - rewrite decide_False by (intros [= ->]; done). rewrite IH by done. done.
Qed.

Lemma count_partition (f : Z → option Z) (R l : list Z) :
  NoDup R → (∀ x, x ∈ l → ∃ r, r ∈ R ∧ f x = Some r) →
  sumZ (fun r => Z.of_nat (length (filter (fun x => f x = Some r) l))) R
  = Z.of_nat (length l).
Proof.
  intros Hnd. induction l as [|x l IH]; intros Hl.
  - simpl. apply sumZ_zero.
  - destruct (Hl x (list_elem_of_here x l)) as (r0 & Hr0 & Hx).
    rewrite (sumZ_ext _ (fun r => (if decide (f x = Some r) then 1 else 0)
       + Z.of_nat (length (filter (fun x => f x = Some r) l)))).
    + rewrite sumZ_add, (sumZ_indicator _ r0), IH; try done.
      * rewrite length_cons. lia.
      * intros y Hy. apply Hl. by right.
    + intros r _. rewrite filter_cons. case_decide; simpl; lia.
Qed.

Lemma size_sum_wf s : wf s → size_sum s = n s.
Proof.
  intros Hwf. unfold size_sum.
  rewrite (sumZ_ext _ (fun r => Z.of_nat (length (members s r)))).
  - unfold members. rewrite count_partition.
    + apply length_indices, (wf_n s Hwf).
    + unfold roots. apply NoDup_filter, NoDup_indices.
    + intros x Hx. apply elem_of_indices in Hx.
      destruct (wf_forest s Hwf x Hx) as (l & r & H).
      exists r. split; [|by eapply root_of_rpath].
      pose proof (rpath_is_root _ _ _ _ H) as Hr.
      apply elem_of_roots. split; [|done].
      apply is_root_range; [apply (wf_parent_len s Hwf) | done].
  - intros r Hr. apply elem_of_roots in Hr as [_ Hr].
    by rewrite (wf_size s Hwf r Hr).
Qed.

(** C9: in every reachable state the sizes of the roots add up to [n],
    and the size of each root is the number of elements whose root it
    is. *)
Theorem size_conservation s :
  reachable s →
  size_sum s = n s ∧
  ∀ r, is_root s r → rd (size s) r = Some (Z.of_nat (length (members s r))).
Proof.
  intros H. apply reachable_wf in H.
  split; [by apply size_sum_wf | apply (wf_size s H)].
Qed.

Lemma size_conservation_witness :
  size_sum (mkDS [0; 0; 0; 3; 4] [1; 0; 0; 0; 0] [3; 1; 1; 1; 1] 5 3) = 5 ∧
  ∀ r, is_root (mkDS [0; 0; 0; 3; 4] [1; 0; 0; 0; 0] [3; 1; 1; 1; 1] 5 3) r →
    rd [3; 1; 1; 1; 1] r = Some (Z.of_nat (length
      (members (mkDS [0; 0; 0; 3; 4] [1; 0; 0; 0; 0] [3; 1; 1; 1; 1] 5 3) r))).
Proof.
  apply (size_conservation
           (mkDS [0; 0; 0; 3; 4] [1; 0; 0; 0; 0] [3; 1; 1; 1; 1] 5 3)).
  apply (reach_return
           (mkDS [0; 0; 2; 3; 4] [1; 0; 0; 0; 0] [2; 1; 1; 1; 1] 5 4)
           (CUnite 1 2) (VBool true));
    [|simpl; lia|reflexivity].
  apply (reach_return (singletons 5) (CUnite 0 1) (VBool true));
    [|simpl; lia|reflexivity].
  apply (reach_new 5); reflexivity.
Defined.

(** ** Ranks *)

Lemma get_component_rank_inv x s k s1 :
  get_component_rank x s = Ok k s1 →
  ∃ r, root_of s x = Some r ∧ rd (rank s) r = Some k.
Proof.
  unfold get_component_rank. intros H.
  apply bind_inv_Ok in H as (r & s0 & Hf & Hl).
  exists r. unfold root_of. rewrite Hf. split; [done|].
  destruct (find_frame _ _ _ _ Hf) as (Hr & _). rewrite <- Hr.
  unfold load_rank, lift_opt in Hl. destruct (rd (rank s0) r); congruence.
Qed.

Lemma get_component_rank_intro x s r k :
  root_of s x = Some r → rd (rank s) r = Some k →
  ∃ s1, get_component_rank x s = Ok k s1.
Proof.
  unfold root_of, get_component_rank. intros Hr Hk.
  destruct (find x s) as [r' s0| | |] eqn:Hf; try done. injection Hr as ->.
  exists s0. rewrite (bind_Ok _ _ _ _ _ Hf). apply load_rank_Ok.
  destruct (find_frame _ _ _ _ Hf) as (-> & _). done.
Qed.

Lemma link_state_rank s rx ry kx ky zx zy :
  rank (link_state s rx ry kx ky zx zy) =
    if decide (kx = ky) then upd (rank s) rx (kx + 1) else rank s.
Proof.
  unfold link_state.
  destruct (kx <? ky) eqn:E1; [|destruct (kx >? ky) eqn:E2]; simpl;
    case_decide; try done; lia.
Qed.

(** C10: no call lowers an entry of [rank] or the rank that
    [get_component_rank] reports for an element; calls other than [unite]
    and [add_edges] (which is a loop of calls of [unite]) leave [rank] as
    it is; [unite] changes it only when it merges two roots of equal
    rank, and then only by adding one to the rank of the surviving root
    [rx]. *)
Theorem rank_never_decreases s c v s' :
  reachable s → in_range s c → run_call c s = Ok v s' →
  (∀ x k, rd (rank s) x = Some k → ∃ k', rd (rank s') x = Some k' ∧ k ≤ k') ∧
  (∀ x k s1, get_component_rank x s = Ok k s1 →
     ∃ k' s1', get_component_rank x s' = Ok k' s1' ∧ k ≤ k') ∧
  match c with
  | CUnite x y =>
      ∃ rx ry kx ky,
        root_of s x = Some rx ∧ root_of s y = Some ry ∧
        rd (rank s) rx = Some kx ∧ rd (rank s) ry = Some ky ∧
        rank s' = if decide (rx ≠ ry ∧ kx = ky)
                  then upd (rank s) rx (kx + 1) else rank s
  | CAddEdges _ _ _ => True
  | _ => rank s' = rank s
  end.
Proof.
  intros Hreach Hc Hrun. apply reachable_wf in Hreach as Hwf.
  pose proof (run_call_good s c Hwf Hc) as Hgood. rewrite Hrun in Hgood.
  destruct Hgood as [Hwf' Hev].
  split; [apply (ev_rank _ _ Hev)|]. split.
  { intros x k s1 Hk. apply get_component_rank_inv in Hk as (r & Hr & Hk).
    destruct (ev_component_rank _ _ Hev x r k Hr Hk) as (r' & k' & Hr' & Hk' & Hle).
    destruct (get_component_rank_intro x s' r' k' Hr' Hk') as (s1' & H1).
    by exists k', s1'. }
  destruct (is_query c) eqn:Hq.
  - destruct (query_spec s c Hwf Hc Hq) as (v0 & s0 & Hrun0 & _ & Hs & _).
    rewrite Hrun in Hrun0. injection Hrun0 as <- <-.
    destruct c; try done; apply (sp_rank _ _ Hs).
  - destruct c; try done. simpl in Hc. destruct Hc as [Hx Hy].
    destruct (unite_spec s x y Hwf Hx Hy)
      as (rx & ry & s2 & Hrx & Hry & Hirx & Hiry & Hwf2 & Hs & H).
    destruct (wf_rank s Hwf rx Hirx) as (kx & Hkx & _).
    destruct (wf_rank s Hwf ry Hiry) as (ky & Hky & _).
    exists rx, ry, kx, ky. do 4 (split; [done|]).
    unfold run_call in Hrun.
    apply bind_inv_Ok in Hrun as (b & s3 & Hun & Hret). injection Hret as <- <-.
    destruct (decide (rx = ry)) as [E|E].
    + rewrite Hun in H. injection H as -> ->.
      rewrite decide_False by tauto. apply (sp_rank _ _ Hs).
    + destruct H as (kx' & ky' & zx & zy & Hkx' & Hky' & _ & _ & H & _).
      assert (kx' = kx) as -> by congruence.
      assert (ky' = ky) as -> by congruence.
      rewrite Hun in H. injection H as -> ->.
      rewrite link_state_rank, (sp_rank _ _ Hs).
      repeat case_decide; try done; tauto.
Qed.

Lemma rank_never_decreases_witness :
  (∀ x k, rd (rank (singletons 3)) x = Some k →
     ∃ k', rd [1; 0; 0] x = Some k' ∧ k ≤ k') ∧
  (∀ x k s1, get_component_rank x (singletons 3) = Ok k s1 →
     ∃ k' s1',
       get_component_rank x (mkDS [0; 0; 2] [1; 0; 0] [2; 1; 1] 3 2)
         = Ok k' s1' ∧ k ≤ k') ∧
  ∃ rx ry kx ky,
    root_of (singletons 3) 0 = Some rx ∧ root_of (singletons 3) 1 = Some ry ∧
    rd (rank (singletons 3)) rx = Some kx ∧
    rd (rank (singletons 3)) ry = Some ky ∧
    [1; 0; 0] = if decide (rx ≠ ry ∧ kx = ky)
                then upd (rank (singletons 3)) rx (kx + 1)
                else rank (singletons 3).
Proof.
  apply (rank_never_decreases (singletons 3) (CUnite 0 1) (VBool true)
           (mkDS [0; 0; 2] [1; 0; 0] [2; 1; 1] 3 2)).
  - apply (reach_new 3); reflexivity.
  - simpl. lia.
  - reflexivity.
Defined.

(** ** The early exit of the spatial builder *)

Lemma F32_prec_pos : 0 < F32.prec.
Proof. reflexivity. Qed.

Lemma F32_emin_nonpos : 3 - F32.emax - F32.prec ≤ 0.
Proof. unfold F32.emax, F32.prec. lia. Qed.

Lemma F32_square_nonneg a b :
  F32.valid a = true → F32.valid b = true →
  nonneg32 (F32.mul (F32.sub a b) (F32.sub a b)).
Proof.
  intros Ha Hb.
  apply (SFmul_square_nonneg _ _ F32_prec_pos F32_emin_nonpos).
  apply (SFsub_canon _ _ F32_prec_pos); by apply valid_binary_canon.
Qed.

Lemma F32_add_nonneg d q :
  nonneg32 d → nonneg32 q →
  nonneg32 (F32.add d q) ∧
  (F32.add d q = S754_nan ∨ F32.le d (F32.add d q) = true).
Proof. apply (SFadd_nonneg _ _ F32_prec_pos). Qed.

Section Pruning.

Variable read : Z → Z → option F32.t.
Variable t : F32.t.

Lemma exceeds_le d : exceeds t d → F32.le d (F32.mul t t) = false.
Proof.
  intros [-> | H]; [done|]. by apply SFltb_not_leb.
Qed.

Lemma exceeds_add d q :
  nonneg32 d → nonneg32 q → exceeds t d → exceeds t (F32.add d q).
Proof.
  intros Hd Hq [-> | H]; [by left|].
  destruct (F32_add_nonneg d q Hd Hq) as [Hn [E | Hle]]; [by left|].
  right. unfold F32.gt in *.
  by apply (SFltb_leb_trans F32.prec F32.emax _ d).
Qed.

Lemma readable_cons k ks i :
  readable read (k :: ks) i →
  (∃ a, read i k = Some a ∧ F32.valid a = true) ∧ readable read ks i.
Proof.
  intros H. split; [apply H; left|]. intros k' Hk'. apply H. by right.
Qed.

Lemma accumulate_full_exceeds ks i j d :
  readable read ks i → readable read ks j → nonneg32 d → exceeds t d →
  ∃ d', accumulate_full read ks i j d = Some d' ∧
        F32.le d' (F32.mul t t) = false.
Proof.
  revert d. induction ks as [|k ks IH]; intros d Hi Hj Hd He; simpl.
  - exists d. split; [done | by apply exceeds_le].
  - apply readable_cons in Hi as [(a & -> & Ha) Hi].
    apply readable_cons in Hj as [(b & -> & Hb) Hj].
    pose proof (F32_square_nonneg a b Ha Hb) as Hq.
    apply IH; [done | done | |].
    + by apply F32_add_nonneg.
    + by apply exceeds_add.
Qed.

(** The loop with the [break] and the loop without it end on the same
    side of the threshold. *)
Lemma accumulate_decision ks i j d :
  readable read ks i → readable read ks j → nonneg32 d →
  ∃ d1 d2,
    accumulate read t ks i j d = Some d1 ∧
    accumulate_full read ks i j d = Some d2 ∧
    F32.le d1 (F32.mul t t) = F32.le d2 (F32.mul t t).
Proof.
  revert d. induction ks as [|k ks IH]; intros d Hi Hj Hd; simpl.
  - by exists d, d.
  - apply readable_cons in Hi as [(a & -> & Ha) Hi].
    apply readable_cons in Hj as [(b & -> & Hb) Hj].
    pose proof (F32_square_nonneg a b Ha Hb) as Hq.
    destruct (F32_add_nonneg d _ Hd Hq) as [Hn _].
    set (d' := F32.add d (F32.mul (F32.sub a b) (F32.sub a b))) in *.
    destruct (F32.gt d' (F32.mul t t)) eqn:E.
    + destruct (accumulate_full_exceeds ks i j d' Hi Hj Hn) as (d2 & H2 & Hle);
        [by right|].
      exists d', d2. split; [done|]. split; [done|].
      rewrite Hle. apply exceeds_le. by right.
    + by apply IH.
Qed.

Lemma pair_body_unpruned cols i j s :
  readable read (seqZ 0 cols) i → readable read (seqZ 0 cols) j →
  pair_body t (accumulate read t) cols i j s =
  pair_body t (accumulate_full read) cols i j s.
Proof.
  intros Hi Hj. unfold pair_body.
  destruct (accumulate_decision (seqZ 0 cols) i j F32.zero Hi Hj)
    as (d1 & d2 & H1 & H2 & Hle); [done|].
  rewrite H1, H2. unfold mbind, M_bind, lift_opt. by rewrite Hle.
Qed.

End Pruning.

Lemma for_each_ext {A} (l : list A) (body1 body2 : A → M unit) s :
  (∀ a s', a ∈ l → body1 a s' = body2 a s') →
  for_each l body1 s = for_each l body2 s.
Proof.
  revert s. induction l as [|a l IH]; intros s H; simpl; [done|].
  unfold mbind, M_bind. rewrite (H a s) by left.
  destruct (body2 a s); try done. apply IH. intros a' s' Ha'. apply H. by right.
Qed.

Lemma build_edges_unpruned read t rows cols s :
  (∀ i, 0 ≤ i < rows → readable read (seqZ 0 cols) i) →
  build_edges t (accumulate read t) rows cols s =
  build_edges t (accumulate_full read) rows cols s.
Proof.
  intros Hread. unfold build_edges.
  apply for_each_ext. intros i s1 Hi. apply elem_of_seqZ in Hi.
  apply for_each_ext. intros j s2 Hj. apply elem_of_seqZ in Hj.
  apply pair_body_unpruned; apply Hread; lia.
Qed.

Lemma to_uint32_le z : 0 ≤ z → 0 ≤ Int.to_uint32 z ≤ z.
Proof.
  intros H. unfold Int.to_uint32, Int.UINT32_MOD.
  split; [apply Z.mod_pos_bound; lia | apply Z.mod_le; lia].
Qed.

Lemma readable_unchecked array d0 d1 i :
  well_formed array → shape array = [d0; d1] →
  0 ≤ i < Int.to_uint32 d0 →
  readable (read_unchecked array) (seqZ 0 (Int.to_uint32 d1)) i.
Proof.
  intros [_ Hs Hl Hv] Hshape Hi k Hk. apply elem_of_seqZ in Hk.
  rewrite Hshape in Hs, Hl. simpl in Hl.
  apply Forall_cons in Hs as [H0 Hs]. apply Forall_cons in Hs as [H1 _].
  pose proof (to_uint32_le d0 H0). pose proof (to_uint32_le d1 H1).
  unfold read_unchecked. rewrite Hshape. simpl.
  rewrite (proj2 (Z.leb_le 0 (i * d1 + k))) by nia.
  destruct (lookup_lt_is_Some_2 (data array) (Z.to_nat (i * d1 + k))) as [a Ha];
    [nia|].
  exists a. split; [done|]. by eapply (proj1 (Forall_lookup _ _) Hv).
Qed.

Lemma readable_ptr array rows cols i :
  well_formed array → shape array = [rows; cols] →
  0 ≤ i < rows →
  readable (read_ptr array cols) (seqZ 0 cols) i.
Proof.
  intros [_ Hs Hl Hv] Hshape Hi k Hk. apply elem_of_seqZ in Hk.
  rewrite Hshape in Hs, Hl. simpl in Hl.
  unfold read_ptr.
  assert (0 ≤ Int.to_uint32 (i * cols) ≤ i * cols) by (apply to_uint32_le; nia).
  assert (0 ≤ Int.to_uint32 (Int.to_uint32 (i * cols) + k)
            ≤ Int.to_uint32 (i * cols) + k) by (apply to_uint32_le; lia).
  destruct (lookup_lt_is_Some_2 (data array)
              (Z.to_nat (Int.to_uint32 (Int.to_uint32 (i * cols) + k))))
    as [a Ha]; [nia|].
  exists a. split; [done|]. by eapply (proj1 (Forall_lookup _ _) Hv).
Qed.

(** C5: on a well-formed array the two constructors build the partition
    that the same constructor without the [break] builds: for every pair
    the pruned sum and the full sum, both accumulated in binary32, are on
    the same side of [t * t], because adding a square never lowers a
    sum. *)
Theorem early_exit_is_sound array rows cols t :
  well_formed array →
  (∀ d0 d1 i j, shape array = [d0; d1] →
     0 ≤ i < Int.to_uint32 d0 → 0 ≤ j < Int.to_uint32 d0 →
     ∃ d_pruned d_full,
       accumulate (read_unchecked array) t (seqZ 0 (Int.to_uint32 d1)) i j F32.zero
         = Some d_pruned ∧
       accumulate_full (read_unchecked array) (seqZ 0 (Int.to_uint32 d1)) i j F32.zero
         = Some d_full ∧
       F32.le d_pruned (F32.mul t t) = F32.le d_full (F32.mul t t)) ∧
  new_spatial array t = new_spatial_unpruned array t ∧
  new_spatial_checked array rows cols t =
    new_spatial_checked_unpruned array rows cols t.
Proof.
  intros Hwf. split.
  { intros d0 d1 i j Hshape Hi Hj.
    apply accumulate_decision; [| |done];
      by apply (readable_unchecked array d0 d1). }
  pose proof (wfa_ndim array Hwf) as Hn.
  unfold new_spatial, new_spatial_unpruned, new_spatial_with.
  unfold new_spatial_checked, new_spatial_checked_unpruned,
    new_spatial_checked_with.
  destruct (ndim array =? 2) eqn:E; [|done]. apply Z.eqb_eq in E. simpl.
  destruct (shape array) as [|d0 [|d1 [|d2 l]]] eqn:Hshape; simpl in Hn;
    try lia.
  simpl. unfold construct, accumulate_unpruned. split.
  - rewrite build_edges_unpruned; [done|].
    intros i Hi. by apply (readable_unchecked array d0 d1).
  - destruct (d0 =? rows) eqn:E0; [|done].
    destruct (d1 =? cols) eqn:E1; [|done].
    apply Z.eqb_eq in E0, E1. subst d0 d1. simpl.
    rewrite build_edges_unpruned; [done|].
    intros i Hi. by apply (readable_ptr array rows cols).
Qed.

Lemma sample_points_well_formed : well_formed sample_points.
Proof.
  constructor; simpl.
  - reflexivity.
  - repeat constructor; lia.
  - reflexivity.
  - repeat constructor.
Qed.

Lemma early_exit_is_sound_witness :
  (∀ d0 d1 i j, shape sample_points = [d0; d1] →
     0 ≤ i < Int.to_uint32 d0 → 0 ≤ j < Int.to_uint32 d0 →
     ∃ d_pruned d_full,
       accumulate (read_unchecked sample_points) sample_threshold
         (seqZ 0 (Int.to_uint32 d1)) i j F32.zero = Some d_pruned ∧
       accumulate_full (read_unchecked sample_points)
         (seqZ 0 (Int.to_uint32 d1)) i j F32.zero = Some d_full ∧
       F32.le d_pruned (F32.mul sample_threshold sample_threshold)
         = F32.le d_full (F32.mul sample_threshold sample_threshold)) ∧
  new_spatial sample_points sample_threshold
    = new_spatial_unpruned sample_points sample_threshold ∧
  new_spatial_checked sample_points 3 2 sample_threshold
    = new_spatial_checked_unpruned sample_points 3 2 sample_threshold.
Proof.
  apply early_exit_is_sound. exact sample_points_well_formed.
Defined.

(** On the sample the pair [(0, 2)] leaves the loop after the first
    column with the sum [9]; all the columns give [10]. *)
Example early_exit_taken :
  accumulate (read_unchecked sample_points) sample_threshold [0; 1] 0 2 F32.zero
    = Some (S754_finite false 9437184 (-20)) ∧
  accumulate_full (read_unchecked sample_points) [0; 1] 0 2 F32.zero
    = Some (S754_finite false 10485760 (-20)).
Proof. split; reflexivity. Qed.

(** ** The threshold *)

Lemma for_each_app {A} (l1 l2 : list A) (body : A → M unit) s :
  for_each (l1 ++ l2) body s = (for_each l1 body;; for_each l2 body) s.
Proof.
  revert s. induction l1 as [|a l1 IH]; intros s; [done|].
  simpl. unfold mbind, M_bind in *.
  destruct (body a s) as [[] s1| | |]; [apply IH | done | done | done].
Qed.

Lemma for_each_fmap {A B} (f : A → B) (l : list A) (body : B → M unit) s :
  for_each (f <$> l) body s = for_each l (fun a => body (f a)) s.
Proof.
  revert s. induction l as [|a l IH]; intros s; [done|].
  simpl. unfold mbind, M_bind.
  destruct (body (f a) s) as [[] s1| | |]; [apply IH | done | done | done].
Qed.

Lemma for_each_bind {A B} (f : A → list B) (l : list A) (body : B → M unit) s :
  for_each (l ≫= f) body s = for_each l (fun a => for_each (f a) body) s.
Proof.
  revert s. induction l as [|a l IH]; intros s; [done|].
  change ((a :: l) ≫= f) with (f a ++ (l ≫= f)).
  rewrite for_each_app. simpl. unfold mbind at 1 3, M_bind.
  destruct (for_each (f a) body s) as [[] s1| | |]; [apply IH | done | done | done].
Qed.

Lemma for_each_filter {A} (P : A → Prop) `{!∀ a, Decision (P a)}
    (l : list A) (body : A → M unit) s :
  for_each (filter P l) body s =
  for_each l (fun a => if decide (P a) then body a else mret tt) s.
Proof.
  revert s. induction l as [|a l IH]; intros s; [done|].
  rewrite filter_cons. simpl. destruct (decide (P a)) as [Ha|Ha].
  - simpl. unfold mbind, M_bind.
    destruct (body a s) as [[] s1| | |]; [apply IH | done | done | done].
  - unfold mbind, M_bind, mret, M_ret. apply IH.
Qed.

(** The two loops visit the pairs [i < j < rows]. *)
Lemma for_each_pairs rows (body : Z * Z → M unit) s :
  for_each (pairs rows) body s =
  for_each (seqZ 0 rows) (fun i =>
    for_each (seqZ (i + 1) (rows - (i + 1))) (fun j => body (i, j))) s.
Proof.
  unfold pairs. rewrite for_each_bind. apply for_each_ext.
  intros i s1 _. apply for_each_fmap.
Qed.

Lemma elem_of_pairs rows i j : (i, j) ∈ pairs rows ↔ 0 ≤ i < j ∧ j < rows.
Proof.
  unfold pairs. rewrite list_elem_of_bind. split.
  - intros (i' & Hj & Hi). apply list_elem_of_fmap in Hj as (j' & [= -> ->] & Hj).
    apply elem_of_seqZ in Hi, Hj. lia.
  - intros [Hi Hj]. exists i. split; [|apply elem_of_seqZ; lia].
    apply list_elem_of_fmap. exists j. split; [done|]. apply elem_of_seqZ. lia.
Qed.

Lemma elem_of_united_pairs read t rows cols i j :
  (i, j) ∈ united_pairs read t rows cols ↔
  (0 ≤ i < j ∧ j < rows) ∧ close read t cols (i, j) = true.
Proof.
  unfold united_pairs. rewrite list_elem_of_filter, elem_of_pairs. tauto.
Qed.

(** The body of the loops on the pair [(i, j)]: one [unite] if the pair is
    close, nothing otherwise. *)
Lemma pair_body_close read t cols i j s :
  readable read (seqZ 0 cols) i → readable read (seqZ 0 cols) j →
  0 ≤ i ≤ Int.INT_MAX → 0 ≤ j ≤ Int.INT_MAX →
  pair_body t (accumulate read t) cols i j s =
  (if decide (close read t cols (i, j) = true)
   then (unite i j;; mret tt) s else Ok tt s).
Proof.
  intros Hi Hj Hir Hjr.
  destruct (accumulate_decision read t (seqZ 0 cols) i j F32.zero Hi Hj)
    as (d1 & d2 & H1 & H2 & Hle); [done|].
  unfold pair_body, close. simpl. rewrite H1, H2.
  unfold mbind at 1, M_bind at 1, lift_opt. rewrite Hle.
  rewrite (to_int_small i Hir), (to_int_small j Hjr).
  destruct (F32.le d2 (F32.mul t t)); [by rewrite decide_True|].
  by rewrite decide_False.
Qed.

(** The builder is the sequence of the calls [unite(i, j)] for the close
    pairs, in the order of the loops. *)
Lemma build_edges_unite_all read t rows cols s :
  rows ≤ Int.INT_MAX →
  (∀ i, 0 ≤ i < rows → readable read (seqZ 0 cols) i) →
  build_edges t (accumulate read t) rows cols s =
  unite_all (united_pairs read t rows cols) s.
Proof.
  intros Hrows Hread. unfold unite_all, united_pairs.
  rewrite for_each_filter, for_each_pairs. unfold build_edges.
  apply for_each_ext. intros i s1 Hi. apply elem_of_seqZ in Hi.
  apply for_each_ext. intros j s2 Hj. apply elem_of_seqZ in Hj.
  rewrite (pair_body_close read t cols i j s2); [| | | lia | lia];
    [|apply Hread; lia..].
  by destruct (decide _).
Qed.

(** C6, as stated, fails in both directions, because the builder compares
    sums that are rounded to binary32.  With the rows [(0, 0)] and
    [(1, 2^-13)] and [t = 1] the squared Euclidean distance is
    [1 + 2^-26 > t^2], the binary32 sum is [1], and the pair is united.
    With the rows [(0, 0)] and [(11589, 15452)] and [t = 19315] the
    squared Euclidean distance is [t^2 = 373069225] exactly, the binary32
    sum is [373069248], the binary32 product [t * t] is [373069216], and
    the pair is not united. *)
Lemma threshold_not_exact :
  (∃ d tv,
     exact_sqdist
       (read_unchecked
          (mkArr 2 [2; 2] [F32.zero; F32.zero;
                           S754_finite false 8388608 (-23);
                           S754_finite false 8388608 (-36)]))
       [0; 1] 0 1 = Some d ∧
     exact (S754_finite false 8388608 (-23)) = Some tv ∧
     (tv * tv < d)%Q ∧
     (0, 1) ∈ united_pairs
       (read_unchecked
          (mkArr 2 [2; 2] [F32.zero; F32.zero;
                           S754_finite false 8388608 (-23);
                           S754_finite false 8388608 (-36)]))
       (S754_finite false 8388608 (-23)) 2 2 ∧
     new_spatial
       (mkArr 2 [2; 2] [F32.zero; F32.zero;
                        S754_finite false 8388608 (-23);
                        S754_finite false 8388608 (-36)])
       (S754_finite false 8388608 (-23))
     = Ok (mkDS [0; 0] [1; 0] [2; 1] 2 1) tt) ∧
  (∃ d tv,
     exact_sqdist
       (read_unchecked
          (mkArr 2 [2; 2] [F32.zero; F32.zero;
                           S754_finite false 11867136 (-10);
                           S754_finite false 15822848 (-10)]))
       [0; 1] 0 1 = Some d ∧
     exact (S754_finite false 9889280 (-9)) = Some tv ∧
     (d == tv * tv)%Q ∧
     ¬ ((0, 1) ∈ united_pairs
          (read_unchecked
             (mkArr 2 [2; 2] [F32.zero; F32.zero;
                              S754_finite false 11867136 (-10);
                              S754_finite false 15822848 (-10)]))
          (S754_finite false 9889280 (-9)) 2 2) ∧
     new_spatial
       (mkArr 2 [2; 2] [F32.zero; F32.zero;
                        S754_finite false 11867136 (-10);
                        S754_finite false 15822848 (-10)])
       (S754_finite false 9889280 (-9))
     = Ok (mkDS [0; 1] [0; 0] [1; 1] 2 2) tt).
Proof.
  split.
  - eexists _, _. split; [reflexivity|]. split; [reflexivity|].
    split; [reflexivity|]. split; [|reflexivity].
    apply elem_of_united_pairs. split; [lia | reflexivity].
  - eexists _, _. split; [reflexivity|]. split; [reflexivity|].
    split; [reflexivity|]. split; [|reflexivity].
    rewrite elem_of_united_pairs. intros [_ H]. vm_compute in H. discriminate H.
Qed.

(** Two points at distance [1.5] with the threshold [1.5]: the sum is
    [2.25], equal to [t * t], and the builder unites them. *)
Example threshold_boundary_united :
  new_spatial (mkArr 2 [2; 1] [F32.zero; sample_threshold]) sample_threshold
    = Ok (mkDS [0; 0] [1; 0] [2; 1] 2 1) tt.
Proof. reflexivity. Qed.

(** * Further properties of the engine *)

(** ** Connectivity is an equivalence *)

Lemma root_of_Some_range s x r :
  wf s → root_of s x = Some r → 0 ≤ x < n s.
Proof.
  intros Hwf Hr. destruct (decide (0 ≤ x < n s)) as [|Hx]; [done|].
  rewrite root_of_out_of_range in Hr; [done|].
  by rewrite (wf_parent_len s Hwf).
Qed.

Lemma root_of_in_range s x :
  wf s → 0 ≤ x < n s → ∃ r, root_of s x = Some r ∧ is_root s r.
Proof.
  intros Hwf Hx. destruct (wf_forest s Hwf x Hx) as (l & r & H).
  exists r. split; [by eapply root_of_rpath | by eapply rpath_is_root].
Qed.

Lemma connected_iff s a b :
  connected s a b ↔ ∃ r, root_of s a = Some r ∧ root_of s b = Some r.
Proof.
  unfold connected. split.
  - intros [[r Hr] Heq]. exists r. split; congruence.
  - intros (r & Ha & Hb). split; [by exists r | congruence].
Qed.

Lemma connected_range s a b :
  wf s → connected s a b → 0 ≤ a < n s ∧ 0 ≤ b < n s.
Proof.
  intros Hwf H. apply connected_iff in H as (r & Ha & Hb).
  split; by eapply root_of_Some_range.
Qed.

Lemma connected_refl s a : wf s → 0 ≤ a < n s → connected s a a.
Proof.
  intros Hwf Ha. destruct (root_of_in_range s a Hwf Ha) as (r & Hr & _).
  apply connected_iff. by exists r.
Qed.

Lemma connected_sym s a b : connected s a b → connected s b a.
Proof.
  rewrite !connected_iff. intros (r & ? & ?). by exists r.
Qed.

Lemma connected_trans s a b c :
  connected s a b → connected s b c → connected s a c.
Proof.
  rewrite !connected_iff. intros (r & ? & ?) (r' & ? & ?).
  exists r. split; congruence.
Qed.

Lemma same_partition_connected s s' a b :
  same_partition s s' → (connected s' a b ↔ connected s a b).
Proof.
  intros H. unfold connected. by rewrite !(sp_root_of _ _ H).
Qed.

Lemma connected_root s a r :
  wf s → root_of s a = Some r → connected s a r.
Proof.
  intros Hwf Ha. apply connected_iff. exists r. split; [done|].
  apply root_of_root.
  by apply (root_of_is_root s a r (wf_forest s Hwf) (wf_parent_len s Hwf)).
Qed.

(** ** What [unite] does to the partition *)

Lemma link_state_root_of s rx ry kx ky zx zy :
  wf s → is_root s rx → is_root s ry → rx ≠ ry →
  ∃ a b, (a = rx ∧ b = ry ∨ a = ry ∧ b = rx) ∧
    ∀ z, root_of (link_state s rx ry kx ky zx zy) z =
         if decide (root_of s z = Some a) then Some b else root_of s z.
Proof.
  intros Hwf Hrx Hry Hne. unfold link_state.
  destruct (kx <? ky); [|destruct (kx >? ky)].
  - exists rx, ry. split; [by left|]. intros z.
    by apply (link_root_of s _ rx ry).
  - exists ry, rx. split; [by right|]. intros z.
    by apply (link_root_of s _ ry rx).
  - exists ry, rx. split; [by right|]. intros z.
    by apply (link_root_of s _ ry rx).
Qed.

(** The classes after a merge of the roots [rx ≠ ry]. *)
Lemma link_state_connected s rx ry kx ky zx zy c d :
  wf s → is_root s rx → is_root s ry → rx ≠ ry →
  connected (link_state s rx ry kx ky zx zy) c d ↔
  connected s c d ∨
  (root_of s c = Some rx ∧ root_of s d = Some ry) ∨
  (root_of s c = Some ry ∧ root_of s d = Some rx).
Proof.
  intros Hwf Hrx Hry Hne.
  destruct (link_state_root_of s rx ry kx ky zx zy Hwf Hrx Hry Hne)
    as (a & b & Hab & Hroot).
  rewrite !connected_iff. setoid_rewrite Hroot.
  pose proof (root_of_root s rx Hrx) as Hx.
  pose proof (root_of_root s ry Hry) as Hy.
  split.
  - intros (r & Hc & Hd).
    destruct (root_of s c) as [rc|] eqn:Ec;
      [|by rewrite decide_False in Hc by done].
    destruct (root_of s d) as [rd0|] eqn:Ed;
      [|by rewrite decide_False in Hd by done].
    destruct (decide (rc = rd0)) as [->|Hcd]; [left; by exists rd0|].
    right. repeat case_decide; destruct Hab as [[-> ->]|[-> ->]];
      simplify_eq; tauto.
  - intros [(r & Hc & Hd) | [[Hc Hd] | [Hc Hd]]].
    + rewrite Hc, Hd. case_decide; eauto.
    + rewrite Hc, Hd. exists b.
      destruct Hab as [[-> ->]|[-> ->]];
        repeat case_decide; simplify_eq; done.
    + rewrite Hc, Hd. exists b.
      destruct Hab as [[-> ->]|[-> ->]];
        repeat case_decide; simplify_eq; done.
Qed.

Lemma unite_connected_aux s x y :
  wf s → 0 ≤ x < n s → 0 ≤ y < n s →
  ∃ b s', unite x y s = Ok b s' ∧ wf s' ∧ n s' = n s ∧
    components s' = components s - (if b then 1 else 0) ∧
    (b = true ↔ ¬ connected s x y) ∧
    ∀ c d, connected s' c d ↔
      connected s c d ∨
      (connected s c x ∧ connected s d y) ∨
      (connected s c y ∧ connected s d x).
Proof.
  intros Hwf Hx Hy.
  destruct (unite_spec s x y Hwf Hx Hy)
    as (rx & ry & s2 & Hrx & Hry & Hirx & Hiry & Hwf2 & Hs & H).
  assert (Hcx : ∀ c, connected s c x ↔ root_of s c = Some rx).
  { intros c. rewrite connected_iff. split.
    - intros (r & ? & ?). congruence.
    - intros ?. by exists rx. }
  assert (Hcy : ∀ c, connected s c y ↔ root_of s c = Some ry).
  { intros c. rewrite connected_iff. split.
    - intros (r & ? & ?). congruence.
    - intros ?. by exists ry. }
  assert (Hxy : connected s x y ↔ rx = ry).
  { rewrite Hcy. split; congruence. }
  case_decide as E.
  - exists false, s2. split; [done|]. split; [done|].
    split; [apply (sp_n _ _ Hs)|].
    split; [rewrite (sp_components _ _ Hs); lia|].
    split; [split; [done | tauto]|].
    intros c d. rewrite (same_partition_connected _ _ _ _ Hs).
    split; [tauto|]. rewrite !Hcx, !Hcy, connected_iff. subst ry.
    intros [? | [[? ?] | [? ?]]]; [done | by exists rx ..].
  - destruct H as (kx & ky & zx & zy & _ & _ & _ & _ & H & Hwf3).
    eexists true, _. split; [exact H|]. split; [done|].
    split.
    { rewrite (proj1 (link_state_frame s2 rx ry kx ky zx zy)).
      apply (sp_n _ _ Hs). }
    split.
    { rewrite (proj2 (link_state_frame s2 rx ry kx ky zx zy)).
      by rewrite (sp_components _ _ Hs). }
    split; [split; [tauto | done]|].
    intros c d.
    rewrite link_state_connected; try done;
      try (by apply (sp_is_root _ _ Hs)).
    rewrite (same_partition_connected _ _ _ _ Hs), !(sp_root_of _ _ Hs).
    by rewrite !Hcx, !Hcy.
Qed.

(** [unite(x, y)] joins the class of [x] with the class of [y] and nothing
    else: afterwards two elements are connected exactly when they were, or
    when one was connected to [x] and the other to [y].  It returns [true]
    exactly when [x] and [y] were not connected, and a second call with
    the same arguments returns [false]. *)
Theorem unite_joins_classes s x y :
  wf s → 0 ≤ x < n s → 0 ≤ y < n s →
  ∃ b s' s'',
    unite x y s = Ok b s' ∧
    (b = true ↔ ¬ connected s x y) ∧
    connected s' x y ∧
    (∀ c d, connected s' c d ↔
       connected s c d ∨
       (connected s c x ∧ connected s d y) ∨
       (connected s c y ∧ connected s d x)) ∧
    unite x y s' = Ok false s''.
Proof.
  intros Hwf Hx Hy.
  destruct (unite_connected_aux s x y Hwf Hx Hy)
    as (b & s' & Hun & Hwf' & Hn & _ & Hb & Hconn).
  assert (Hxy : connected s' x y).
  { apply Hconn. right. left. split; by apply connected_refl. }
  destruct (unite_connected_aux s' x y Hwf') as (b' & s'' & Hun' & _ & _ & _ & Hb' & _);
    [lia | lia |].
  exists b, s', s''. do 4 (split; [done|]).
  destruct b'; [|done]. exfalso. by apply Hb'.
Qed.

Lemma unite_joins_classes_witness :
  ∃ b s' s'',
    unite 0 2 (mkDS [0; 0; 2] [1; 0; 0] [2; 1; 1] 3 2) = Ok b s' ∧
    (b = true ↔ ¬ connected (mkDS [0; 0; 2] [1; 0; 0] [2; 1; 1] 3 2) 0 2) ∧
    connected s' 0 2 ∧
    (∀ c d, connected s' c d ↔
       connected (mkDS [0; 0; 2] [1; 0; 0] [2; 1; 1] 3 2) c d ∨
       (connected (mkDS [0; 0; 2] [1; 0; 0] [2; 1; 1] 3 2) c 0 ∧
        connected (mkDS [0; 0; 2] [1; 0; 0] [2; 1; 1] 3 2) d 2) ∨
       (connected (mkDS [0; 0; 2] [1; 0; 0] [2; 1; 1] 3 2) c 2 ∧
        connected (mkDS [0; 0; 2] [1; 0; 0] [2; 1; 1] 3 2) d 0)) ∧
    unite 0 2 s' = Ok false s''.
Proof.
  apply (unite_joins_classes (mkDS [0; 0; 2] [1; 0; 0] [2; 1; 1] 3 2) 0 2).
  - apply reachable_wf.
    apply (reach_return (singletons 3) (CUnite 0 1) (VBool true));
      [|simpl; lia|reflexivity].
    apply (reach_new 3); reflexivity.
  - simpl. lia.
  - simpl. lia.
Defined.

(** [unite(x, y)] and [unite(y, x)] return the same value and leave the
    same classes and the same number of components; they may differ in
    which root survives. *)
Theorem unite_symmetric s x y :
  wf s → 0 ≤ x < n s → 0 ≤ y < n s →
  ∃ b s1 s2,
    unite x y s = Ok b s1 ∧ unite y x s = Ok b s2 ∧
    components s1 = components s2 ∧
    ∀ c d, connected s1 c d ↔ connected s2 c d.
Proof.
  intros Hwf Hx Hy.
  destruct (unite_connected_aux s x y Hwf Hx Hy)
    as (b1 & s1 & Hun1 & _ & _ & Hc1 & Hb1 & Hconn1).
  destruct (unite_connected_aux s y x Hwf Hy Hx)
    as (b2 & s2 & Hun2 & _ & _ & Hc2 & Hb2 & Hconn2).
  assert (b1 = b2) as <-.
  { destruct (decide (connected s x y)) as [C|C].
    - pose proof (connected_sym _ _ _ C) as C'.
      destruct b1; [exfalso; by apply Hb1|].
      destruct b2; [exfalso; by apply Hb2|]. done.
    - assert (C' : ¬ connected s y x)
        by (intros C'; by apply C, connected_sym).
      apply Hb1 in C. apply Hb2 in C'. congruence. }
  exists b1, s1, s2. split; [done|]. split; [done|].
  split; [congruence|].
  intros c d. rewrite Hconn1, Hconn2. tauto.
Qed.

Lemma unite_symmetric_witness :
  ∃ b s1 s2,
    unite 0 1 (singletons 3) = Ok b s1 ∧ unite 1 0 (singletons 3) = Ok b s2 ∧
    components s1 = components s2 ∧
    ∀ c d, connected s1 c d ↔ connected s2 c d.
Proof.
  apply (unite_symmetric (singletons 3) 0 1).
  - apply singletons_wf. unfold Int.INT_MAX. lia.
  - simpl. lia.
  - simpl. lia.
Defined.

(** The two orders leave different roots on a tie. *)
Example unite_symmetric_roots :
  unite 0 1 (singletons 3) = Ok true (mkDS [0; 0; 2] [1; 0; 0] [2; 1; 1] 3 2) ∧
  unite 1 0 (singletons 3) = Ok true (mkDS [1; 1; 2] [0; 1; 0] [1; 2; 1] 3 2).
Proof. split; reflexivity. Qed.

(** ** The equivalence that a set of edges generates *)

Lemma joined_range E N a b : joined E N a b → 0 ≤ a < N ∧ 0 ≤ b < N.
Proof. induction 1; tauto. Qed.

Lemma joined_ext E E' N a b :
  (∀ c d, 0 ≤ c < N → 0 ≤ d < N → (E c d ↔ E' c d)) →
  joined E N a b ↔ joined E' N a b.
Proof.
  intros Hext. split; induction 1;
    try (by apply joined_refl); try (by apply joined_sym);
    try (by eapply joined_trans);
    apply joined_edge; try done; by apply Hext.
Qed.

Lemma joined_add E N x y a b :
  0 ≤ x < N → 0 ≤ y < N →
  joined (fun c d => E c d ∨ (c = x ∧ d = y)) N a b ↔
  joined E N a b ∨
  (joined E N a x ∧ joined E N b y) ∨
  (joined E N a y ∧ joined E N b x).
Proof.
  intros Hx Hy. split.
  - induction 1 as [a Ha | a b [He | [-> ->]] Ha Hb | a b _ IH
                   | a b c _ IH1 _ IH2].
    + left. by apply joined_refl.
    + left. by apply joined_edge.
    + right. left. split; by apply joined_refl.
    + destruct IH as [? | [[? ?] | [? ?]]];
        [left; by apply joined_sym | right; right; done | right; left; done].
    + assert (Hs : ∀ u v, joined E N u v → joined E N v u)
        by (intros; by apply joined_sym).
      assert (Ht : ∀ u v w, joined E N u v → joined E N v w → joined E N u w)
        by (intros; by eapply joined_trans).
      destruct IH1 as [H1 | [[H1 H1'] | [H1 H1']]],
               IH2 as [H2 | [[H2 H2'] | [H2 H2']]]; eauto 8.
  - assert (Hm : ∀ u v, joined E N u v →
              joined (fun c d => E c d ∨ (c = x ∧ d = y)) N u v).
    { induction 1; try (by apply joined_refl); try (by apply joined_sym);
        try (by eapply joined_trans). apply joined_edge; tauto. }
    assert (Hxy : joined (fun c d => E c d ∨ (c = x ∧ d = y)) N x y)
      by (apply joined_edge; tauto).
    intros [H | [[H1 H2] | [H1 H2]]].
    + by apply Hm.
    + eapply joined_trans; [by apply Hm|].
      eapply joined_trans; [exact Hxy|]. by apply joined_sym, Hm.
    + eapply joined_trans; [by apply Hm|].
      eapply joined_trans; [apply joined_sym; exact Hxy|].
      by apply joined_sym, Hm.
Qed.

Lemma joined_empty E N a b :
  (∀ c d, ¬ E c d) → joined E N a b ↔ 0 ≤ a < N ∧ a = b.
Proof.
  intros He. split.
  - induction 1 as [| a b H | |]; try lia. by apply He in H.
  - intros [Ha <-]. by apply joined_refl.
Qed.

(** The classes of a partition are an equivalence of their own. *)
Lemma joined_connected s a b :
  wf s → joined (connected s) (n s) a b ↔ connected s a b.
Proof.
  intros Hwf. split.
  - induction 1; [by apply connected_refl | done | by apply connected_sym
                 | by eapply connected_trans].
  - intros H. destruct (connected_range s a b Hwf H). by apply joined_edge.
Qed.

Lemma singletons_connected m a b :
  0 ≤ m ≤ Int.INT_MAX →
  connected (singletons m) a b ↔ 0 ≤ a < m ∧ a = b.
Proof.
  intros Hm. pose proof (singletons_wf m Hm) as Hwf. split.
  - intros H. destruct (connected_range _ _ _ Hwf H) as [Ha Hb]. simpl in *.
    apply connected_iff in H as (r & H1 & H2).
    rewrite singletons_root_of in H1, H2 by done. split; [done | congruence].
  - intros [Ha <-]. by apply connected_refl.
Qed.

(** One more edge. *)
Lemma unite_joined E N s x y :
  wf s → n s = N → 0 ≤ x < N → 0 ≤ y < N →
  (∀ c d, connected s c d ↔ joined E N c d) →
  ∃ b s', unite x y s = Ok b s' ∧ wf s' ∧ n s' = N ∧
    ∀ c d, connected s' c d ↔
           joined (fun u v => E u v ∨ (u = x ∧ v = y)) N c d.
Proof.
  intros Hwf Hn Hx Hy Hconn.
  destruct (unite_connected_aux s x y Hwf) as (b & s' & Hun & Hwf' & Hn' & _ & _ & H);
    [lia | lia |].
  exists b, s'. split; [done|]. split; [done|]. split; [lia|].
  intros c d. rewrite H, joined_add, !Hconn by done. done.
Qed.

(** ** Loops with an invariant *)

Lemma for_each_seqZ_inv (I : Z → DisjointSet → Prop) lo len body s :
  0 ≤ len → I lo s →
  (∀ k s1, lo ≤ k < lo + len → I k s1 →
     ∃ s2, body k s1 = Ok tt s2 ∧ I (k + 1) s2) →
  ∃ s', for_each (seqZ lo len) body s = Ok tt s' ∧ I (lo + len) s'.
Proof.
  intros Hlen. revert lo s.
  pattern len. apply natlike_ind; [| |exact Hlen].
  - intros lo s HI _. exists s. rewrite Z.add_0_r. by rewrite seqZ_nil.
  - clear len Hlen. intros len Hlen IH lo s HI Hbody.
    rewrite seqZ_cons by lia. simpl.
    destruct (Hbody lo s) as (s1 & Hb & HI1); [lia | done |].
    rewrite (bind_Ok _ _ _ _ _ Hb).
    replace (Z.pred (Z.succ len)) with len by lia.
    destruct (IH (Z.succ lo) s1) as (s' & Hf & HI').
    + by replace (Z.succ lo) with (lo + 1) by lia.
    + intros k s2 Hk. apply Hbody. lia.
    + exists s'. split; [done|].
      by replace (lo + Z.succ len) with (Z.succ lo + len) by lia.
Qed.

(** ** [add_edges] *)

Lemma add_edges_joined_aux a (b_array : pyarray Z) b_array_size s :
  wf s → 0 ≤ a < n s →
  ndim b_array = 1 → shape b_array = [b_array_size] →
  Z.of_nat (length (data b_array)) = b_array_size →
  (∀ b, b ∈ data b_array → 0 ≤ b < n s) →
  ∃ s', add_edges a b_array b_array_size s = Ok tt s' ∧ wf s' ∧ n s' = n s ∧
    ∀ c d, connected s' c d ↔
      joined (fun u v => connected s u v ∨ (u = a ∧ v ∈ data b_array)) (n s) c d.
Proof.
  intros Hwf Ha Hndim Hshape Hlen Hdata.
  unfold add_edges. rewrite Hndim, Hshape. simpl.
  unfold mbind at 1, M_bind at 1, lift_opt at 1.
  rewrite Z.eqb_refl. simpl.
  set (E := fun k u v => connected s u v ∨
              (u = a ∧ ∃ i, 0 ≤ i < k ∧ data b_array !! Z.to_nat i = Some v)).
  destruct (for_each_seqZ_inv
              (fun k s1 => wf s1 ∧ n s1 = n s ∧
                 ∀ c d, connected s1 c d ↔ joined (E k) (n s) c d)
              0 b_array_size
              (fun i => b ← lift_opt (data b_array !! Z.to_nat i);
                        unite (Int.to_int a) (Int.to_int b);; mret tt) s)
    as (s' & Hrun & Hwf' & Hn' & Hconn).
  - lia.
  - split; [done|]. split; [done|]. intros c d.
    rewrite <- (joined_connected s c d Hwf). apply joined_ext.
    intros u v _ _. unfold E. split; [tauto|].
    intros [? | [_ (i & ? & _)]]; [done | lia].
  - intros k s1 Hk (Hwf1 & Hn1 & Hc1).
    destruct (lookup_lt_is_Some_2 (data b_array) (Z.to_nat k)) as [b Hb]; [lia|].
    assert (Hbr : 0 ≤ b < n s) by (apply Hdata; by eapply list_elem_of_lookup_2).
    rewrite Hb. unfold lift_opt at 1. unfold mbind at 1, M_bind at 1.
    rewrite (to_int_index s a), (to_int_index s b) by done.
    destruct (unite_joined (E k) (n s) s1 a b Hwf1 Hn1 Ha Hbr Hc1)
      as (r & s2 & Hun & Hwf2 & Hn2 & Hc2).
    exists s2. rewrite (bind_Ok _ _ _ _ _ Hun).
    split; [done|]. split; [done|]. split; [done|].
    intros c d. rewrite Hc2. apply joined_ext. intros u v _ _. unfold E.
    split.
    + intros [[? | [-> (i & ? & ?)]] | [-> ->]]; [by left | |].
      * right. split; [done|]. exists i. split; [lia | done].
      * right. split; [done|]. exists k. split; [lia | done].
    + intros [? | [-> (i & Hi & Hv)]]; [by left; left|].
      destruct (decide (i = k)) as [->|Hne].
      * right. split; [done|]. congruence.
      * left. right. split; [done|]. exists i. split; [lia | done].
  - exists s'. split; [done|]. split; [done|]. split; [done|].
    intros c d. rewrite Hconn. apply joined_ext. intros u v _ _. unfold E.
    split.
    + intros [? | [-> (i & _ & Hv)]]; [by left|].
      right. split; [done|]. by eapply list_elem_of_lookup_2.
    + intros [? | [-> Hv]]; [by left|].
      apply list_elem_of_lookup_1 in Hv as (i & Hv).
      right. split; [done|]. exists (Z.of_nat i).
      apply lookup_lt_Some in Hv as Hlt.
      rewrite Nat2Z.id. split; [lia | done].
Qed.

(** On a well-formed partition, with a one-dimensional array of the
    declared length whose entries are indices, [add_edges(a, b_array, size)]
    returns, keeps the invariant, and joins the class of [a] with the class
    of every entry: the new classes are the equivalence generated by the
    old ones and the edges [(a, b)]. *)
Theorem add_edges_joins a (b_array : pyarray Z) b_array_size s :
  wf s → 0 ≤ a < n s →
  ndim b_array = 1 → shape b_array = [b_array_size] →
  Z.of_nat (length (data b_array)) = b_array_size →
  (∀ b, b ∈ data b_array → 0 ≤ b < n s) →
  ∃ s', add_edges a b_array b_array_size s = Ok tt s' ∧ wf s' ∧ n s' = n s ∧
    (∀ b, b ∈ data b_array → connected s' a b) ∧
    ∀ c d, connected s' c d ↔
      joined (fun u v => connected s u v ∨ (u = a ∧ v ∈ data b_array)) (n s) c d.
Proof.
  intros Hwf Ha Hndim Hshape Hlen Hdata.
  destruct (add_edges_joined_aux a b_array b_array_size s)
    as (s' & Hrun & Hwf' & Hn' & Hconn); try done.
  exists s'. do 3 (split; [done|]). split; [|done].
  intros b Hb. apply Hconn. apply joined_edge; [tauto | done | by apply Hdata].
Qed.

Lemma add_edges_joins_witness :
  ∃ s', add_edges 0 (mkArr 1 [3] [1; 2; 3]) 3 (singletons 5) = Ok tt s' ∧
    wf s' ∧ n s' = n (singletons 5) ∧
    (∀ b, b ∈ data (mkArr 1 [3] [1; 2; 3]) → connected s' 0 b) ∧
    ∀ c d, connected s' c d ↔
      joined (fun u v => connected (singletons 5) u v ∨
                         (u = 0 ∧ v ∈ data (mkArr 1 [3] [1; 2; 3])))
             (n (singletons 5)) c d.
Proof.
  apply (add_edges_joins 0 (mkArr 1 [3] [1; 2; 3]) 3 (singletons 5)).
  - apply singletons_wf. unfold Int.INT_MAX. lia.
  - simpl. lia.
  - reflexivity.
  - reflexivity.
  - reflexivity.
  - simpl. intros b Hb.
    repeat (apply elem_of_cons in Hb as [-> | Hb]; [lia|]). inversion Hb.
Defined.

(** ** The spatial builder *)

Lemma pair_body_joined read t cols E N i j s :
  wf s → n s = N → 0 ≤ i < N → 0 ≤ j < N →
  readable read (seqZ 0 cols) i → readable read (seqZ 0 cols) j →
  (∀ c d, connected s c d ↔ joined E N c d) →
  ∃ s', pair_body t (accumulate read t) cols i j s = Ok tt s' ∧
    wf s' ∧ n s' = N ∧
    ∀ c d, connected s' c d ↔
      joined (fun u v => E u v ∨ (u = i ∧ v = j ∧ within read t cols i j)) N c d.
Proof.
  intros Hwf Hn Hi Hj Hri Hrj Hconn.
  destruct (accumulate_decision read t (seqZ 0 cols) i j F32.zero Hri Hrj)
    as (d1 & d2 & H1 & H2 & Hle); [done|].
  unfold pair_body. rewrite H1. unfold mbind at 1, M_bind at 1, lift_opt.
  rewrite Hle. destruct (F32.le d2 (F32.mul t t)) eqn:E2.
  - rewrite (to_int_index s i), (to_int_index s j) by (done || lia).
    destruct (unite_joined E N s i j Hwf Hn Hi Hj Hconn)
      as (b & s' & Hun & Hwf' & Hn' & Hc').
    exists s'. rewrite (bind_Ok _ _ _ _ _ Hun).
    do 3 (split; [done|]). intros c d. rewrite Hc'.
    apply joined_ext. intros u v _ _. split.
    + intros [? | [-> ->]]; [by left|]. right. do 2 (split; [done|]).
      by exists d2.
    + intros [? | (-> & -> & _)]; [by left | by right].
  - exists s. do 3 (split; [done|]). intros c d. rewrite Hconn.
    apply joined_ext. intros u v _ _. split; [by left|].
    intros [? | (_ & _ & d' & Hd & Hd')]; [done|]. congruence.
Qed.

Lemma build_edges_joined read t rows cols :
  0 ≤ rows ≤ Int.INT_MAX →
  (∀ i, 0 ≤ i < rows → readable read (seqZ 0 cols) i) →
  ∃ s, build_edges t (accumulate read t) rows cols (singletons rows) = Ok tt s ∧
    wf s ∧ n s = rows ∧
    ∀ a b, connected s a b ↔
      joined (fun i j => i < j ∧ within read t cols i j) rows a b.
Proof.
  intros Hrows Hread. unfold build_edges.
  set (Eo := fun m u v => u < m ∧ u < v ∧ within read t cols u v).
  destruct (for_each_seqZ_inv
              (fun m s1 => wf s1 ∧ n s1 = rows ∧
                 ∀ c d, connected s1 c d ↔ joined (Eo m) rows c d)
              0 rows
              (fun i => for_each (seqZ (i + 1) (rows - (i + 1)))
                          (fun j => pair_body t (accumulate read t) cols i j))
              (singletons rows))
    as (s & Hrun & Hwf & Hn & Hconn).
  - lia.
  - split; [by apply singletons_wf|]. split; [done|]. intros c d.
    rewrite singletons_connected by done.
    rewrite (joined_ext (Eo 0) (fun _ _ => False)).
    + symmetry. apply (joined_empty (fun _ _ => False) rows c d). tauto.
    + intros u v Hu _. unfold Eo. split; [lia | done].
  - intros i s1 Hi (Hwf1 & Hn1 & Hc1).
    set (Ei := fun q u v => Eo i u v ∨ (u = i ∧ i < v < q ∧ within read t cols i v)).
    destruct (for_each_seqZ_inv
                (fun q s2 => wf s2 ∧ n s2 = rows ∧
                   ∀ c d, connected s2 c d ↔ joined (Ei q) rows c d)
                (i + 1) (rows - (i + 1))
                (fun j => pair_body t (accumulate read t) cols i j) s1)
      as (s2 & Hrun2 & Hwf2 & Hn2 & Hc2).
    + lia.
    + do 2 (split; [done|]). intros c d. rewrite Hc1.
      apply joined_ext. intros u v _ _. unfold Ei. split; [by left|].
      intros [? | (_ & ? & _)]; [done | lia].
    + intros j s2 Hj (Hwf2 & Hn2 & Hc2).
      destruct (pair_body_joined read t cols (Ei j) rows i j s2)
        as (s3 & Hpb & Hwf3 & Hn3 & Hc3); try done; try lia;
        try (apply Hread; lia).
      exists s3. do 3 (split; [done|]). intros c d. rewrite Hc3.
      apply joined_ext. intros u v _ _. unfold Ei. split.
      * intros [[? | (-> & ? & ?)] | (-> & -> & ?)]; [by left | |].
        -- right. split; [done|]. split; [lia | done].
        -- right. split; [done|]. split; [lia | done].
      * intros [? | (-> & Hv & Hw)]; [by left; left|].
        destruct (decide (v = j)) as [->|Hne].
        -- right. done.
        -- left. right. split; [done|]. split; [lia | done].
    + exists s2. split; [done|]. do 2 (split; [done|]). intros c d.
      rewrite Hc2. apply joined_ext. intros u v Hu Hv. unfold Ei, Eo. split.
      * intros [(? & ? & ?) | (-> & ? & ?)].
        -- split; [lia|]. done.
        -- split; [lia|]. split; [lia | done].
      * intros (Hlt & Huv & Hw).
        destruct (decide (u = i)) as [->|Hne].
        -- right. split; [done|]. split; [lia | done].
        -- left. split; [lia|]. done.
  - exists s. do 3 (split; [done|]). intros a b. rewrite Hconn.
    apply joined_ext. intros u v Hu Hv. unfold Eo. split.
    + intros (_ & ? & ?). done.
    + intros (? & ?). split; [lia|]. done.
Qed.

Lemma new_spatial_joined array t d0 d1 :
  well_formed array → shape array = [d0; d1] →
  d0 ≤ Int.INT_MAX → d1 < Int.UINT32_MOD →
  ∃ s, new_spatial array t = Ok s tt ∧ wf s ∧ n s = d0 ∧
    ∀ a b, connected s a b ↔
      joined (fun i j => i < j ∧ within (read_unchecked array) t d1 i j) d0 a b.
Proof.
  intros Hwf Hshape Hd0 Hd1.
  pose proof (wfa_ndim array Hwf) as Hn.
  pose proof (wfa_shape array Hwf) as Hs. rewrite Hshape in Hn, Hs.
  apply Forall_cons in Hs as [H0 Hs]. apply Forall_cons in Hs as [H1 _].
  simpl in Hn.
  assert (Hr0 : Int.to_uint32 d0 = d0)
    by (apply to_uint32_small; unfold Int.INT_MAX, Int.UINT32_MOD in *; lia).
  assert (Hr1 : Int.to_uint32 d1 = d1) by (apply to_uint32_small; lia).
  unfold new_spatial, new_spatial_with. rewrite <- Hn, Hshape. simpl.
  rewrite Hr0, Hr1, init_rows_singletons by lia.
  destruct (build_edges_joined (read_unchecked array) t d0 d1)
    as (s & Hrun & Hwfs & Hns & Hconn); [lia | |].
  - intros i Hi. rewrite <- Hr1.
    apply (readable_unchecked array d0 d1); [done | done | by rewrite Hr0].
  - exists s. unfold construct. rewrite Hrun. done.
Qed.

(** The partition that [DisjointSet(array, unit_dist_threshold)] builds
    from a well-formed [d0 x d1] array: the constructor returns, and two
    rows end in the same class exactly when a chain of pairs of rows whose
    binary32 squared distance is at most [t * t] leads from one to the
    other.  The classes are the connected components of the threshold
    graph. *)
Theorem new_spatial_components array t d0 d1 :
  well_formed array → shape array = [d0; d1] →
  d0 ≤ Int.INT_MAX → d1 < Int.UINT32_MOD →
  ∃ s, new_spatial array t = Ok s tt ∧ wf s ∧ n s = d0 ∧
    ∀ a b, connected s a b ↔
      joined (fun i j => i < j ∧ within (read_unchecked array) t d1 i j) d0 a b.
Proof. apply new_spatial_joined. Qed.

Lemma new_spatial_components_witness :
  ∃ s, new_spatial sample_points sample_threshold = Ok s tt ∧ wf s ∧ n s = 3 ∧
    ∀ a b, connected s a b ↔
      joined (fun i j => i < j ∧
                within (read_unchecked sample_points) sample_threshold 2 i j)
             3 a b.
Proof.
  apply (new_spatial_components sample_points sample_threshold 3 2).
  - exact sample_points_well_formed.
  - reflexivity.
  - unfold Int.INT_MAX. lia.
  - unfold Int.UINT32_MOD. lia.
Defined.

(** ** The threshold of the builders *)

Lemma close_within read t cols i j :
  close read t cols (i, j) = true ↔ within read t cols i j.
Proof.
  unfold close, within. simpl. split.
  - destruct (accumulate_full _ _ _ _ _) as [d|]; [|done]. intros H. by exists d.
  - intros (d & -> & H). done.
Qed.

Lemma build_edges_close read t rows cols :
  0 ≤ rows ≤ Int.INT_MAX →
  (∀ i, 0 ≤ i < rows → readable read (seqZ 0 cols) i) →
  ∃ s, build_edges t (accumulate read t) rows cols (singletons rows) = Ok tt s ∧
    unite_all (united_pairs read t rows cols) (singletons rows) = Ok tt s ∧
    ∀ p, p ∈ united_pairs read t rows cols → connected s p.1 p.2.
Proof.
  intros Hrows Hread.
  destruct (build_edges_joined read t rows cols Hrows Hread)
    as (s & Hrun & _ & _ & Hc).
  exists s. split; [done|]. split.
  - rewrite <- build_edges_unite_all; [done | lia | done].
  - intros [i j] Hp. apply elem_of_united_pairs in Hp as [Hij Hcl]. simpl.
    apply Hc. apply joined_edge; [|lia|lia].
    split; [lia | by apply close_within].
Qed.

Lemma close_decision read t rows cols i j :
  readable read (seqZ 0 cols) i → readable read (seqZ 0 cols) j →
  0 ≤ i < j → j < rows →
  ∃ dist,
    accumulate_full read (seqZ 0 cols) i j F32.zero = Some dist ∧
    ((i, j) ∈ united_pairs read t rows cols ↔
       F32.le dist (F32.mul t t) = true) ∧
    (SFcompare dist (F32.mul t t) = Some Eq →
     (i, j) ∈ united_pairs read t rows cols) ∧
    (SFcompare dist (F32.mul t t) = Some Gt →
     ¬ ((i, j) ∈ united_pairs read t rows cols)).
Proof.
  intros Hi Hj Hij Hjr.
  destruct (accumulate_decision read t (seqZ 0 cols) i j F32.zero Hi Hj)
    as (d1 & d2 & _ & H2 & _); [done|].
  assert (Hin : (i, j) ∈ united_pairs read t rows cols ↔
                F32.le d2 (F32.mul t t) = true).
  { rewrite elem_of_united_pairs. unfold close. simpl. rewrite H2. tauto. }
  exists d2. split; [done|]. split; [done|].
  rewrite Hin. unfold F32.le, SFleb. split; intros ->; done.
Qed.

(** C6, amended: each of the two builders is the sequence of the calls
    [unite(i, j)] for the pairs [i < j] whose sum of squared differences
    over all the columns, accumulated in binary32, is [<=] the binary32
    product [t * t], and for no other pair: a pair is united when the two
    binary32 values are equal and it is not when the sum is greater.  The
    builders return, and the rows of every such pair end in one class.
    The decision is made of subtractions, products, sums and comparisons
    only; there is no square root in it. *)
Theorem threshold_is_inclusive array rows cols t :
  well_formed array → shape array = [rows; cols] →
  rows ≤ Int.INT_MAX → cols < Int.UINT32_MOD →
  (∃ s, new_spatial array t = Ok s tt ∧
     construct (unite_all (united_pairs (read_unchecked array) t rows cols))
       (singletons rows) = Ok s tt ∧
     ∀ p, p ∈ united_pairs (read_unchecked array) t rows cols →
          connected s p.1 p.2) ∧
  (∃ s, new_spatial_checked array rows cols t = Ok s tt ∧
     construct (unite_all (united_pairs (read_ptr array cols) t rows cols))
       (singletons rows) = Ok s tt ∧
     ∀ p, p ∈ united_pairs (read_ptr array cols) t rows cols →
          connected s p.1 p.2) ∧
  ∀ read, read = read_unchecked array ∨ read = read_ptr array cols →
    ∀ i j, 0 ≤ i < j → j < rows →
      ∃ dist,
        accumulate_full read (seqZ 0 cols) i j F32.zero = Some dist ∧
        ((i, j) ∈ united_pairs read t rows cols ↔
           F32.le dist (F32.mul t t) = true) ∧
        (SFcompare dist (F32.mul t t) = Some Eq →
         (i, j) ∈ united_pairs read t rows cols) ∧
        (SFcompare dist (F32.mul t t) = Some Gt →
         ¬ ((i, j) ∈ united_pairs read t rows cols)).
Proof.
  intros Hwf Hshape Hrows Hcols.
  pose proof (wfa_ndim array Hwf) as Hn.
  pose proof (wfa_shape array Hwf) as Hs. rewrite Hshape in Hn, Hs.
  apply Forall_cons in Hs as [H0 Hs]. apply Forall_cons in Hs as [H1 _].
  simpl in Hn.
  assert (Hr0 : Int.to_uint32 rows = rows)
    by (apply to_uint32_small; unfold Int.INT_MAX, Int.UINT32_MOD in *; lia).
  assert (Hr1 : Int.to_uint32 cols = cols) by (apply to_uint32_small; lia).
  assert (Hru : ∀ i, 0 ≤ i < rows →
            readable (read_unchecked array) (seqZ 0 cols) i).
  { intros i Hi. rewrite <- Hr1.
    apply (readable_unchecked array rows cols); [done | done | by rewrite Hr0]. }
  assert (Hrp : ∀ i, 0 ≤ i < rows →
            readable (read_ptr array cols) (seqZ 0 cols) i).
  { intros i Hi. by apply (readable_ptr array rows cols). }
  split; [|split].
  - destruct (build_edges_close (read_unchecked array) t rows cols)
      as (s & Hrun & Hall & Hconn); [lia | done |].
    exists s. unfold new_spatial, new_spatial_with, construct.
    rewrite <- Hn, Hshape. simpl.
    rewrite Hr0, Hr1, init_rows_singletons by lia.
    by rewrite Hrun, Hall.
  - destruct (build_edges_close (read_ptr array cols) t rows cols)
      as (s & Hrun & Hall & Hconn); [lia | done |].
    exists s. unfold new_spatial_checked, new_spatial_checked_with, construct.
    rewrite <- Hn, Hshape. simpl. rewrite !Z.eqb_refl. simpl.
    rewrite init_rows_singletons by lia.
    by rewrite Hrun, Hall.
  - intros read [-> | ->] i j Hij Hj;
      apply close_decision; try done; (apply Hru || apply Hrp); lia.
Qed.

Lemma threshold_is_inclusive_witness :
  (∃ s, new_spatial sample_points sample_threshold = Ok s tt ∧
     construct
       (unite_all (united_pairs (read_unchecked sample_points)
                     sample_threshold 3 2))
       (singletons 3) = Ok s tt ∧
     ∀ p, p ∈ united_pairs (read_unchecked sample_points) sample_threshold 3 2 →
          connected s p.1 p.2) ∧
  (∃ s, new_spatial_checked sample_points 3 2 sample_threshold = Ok s tt ∧
     construct
       (unite_all (united_pairs (read_ptr sample_points 2)
                     sample_threshold 3 2))
       (singletons 3) = Ok s tt ∧
     ∀ p, p ∈ united_pairs (read_ptr sample_points 2) sample_threshold 3 2 →
          connected s p.1 p.2) ∧
  ∀ read, read = read_unchecked sample_points ∨ read = read_ptr sample_points 2 →
    ∀ i j, 0 ≤ i < j → j < 3 →
      ∃ dist,
        accumulate_full read (seqZ 0 2) i j F32.zero = Some dist ∧
        ((i, j) ∈ united_pairs read sample_threshold 3 2 ↔
           F32.le dist (F32.mul sample_threshold sample_threshold) = true) ∧
        (SFcompare dist (F32.mul sample_threshold sample_threshold) = Some Eq →
         (i, j) ∈ united_pairs read sample_threshold 3 2) ∧
        (SFcompare dist (F32.mul sample_threshold sample_threshold) = Some Gt →
         ¬ ((i, j) ∈ united_pairs read sample_threshold 3 2)).
Proof.
  apply (threshold_is_inclusive sample_points 3 2 sample_threshold).
  - exact sample_points_well_formed.
  - reflexivity.
  - unfold Int.INT_MAX. lia.
  - unfold Int.UINT32_MOD. lia.
Defined.

(** On the sample the builder calls [unite(0, 1)] and nothing else. *)
Example united_pairs_sample :
  united_pairs (read_unchecked sample_points) sample_threshold 3 2 = [(0, 1)].
Proof. reflexivity. Qed.

(** ** The two spatial constructors *)

Lemma accumulate_ext read1 read2 t ks i j d :
  (∀ k, k ∈ ks → read1 i k = read2 i k ∧ read1 j k = read2 j k) →
  accumulate read1 t ks i j d = accumulate read2 t ks i j d.
Proof.
  revert d. induction ks as [|k ks IH]; intros d H; simpl; [done|].
  destruct (H k) as [-> ->]; [by left|].
  destruct (read2 i k); [|done]. destruct (read2 j k); [|done].
  destruct (F32.gt _ _); [done|]. apply IH. intros k' Hk'. apply H. by right.
Qed.

Lemma build_edges_ext read1 read2 t rows cols s :
  (∀ i k, 0 ≤ i < rows → 0 ≤ k < cols → read1 i k = read2 i k) →
  build_edges t (accumulate read1 t) rows cols s =
  build_edges t (accumulate read2 t) rows cols s.
Proof.
  intros H. unfold build_edges.
  apply for_each_ext. intros i s1 Hi. apply elem_of_seqZ in Hi.
  apply for_each_ext. intros j s2 Hj. apply elem_of_seqZ in Hj.
  unfold pair_body.
  rewrite (accumulate_ext read1 read2 t (seqZ 0 cols) i j F32.zero); [done|].
  intros k Hk. apply elem_of_seqZ in Hk. split; apply H; lia.
Qed.

Lemma read_raw_strided a rows cols i k :
  rows * cols ≤ Int.UINT32_MOD → 0 ≤ i < rows → 0 ≤ k < cols →
  read_raw a cols i k = read_strided (as_contiguous a rows cols) i k.
Proof.
  intros Hsmall Hi Hk. unfold read_raw, read_strided, as_contiguous, nd_at.
  simpl.
  rewrite (to_uint32_small (i * cols)) by nia.
  rewrite (to_uint32_small (i * cols + k)) by nia.
  by rewrite Z.mul_1_r.
Qed.

(** The validating constructor reads the memory as if the array were
    writeable and row-major, whatever its strides and its flag are: with
    the shape [rows x cols] of the array and at most [2^32] elements it
    builds what the two-argument constructor builds from the same memory
    seen as a writeable row-major array.  So the two constructors agree on
    the writeable arrays with the strides [(cols, 1)]; on other arrays
    they need not (see [constructors_differ]). *)
Theorem validating_ignores_strides a rows cols t :
  nd_ndim a = 2 → nd_shape a = [rows; cols] →
  0 ≤ rows < Int.UINT32_MOD → 0 ≤ cols < Int.UINT32_MOD →
  rows * cols ≤ Int.UINT32_MOD →
  new_spatial_checked_nd a rows cols t =
    new_spatial_nd (as_contiguous a rows cols) t ∧
  (nd_writeable a = true → nd_strides a = [cols; 1] →
   new_spatial_checked_nd a rows cols t = new_spatial_nd a t).
Proof.
  intros Hn Hshape Hrows Hcols Hsmall.
  assert (H : new_spatial_checked_nd a rows cols t =
              new_spatial_nd (as_contiguous a rows cols) t).
  { unfold new_spatial_checked_nd, new_spatial_nd.
    rewrite Hn, Hshape. simpl. rewrite !Z.eqb_refl. simpl.
    rewrite !to_uint32_small by lia. unfold construct.
    rewrite (build_edges_ext (read_raw a cols)
               (read_strided (as_contiguous a rows cols))); [done|].
    intros i k Hi Hk. by apply (read_raw_strided a rows cols). }
  split; [done|]. intros Hw Hst. rewrite H. f_equal.
  destruct a as [w nd sh st o m]. simpl in *. unfold as_contiguous. simpl.
  by subst.
Qed.

Lemma validating_ignores_strides_witness :
  new_spatial_checked_nd sample_row_major 2 2 sample_threshold =
    new_spatial_nd (as_contiguous sample_row_major 2 2) sample_threshold ∧
  new_spatial_checked_nd sample_row_major 2 2 sample_threshold =
    new_spatial_nd sample_row_major sample_threshold.
Proof.
  destruct (validating_ignores_strides sample_row_major 2 2 sample_threshold)
    as [H1 H2].
  - reflexivity.
  - reflexivity.
  - unfold Int.UINT32_MOD. lia.
  - unfold Int.UINT32_MOD. lia.
  - unfold Int.UINT32_MOD. lia.
  - split; [exact H1 | apply H2; reflexivity].
Defined.

(** The theorem on the column-major sample: the validating constructor
    builds what the two-argument one builds from the row-major reading of
    the memory, the rows [(0, 3)] and [(0, 3)]. *)
Example validating_on_column_major :
  new_spatial_checked_nd sample_column_major 2 2 sample_threshold =
    new_spatial_nd (as_contiguous sample_column_major 2 2) sample_threshold ∧
  new_spatial_nd (as_contiguous sample_column_major 2 2) sample_threshold
    = Ok (mkDS [0; 0] [1; 0] [2; 1] 2 1) tt.
Proof. split; reflexivity. Qed.

(** The two constructors on the points [(0, 0)] and [(3, 3)] in
    column-major order, with the threshold [1.5]: the two-argument
    constructor sees the two points and leaves them apart; the validating
    one reads the rows [(0, 3)] and [(0, 3)] and unites them.  On the same
    array marked read-only the first throws and the second returns. *)
Example constructors_differ :
  new_spatial_nd sample_column_major sample_threshold
    = Ok (mkDS [0; 1] [0; 0] [1; 1] 2 2) tt ∧
  new_spatial_checked_nd sample_column_major 2 2 sample_threshold
    = Ok (mkDS [0; 0] [1; 0] [2; 1] 2 1) tt ∧
  new_spatial_nd
    (mkNd false 2 [2; 2] [1; 2] 0 (nd_mem sample_column_major))
    sample_threshold = Throw "array is not writeable" tt ∧
  new_spatial_checked_nd
    (mkNd false 2 [2; 2] [1; 2] 0 (nd_mem sample_column_major))
    2 2 sample_threshold = Ok (mkDS [0; 0] [1; 0] [2; 1] 2 1) tt.
Proof. repeat split; reflexivity. Qed.

(** The buffers of the claims are the arrays of this section that are
    writeable and row-major. *)
Lemma new_spatial_checked_nd_flat a rows cols t :
  0 ≤ nd_origin a →
  new_spatial_checked_nd a rows cols t =
  new_spatial_checked (flat a) rows cols t.
Proof.
  intros Ho. unfold new_spatial_checked_nd, new_spatial_checked,
    new_spatial_checked_with, flat. simpl.
  destruct (negb (nd_ndim a =? 2)); [done|].
  destruct (nd_shape a !! 0%nat) as [d0|]; [|done].
  destruct (nd_shape a !! 1%nat) as [d1|]; [|done].
  destruct (negb (d0 =? rows) || negb (d1 =? cols)); [done|].
  unfold construct.
  rewrite (build_edges_ext (read_raw a cols)
             (read_ptr (mkArr (nd_ndim a) (nd_shape a)
                          (drop (Z.to_nat (nd_origin a)) (nd_mem a))) cols));
    [done|].
  intros i k Hi Hk. unfold read_raw, read_ptr, nd_at. simpl.
  set (u := Int.to_uint32 (Int.to_uint32 (i * cols) + k)).
  assert (0 ≤ u) by (apply Z.mod_pos_bound; done).
  rewrite (proj2 (Z.leb_le 0 (nd_origin a + u))) by lia.
  rewrite lookup_drop. f_equal. lia.
Qed.

Lemma new_spatial_nd_flat a t d0 d1 :
  nd_writeable a = true → nd_shape a = [d0; d1] → nd_strides a = [d1; 1] →
  0 ≤ d1 → 0 ≤ nd_origin a →
  new_spatial_nd a t = new_spatial (flat a) t.
Proof.
  intros Hw Hshape Hst Hd1 Ho.
  unfold new_spatial_nd, new_spatial, new_spatial_with, flat. simpl.
  destruct (negb (nd_ndim a =? 2)); [done|].
  rewrite Hw, Hshape. simpl. unfold construct.
  rewrite (build_edges_ext (read_strided a)
             (read_unchecked (mkArr (nd_ndim a) [d0; d1]
                                (drop (Z.to_nat (nd_origin a)) (nd_mem a)))));
    [done|].
  intros i k Hi Hk. unfold read_strided, read_unchecked, nd_at.
  rewrite Hst. simpl. rewrite Z.mul_1_r.
  rewrite (proj2 (Z.leb_le 0 (i * d1 + k))) by nia.
  rewrite (proj2 (Z.leb_le 0 (nd_origin a + (i * d1 + k)))) by nia.
  rewrite lookup_drop. f_equal. nia.
Qed.

(** ** [get_ancestors] flattens the forest *)

(** After [find(x)] the element [x] points at its root, and so does every
    element that did before. *)
Lemma find_direct s x :
  wf s → 0 ≤ x < n s →
  ∃ r s1, find x s = Ok r s1 ∧ wf s1 ∧ same_partition s s1 ∧
    root_of s x = Some r ∧ rd (parent s1) x = Some r ∧
    ∀ i, rd (parent s) i = root_of s i → rd (parent s1) i = root_of s i.
Proof.
  intros Hwf Hx. destruct (find_wf s x Hwf Hx) as (l & r & H & Hfind & Hwf').
  pose proof (wf_forest s Hwf) as Hf. pose proof (wf_parent_len s Hwf) as Hp.
  assert (Hrd : ∀ v, rd (compress (parent s) l r) v =
                     if decide (v ∈ l) then Some r else rd (parent s) v).
  { intros v. apply rd_compress. intros y Hy.
    exact (rpath_bounds _ _ _ _ _ H Hy). }
  eexists r, _. split; [exact Hfind|]. split; [done|]. split; [|split; [|split]].
  - constructor; try done.
    + intros z. by apply (compress_root_of s x l r).
    + intros v. by apply (compress_is_root s x l r).
  - by eapply root_of_rpath.
  - simpl. rewrite Hrd. rewrite decide_True; [done|]. by eapply rpath_start.
  - intros i Hi. simpl. rewrite Hrd. case_decide as Hin; [|done].
    destruct (rpath_suffix _ _ _ _ _ H Hin) as (l' & H' & _).
    symmetry. by eapply root_of_rpath.
Qed.

Lemma find_all_direct l s :
  wf s → (∀ i, i ∈ l → 0 ≤ i < n s) →
  ∃ rs s', find_all l s = Ok rs s' ∧ wf s' ∧ same_partition s s' ∧
    Forall2 (fun i r => root_of s i = Some r) l rs ∧
    (∀ i, i ∈ l → rd (parent s') i = root_of s i) ∧
    (∀ i, rd (parent s) i = root_of s i → rd (parent s') i = root_of s i).
Proof.
  revert s. induction l as [|i l IH]; intros s Hwf Hl; simpl.
  - exists [], s. split; [done|]. split; [done|].
    split; [apply same_partition_refl|]. split; [constructor|].
    split; [|done]. intros i Hi. inversion Hi.
  - assert (Hi : 0 ≤ i < n s) by (apply Hl; left).
    rewrite (to_int_index s i Hwf Hi).
    destruct (find_direct s i Hwf Hi)
      as (r & s1 & Hf & Hwf1 & Hs1 & Hr & Hpr & Hkeep1).
    destruct (IH s1 Hwf1) as (rs & s2 & Hfa & Hwf2 & Hs2 & Hall & Hin & Hkeep2).
    { intros j Hj. rewrite (sp_n _ _ Hs1). apply Hl. by right. }
    assert (Hkeep : ∀ j, rd (parent s) j = root_of s j →
                         rd (parent s2) j = root_of s j).
    { intros j Hj. rewrite <- (sp_root_of _ _ Hs1 j). apply Hkeep2.
      rewrite (sp_root_of _ _ Hs1 j). by apply Hkeep1. }
    exists (r :: rs), s2.
    rewrite (bind_Ok _ _ _ _ _ Hf), (bind_Ok _ _ _ _ _ Hfa).
    split; [done|]. split; [done|].
    split; [by eapply same_partition_trans|]. split; [|split; [|done]].
    + constructor; [done|].
      eapply Forall2_impl; [exact Hall|]. intros j rj Hj. simpl in Hj.
      by rewrite <- (sp_root_of _ _ Hs1 j).
    + intros j Hj. apply elem_of_cons in Hj as [-> | Hj].
      * rewrite <- (sp_root_of _ _ Hs1 i). apply Hkeep2.
        rewrite (sp_root_of _ _ Hs1 i). congruence.
      * rewrite <- (sp_root_of _ _ Hs1 j). by apply Hin.
Qed.

(** [get_ancestors()] on a well-formed partition returns the roots of the
    elements [0 .. n-1] in order and leaves the partition as it was, with
    the forest flattened: afterwards the array [parent] is the returned
    array, every element points at its root. *)
Theorem get_ancestors_flattens s :
  wf s →
  ∃ rs s', get_ancestors s = Ok rs s' ∧ wf s' ∧ same_partition s s' ∧
    Z.of_nat (length rs) = n s ∧
    (∀ i, 0 ≤ i < n s → rd rs i = root_of s i) ∧
    parent s' = rs.
Proof.
  intros Hwf. pose proof (wf_n s Hwf) as Hn.
  destruct (find_all_direct (seqZ 0 (n s)) s Hwf)
    as (rs & s' & Hrun & Hwf' & Hs & Hall & Hin & _).
  { intros i Hi. apply elem_of_seqZ in Hi. lia. }
  assert (Hlen : Z.of_nat (length rs) = n s).
  { rewrite <- (Forall2_length _ _ _ Hall), length_seqZ. lia. }
  assert (Hrs : ∀ i, 0 ≤ i < n s → rd rs i = root_of s i).
  { intros i Hi.
    destruct (Forall2_lookup_l _ _ _ (Z.to_nat i) i Hall) as (r & Hr & Hroot).
    - apply lookup_seqZ. lia.
    - unfold rd. rewrite (proj2 (in_bounds_iff rs i)) by lia. congruence. }
  exists rs, s'. unfold get_ancestors. do 5 (split; [done|]).
  pose proof (wf_parent_len s' Hwf') as Hp'. rewrite (sp_n _ _ Hs) in Hp'.
  apply list_eq. intros k.
  destruct (decide (Z.of_nat k < n s)) as [Hk|Hk].
  - assert (Hi : 0 ≤ Z.of_nat k < n s) by lia.
    pose proof (Hin (Z.of_nat k)) as H1. pose proof (Hrs _ Hi) as H2.
    unfold rd in H1, H2.
    rewrite (proj2 (in_bounds_iff _ _)) in H1 by lia.
    rewrite (proj2 (in_bounds_iff _ _)) in H2 by lia.
    rewrite Nat2Z.id in H1, H2. rewrite H2. apply H1.
    apply elem_of_seqZ. lia.
  - rewrite !lookup_ge_None_2 by lia. done.
Qed.

Lemma sample_chain_reachable : reachable sample_chain.
Proof.
  apply (reach_return (mkDS [0; 0; 2; 2] [1; 0; 1; 0] [2; 1; 2; 1] 4 2)
           (CUnite 0 2) (VBool true)); [|simpl; lia|reflexivity].
  apply (reach_return (mkDS [0; 0; 2; 3] [1; 0; 0; 0] [2; 1; 1; 1] 4 3)
           (CUnite 2 3) (VBool true)); [|simpl; lia|reflexivity].
  apply (reach_return (mkDS [0; 1; 2; 3] [0; 0; 0; 0] [1; 1; 1; 1] 4 4)
           (CUnite 0 1) (VBool true)); [|simpl; lia|reflexivity].
  by apply (reach_new 4).
Qed.

Lemma sample_chain_wf : wf sample_chain.
Proof. apply reachable_wf, sample_chain_reachable. Qed.

Lemma get_ancestors_flattens_witness :
  ∃ rs s', get_ancestors sample_chain = Ok rs s' ∧ wf s' ∧
    same_partition sample_chain s' ∧
    Z.of_nat (length rs) = n sample_chain ∧
    (∀ i, 0 ≤ i < n sample_chain → rd rs i = root_of sample_chain i) ∧
    parent s' = rs.
Proof.
  apply (get_ancestors_flattens sample_chain). exact sample_chain_wf.
Defined.

(** The chain [3 → 2 → 0] of the sample is gone after the call. *)
Example get_ancestors_sample :
  get_ancestors sample_chain
    = Ok [0; 0; 0; 0] (mkDS [0; 0; 0; 0] [2; 0; 1; 0] [4; 1; 2; 1] 4 1).
Proof. reflexivity. Qed.

(** ** [get_unique_ancestors] lists the roots *)

Lemma set_insert_elem x l y : y ∈ set_insert x l ↔ y = x ∨ y ∈ l.
Proof.
  induction l as [|z l IH]; simpl.
  - rewrite list_elem_of_singleton. split; [by left | intros [? | H]; [done|]].
    inversion H.
  - destruct (x <? z) eqn:E1; [by rewrite elem_of_cons|].
    destruct (x =? z) eqn:E2.
    + apply Z.eqb_eq in E2 as ->. rewrite elem_of_cons. tauto.
    + rewrite !elem_of_cons, IH. tauto.
Qed.

Lemma set_insert_sorted x l :
  StronglySorted Z.lt l → StronglySorted Z.lt (set_insert x l).
Proof.
  induction 1 as [|z l Hs IH Hz]; simpl.
  - repeat constructor.
  - destruct (x <? z) eqn:E1.
    + apply Z.ltb_lt in E1. constructor; [by constructor|].
      constructor; [done|]. eapply Forall_impl; [exact Hz|]. simpl. lia.
    + destruct (x =? z) eqn:E2; [by constructor|].
      apply Z.ltb_ge in E1. apply Z.eqb_neq in E2.
      constructor; [done|]. apply Forall_forall. intros y Hy.
      apply set_insert_elem in Hy as [-> | Hy]; [lia|].
      by apply (proj1 (Forall_forall _ _) Hz).
Qed.

Lemma sorted_ext (l1 l2 : list Z) :
  StronglySorted Z.lt l1 → StronglySorted Z.lt l2 →
  (∀ x, x ∈ l1 ↔ x ∈ l2) → l1 = l2.
Proof.
  intros H1. revert l2. induction H1 as [|x l1 Hs1 IH Hx]; intros l2 H2 Hel.
  - destruct l2 as [|y l2]; [done|].
    assert (H : y ∈ @nil Z) by (apply Hel; left). inversion H.
  - destruct H2 as [|y l2 Hs2 Hy].
    { assert (H : x ∈ @nil Z) by (apply Hel; left). inversion H. }
    pose proof (proj1 (Forall_forall _ _) Hx) as Hx'.
    pose proof (proj1 (Forall_forall _ _) Hy) as Hy'.
    assert (x = y) as ->.
    { assert (Hxy : x ∈ y :: l2) by (apply Hel; left).
      assert (Hyx : y ∈ x :: l1) by (apply Hel; left).
      apply elem_of_cons in Hxy as [? | Hxy]; [done|].
      apply elem_of_cons in Hyx as [? | Hyx]; [done|].
      apply Hx' in Hyx. apply Hy' in Hxy. lia. }
    f_equal. apply IH; [done|]. intros z. split; intros Hz.
    + assert (H : z ∈ y :: l2) by (apply Hel; by right).
      apply elem_of_cons in H as [-> | H]; [|done]. apply Hx' in Hz. lia.
    + assert (H : z ∈ y :: l1) by (apply Hel; by right).
      apply elem_of_cons in H as [-> | H]; [|done]. apply Hy' in Hz. lia.
Qed.

Lemma seqZ_sorted lo len : StronglySorted Z.lt (seqZ lo len).
Proof.
  destruct (decide (0 ≤ len)) as [Hlen|Hlen];
    [|rewrite seqZ_nil by lia; constructor].
  revert lo. pattern len. apply natlike_ind; [| |exact Hlen].
  - intros lo. rewrite seqZ_nil by lia. constructor.
  - clear. intros len Hlen IH lo. rewrite seqZ_cons by lia.
    replace (Z.pred (Z.succ len)) with len by lia.
    constructor; [apply IH|]. apply Forall_forall. intros y Hy.
    apply elem_of_seqZ in Hy. lia.
Qed.

Lemma filter_sorted (P : Z → Prop) `{!∀ x, Decision (P x)} (l : list Z) :
  StronglySorted Z.lt l → StronglySorted Z.lt (filter P l).
Proof.
  induction 1 as [|x l Hs IH Hx]; [constructor|].
  rewrite filter_cons. case_decide; [|done].
  constructor; [done|]. apply Forall_forall. intros y Hy.
  apply list_elem_of_filter in Hy as [_ Hy].
  by apply (proj1 (Forall_forall _ _) Hx).
Qed.

Lemma find_unique_elems l acc s :
  wf s → (∀ i, i ∈ l → 0 ≤ i < n s) → StronglySorted Z.lt acc →
  ∃ u s', find_unique l acc s = Ok u s' ∧ wf s' ∧ same_partition s s' ∧
    StronglySorted Z.lt u ∧
    ∀ y, y ∈ u ↔ y ∈ acc ∨ ∃ i, i ∈ l ∧ root_of s i = Some y.
Proof.
  revert acc s. induction l as [|i l IH]; intros acc s Hwf Hl Hacc; simpl.
  - exists acc, s. split; [done|]. split; [done|].
    split; [apply same_partition_refl|]. split; [done|].
    intros y. split; [by left|]. intros [? | (i & Hi & _)]; [done|].
    inversion Hi.
  - assert (Hi : 0 ≤ i < n s) by (apply Hl; left).
    rewrite (to_int_index s i Hwf Hi).
    destruct (find_spec s i Hwf Hi) as (r & s1 & Hf & Hwf1 & Hs1 & Hr & _).
    destruct (IH (set_insert r acc) s1 Hwf1)
      as (u & s2 & Hfu & Hwf2 & Hs2 & Hsorted & Hel).
    { intros j Hj. rewrite (sp_n _ _ Hs1). apply Hl. by right. }
    { by apply set_insert_sorted. }
    exists u, s2. rewrite (bind_Ok _ _ _ _ _ Hf).
    split; [done|]. split; [done|].
    split; [by eapply same_partition_trans|]. split; [done|].
    intros y. rewrite Hel, set_insert_elem. split.
    + intros [[-> | ?] | (j & Hj & Hy)]; [right | by left | right].
      * exists i. split; [left | done].
      * exists j. split; [by right|]. by rewrite <- (sp_root_of _ _ Hs1 j).
    + intros [? | (j & Hj & Hy)]; [by left; right|].
      apply elem_of_cons in Hj as [-> | Hj].
      * left. left. congruence.
      * right. exists j. split; [done|]. by rewrite (sp_root_of _ _ Hs1 j).
Qed.

(** [get_unique_ancestors()] on a well-formed partition returns the
    current roots, each once and in ascending order, and leaves the
    partition as it was; the length of the list is the number that
    [get_component_number()] returns. *)
Theorem get_unique_ancestors_roots s :
  wf s →
  ∃ s', get_unique_ancestors s = Ok (roots s) s' ∧
    wf s' ∧ same_partition s s' ∧
    StronglySorted Z.lt (roots s) ∧
    (∀ r, r ∈ roots s ↔ ∃ x, 0 ≤ x < n s ∧ root_of s x = Some r) ∧
    get_component_number s' = Ok (Z.of_nat (length (roots s))) s'.
Proof.
  intros Hwf. pose proof (wf_n s Hwf) as Hn.
  pose proof (wf_forest s Hwf) as Hf. pose proof (wf_parent_len s Hwf) as Hp.
  destruct (find_unique_elems (seqZ 0 (n s)) [] s Hwf)
    as (u & s' & Hrun & Hwf' & Hs & Hsorted & Hel).
  { intros i Hi. apply elem_of_seqZ in Hi. lia. }
  { constructor. }
  assert (Hroots : ∀ r, r ∈ roots s ↔ ∃ x, 0 ≤ x < n s ∧ root_of s x = Some r).
  { intros r. rewrite elem_of_roots. split.
    - intros [Hr Hir]. exists r. split; [done | by apply root_of_root].
    - intros (x & Hx & Hr).
      pose proof (root_of_is_root s x r Hf Hp Hr) as Hir.
      split; [by apply is_root_range | done]. }
  assert (Hsr : StronglySorted Z.lt (roots s))
    by (apply filter_sorted, seqZ_sorted).
  assert (u = roots s) as ->.
  { apply sorted_ext; [done | done |]. intros y. rewrite Hel, Hroots. split.
    - intros [H | (i & Hi & Hy)]; [inversion H|].
      apply elem_of_seqZ in Hi. exists i. split; [lia | done].
    - intros (x & Hx & Hy). right. exists x. split; [|done].
      apply elem_of_seqZ. lia. }
  exists s'. unfold get_unique_ancestors. do 5 (split; [done|]).
  unfold get_component_number.
  rewrite (sp_components _ _ Hs), (wf_components s Hwf).
  rewrite to_int_small; [done|]. pose proof (roots_length_le s (proj1 Hn)). lia.
Qed.

Lemma get_unique_ancestors_roots_witness :
  ∃ s', get_unique_ancestors (mkDS [0; 0; 2] [1; 0; 0] [2; 1; 1] 3 2)
          = Ok (roots (mkDS [0; 0; 2] [1; 0; 0] [2; 1; 1] 3 2)) s' ∧
    wf s' ∧ same_partition (mkDS [0; 0; 2] [1; 0; 0] [2; 1; 1] 3 2) s' ∧
    StronglySorted Z.lt (roots (mkDS [0; 0; 2] [1; 0; 0] [2; 1; 1] 3 2)) ∧
    (∀ r, r ∈ roots (mkDS [0; 0; 2] [1; 0; 0] [2; 1; 1] 3 2) ↔
       ∃ x, 0 ≤ x < n (mkDS [0; 0; 2] [1; 0; 0] [2; 1; 1] 3 2) ∧
            root_of (mkDS [0; 0; 2] [1; 0; 0] [2; 1; 1] 3 2) x = Some r) ∧
    get_component_number s'
      = Ok (Z.of_nat (length (roots (mkDS [0; 0; 2] [1; 0; 0] [2; 1; 1] 3 2)))) s'.
Proof.
  apply (get_unique_ancestors_roots (mkDS [0; 0; 2] [1; 0; 0] [2; 1; 1] 3 2)).
  apply reachable_wf.
  apply (reach_return (singletons 3) (CUnite 0 1) (VBool true));
    [|simpl; lia|reflexivity].
  by apply (reach_new 3).
Defined.

(** On that partition the roots are [0] and [2]. *)
Example get_unique_ancestors_sample :
  get_unique_ancestors (mkDS [0; 0; 2] [1; 0; 0] [2; 1; 1] 3 2)
    = Ok [0; 2] (mkDS [0; 0; 2] [1; 0; 0] [2; 1; 1] 3 2).
Proof. reflexivity. Qed.

(** ** Every operation is a sequence of [find] and [unite] *)

Lemma moves_trans s1 s2 s3 : moves s1 s2 → moves s2 s3 → moves s1 s3.
Proof.
  induction 1 as [s | s x r s1 s2 Hx Hf _ IH | s x y b s1 s2 Hx Hy Hu _ IH];
    intros H3; [done | |].
  - exact (moves_find _ _ _ _ _ Hx Hf (IH H3)).
  - exact (moves_unite _ _ _ _ _ _ Hx Hy Hu (IH H3)).
Qed.

Lemma steps_refl s : wf s → steps s s.
Proof. intros H. split; [done|]. split; [done | constructor]. Qed.

Lemma steps_trans s1 s2 s3 : steps s1 s2 → steps s2 s3 → steps s1 s3.
Proof.
  intros (_ & Hn1 & H1) (Hwf & Hn2 & H2).
  split; [done|]. split; [congruence | by eapply moves_trans].
Qed.

Lemma steps_bind {A B} (m : M A) (k : A → M B) s :
  post (steps s) (m s) →
  (∀ a s1, m s = Ok a s1 → steps s s1 → post (steps s1) (k a s1)) →
  post (steps s) ((m ≫= k) s).
Proof.
  intros Hm Hk. unfold mbind, M_bind.
  destruct (m s) as [a s1 | msg s1 | |] eqn:E; simpl in *; try done.
  specialize (Hk a s1 eq_refl Hm).
  destruct (k a s1); simpl in *; try done; by eapply steps_trans.
Qed.

Lemma find_steps s x : wf s → 0 ≤ x < n s → post (steps s) (find x s).
Proof.
  intros Hwf Hx.
  destruct (find_spec s x Hwf Hx) as (r & s' & Hf & Hwf' & Hs & _).
  rewrite Hf. split; [done|]. split; [apply (sp_n _ _ Hs)|].
  exact (moves_find _ _ _ _ _ Hx Hf (moves_refl _)).
Qed.

Lemma unite_steps s x y :
  wf s → 0 ≤ x < n s → 0 ≤ y < n s → post (steps s) (unite x y s).
Proof.
  intros Hwf Hx Hy.
  destruct (unite_connected_aux s x y Hwf Hx Hy)
    as (b & s' & Hu & Hwf' & Hn' & _).
  rewrite Hu. split; [done|]. split; [done|].
  exact (moves_unite _ _ _ _ _ _ Hx Hy Hu (moves_refl _)).
Qed.

Lemma steps_ret {A} (a : A) s : wf s → post (steps s) ((mret a : M A) s).
Proof. intros H. by apply steps_refl. Qed.

Lemma steps_then_ret {A B} (m : M A) (f : A → B) s :
  post (steps s) (m s) → post (steps s) ((a ← m; (mret (f a) : M B)) s).
Proof.
  intros H. apply steps_bind; [done|].
  intros a s1 _ [Hwf _]. by apply steps_ret.
Qed.

Lemma lift_opt_steps {A} (o : option A) s : wf s → post (steps s) (lift_opt o s).
Proof. intros H. destruct o; simpl; [by apply steps_refl | done]. Qed.

Lemma for_each_steps {A} (l : list A) (body : A → M unit) s :
  (∀ a s1, a ∈ l → wf s1 → n s1 = n s → post (steps s1) (body a s1)) →
  wf s → post (steps s) (for_each l body s).
Proof.
  revert s. induction l as [|a l IH]; intros s Hbody Hwf; simpl.
  - by apply steps_refl.
  - apply steps_bind.
    + apply Hbody; [left | done | done].
    + intros [] s1 _ (Hwf1 & Hn1 & _). apply IH; [|done].
      intros a' s2 Ha' Hwf2 Hn2. apply Hbody; [by right | done | congruence].
Qed.

Lemma find_all_steps l s :
  (∀ i, i ∈ l → 0 ≤ Int.to_int i < n s) → wf s →
  post (steps s) (find_all l s).
Proof.
  revert s. induction l as [|i l IH]; intros s Hl Hwf; simpl.
  - by apply steps_refl.
  - apply steps_bind; [apply find_steps; [done | apply Hl; left]|].
    intros r s1 _ (Hwf1 & Hn1 & _). apply steps_then_ret.
    apply IH; [|done]. intros j Hj. rewrite Hn1. apply Hl. by right.
Qed.

Lemma find_unique_steps l acc s :
  (∀ i, i ∈ l → 0 ≤ Int.to_int i < n s) → wf s →
  post (steps s) (find_unique l acc s).
Proof.
  revert acc s. induction l as [|i l IH]; intros acc s Hl Hwf; simpl.
  - by apply steps_refl.
  - apply steps_bind; [apply find_steps; [done | apply Hl; left]|].
    intros r s1 _ (Hwf1 & Hn1 & _).
    apply IH; [|done]. intros j Hj. rewrite Hn1. apply Hl. by right.
Qed.

Lemma add_edges_steps a b_array b_array_size s :
  wf s → 0 ≤ a < n s → (∀ b, b ∈ data b_array → 0 ≤ b < n s) →
  post (steps s) (add_edges a b_array b_array_size s).
Proof.
  intros Hwf Ha Hb. unfold add_edges.
  destruct (negb (ndim b_array =? 1)); [by apply steps_refl|].
  apply steps_bind; [by apply lift_opt_steps|].
  intros d0 s1 Hd0 (Hwf1 & Hn1 & _).
  assert (s1 = s) as ->.
  { unfold lift_opt in Hd0. destruct (shape b_array !! 0%nat); congruence. }
  destruct (negb (d0 =? b_array_size)); [by apply steps_refl|].
  apply for_each_steps; [|done].
  intros i s2 _ Hwf2 Hn2.
  apply steps_bind; [by apply lift_opt_steps|].
  intros b s3 Hb3 (Hwf3 & Hn3 & _).
  assert (s3 = s2 ∧ b ∈ data b_array) as [-> Hin].
  { unfold lift_opt in Hb3.
    destruct (data b_array !! Z.to_nat i) eqn:E; [|done].
    injection Hb3 as -> ->. split; [done|]. by eapply list_elem_of_lookup_2. }
  apply steps_then_ret.
  rewrite (to_int_index s a), (to_int_index s b) by auto.
  apply unite_steps; [done | lia | rewrite Hn2; auto].
Qed.

Lemma run_call_steps s c :
  wf s → in_range s c → post (steps s) (run_call c s).
Proof.
  intros Hwf Hc. destruct c; simpl in Hc; unfold run_call.
  - apply steps_then_ret. by apply find_steps.
  - apply steps_then_ret. destruct Hc. by apply unite_steps.
  - apply steps_then_ret. unfold get_component_rank.
    apply steps_bind; [by apply find_steps|].
    intros r s1 _ [Hwf1 _]. by apply lift_opt_steps.
  - apply steps_then_ret. unfold get_component_size.
    apply steps_bind; [by apply find_steps|].
    intros r s1 _ [Hwf1 _]. by apply lift_opt_steps.
  - apply steps_then_ret. by apply steps_refl.
  - apply steps_then_ret. unfold get_ancestors.
    apply find_all_steps; [|done]. intros i. by apply indices_to_int.
  - apply steps_then_ret. unfold get_unique_ancestors.
    apply find_unique_steps; [|done]. intros i. by apply indices_to_int.
  - destruct Hc. apply steps_bind; [by apply add_edges_steps|].
    intros [] s1 _ [Hwf1 _]. by apply steps_ret.
Qed.

Lemma build_edges_steps t acc rows cols s :
  wf s → n s = rows →
  post (steps s) (build_edges t acc rows cols s).
Proof.
  intros Hwf Hn. unfold build_edges.
  apply for_each_steps; [|done]. intros i s1 Hi Hwf1 Hn1.
  apply for_each_steps; [|done]. intros j s2 Hj Hwf2 Hn2.
  apply elem_of_seqZ in Hi. apply elem_of_seqZ in Hj.
  unfold pair_body. apply steps_bind; [by apply lift_opt_steps|].
  intros d s3 Hd (Hwf3 & Hn3 & _).
  assert (s3 = s2) as ->.
  { unfold lift_opt in Hd. destruct (acc _ _ _ _); congruence. }
  destruct (F32.le _ _); [|by apply steps_ret].
  apply steps_then_ret.
  rewrite (to_int_index s2 i), (to_int_index s2 j) by (try done; lia).
  apply unite_steps; [done | lia | lia].
Qed.

Lemma construct_steps body s0 s :
  post (steps s0) (body s0) → construct body s0 = Ok s tt → steps s0 s.
Proof.
  unfold construct. intros H Hc.
  destruct (body s0) as [[] s1 | | |]; try done.
  injection Hc as <-. apply H.
Qed.

Lemma reachable_steps s : reachable s → steps (singletons (n s)) s.
Proof.
  induction 1 as [n0 s Hn0 Hnew | array t s Hrows Hnew
                 | array rows cols t s Hrows Hnew
                 | s c v s' Hreach IH Hc Hrun | s c msg s' Hreach IH Hc Hrun].
  - unfold Int.in_int in Hn0.
    apply andb_true_iff in Hn0 as [_ Hmax]. apply Z.leb_le in Hmax.
    destruct (decide (n0 < 0)) as [Hneg|Hpos].
    + unfold new in Hnew. by rewrite (proj2 (Z.ltb_lt _ _) Hneg) in Hnew.
    + rewrite new_singletons in Hnew by lia.
      injection Hnew as <-. apply steps_refl, singletons_wf. lia.
  - unfold new_spatial, new_spatial_with in Hnew.
    destruct (negb (ndim array =? 2)); [done|].
    destruct (shape array !! 0%nat) as [d0|] eqn:E0; [|done].
    destruct (shape array !! 1%nat) as [d1|]; [|done].
    specialize (Hrows d0 eq_refl).
    assert (0 ≤ Int.to_uint32 d0) by (apply Z.mod_pos_bound; done).
    rewrite init_rows_singletons in Hnew by lia.
    eapply construct_steps in Hnew.
    + destruct Hnew as (? & Hn & ?). by rewrite Hn.
    + apply build_edges_steps; [apply singletons_wf; lia | done].
  - unfold new_spatial_checked, new_spatial_checked_with in Hnew.
    destruct (negb (ndim array =? 2)); [done|].
    destruct (shape array !! 0%nat) as [d0|] eqn:E0; [|done].
    destruct (shape array !! 1%nat) as [d1|]; [|done].
    destruct (negb (d0 =? rows) || negb (d1 =? cols)); [done|].
    rewrite init_rows_singletons in Hnew by lia.
    eapply construct_steps in Hnew.
    + destruct Hnew as (? & Hn & ?). by rewrite Hn.
    + apply build_edges_steps; [apply singletons_wf; lia | done].
  - pose proof (run_call_steps s c (reachable_wf s Hreach) Hc) as H.
    rewrite Hrun in H. simpl in H. destruct H as (Hwf' & Hn' & Hm).
    rewrite Hn'. eapply steps_trans; [exact IH | done].
  - pose proof (run_call_steps s c (reachable_wf s Hreach) Hc) as H.
    rewrite Hrun in H. simpl in H. destruct H as (Hwf' & Hn' & Hm).
    rewrite Hn'. eapply steps_trans; [exact IH | done].
Qed.

(** Whatever a caller does, with constructors, queries, [add_edges] and
    the listing functions, the partition it holds is one that calls of
    [find] and [unite] with indices in range produce from the [n]
    singletons: no operation changes the arrays in another way. *)
Theorem reachable_by_find_unite s :
  reachable s →
  0 ≤ n s ≤ Int.INT_MAX ∧ moves (singletons (n s)) s.
Proof.
  intros H. destruct (reachable_steps s H) as (Hwf & _ & Hm).
  split; [apply (wf_n s Hwf) | done].
Qed.

Lemma reachable_by_find_unite_witness :
  0 ≤ n sample_chain ≤ Int.INT_MAX ∧
  moves (singletons (n sample_chain)) sample_chain.
Proof.
  apply (reachable_by_find_unite sample_chain). exact sample_chain_reachable.
Defined.

(** ** Union by rank: a root of rank [k] has at least [2^k] elements *)

Lemma rank_of_rd s x k : rd (rank s) x = Some k → rank_of s x = k.
Proof. intros H. unfold rank_of. by rewrite H. Qed.

Lemma size_of_rd s x z : rd (size s) x = Some z → size_of s x = z.
Proof. intros H. unfold size_of. by rewrite H. Qed.

Lemma ranked_singletons m : ranked (singletons m).
Proof.
  assert (Hrank : ∀ x, rank_of (singletons m) x = 0).
  { intros x. unfold rank_of. simpl.
    destruct (decide (0 ≤ x < m)) as [Hx|Hx].
    - by rewrite rd_replicate.
    - rewrite rd_None; [done|]. rewrite length_replicate. lia. }
  constructor.
  - intros x. rewrite Hrank. lia.
  - intros x y Hx Hne. simpl in Hx.
    pose proof (rd_Some_bounds _ _ _ Hx) as Hb. rewrite length_seqZ in Hb.
    rewrite rd_seqZ in Hx by lia. congruence.
  - intros r Hr. apply singletons_is_root in Hr. rewrite Hrank.
    unfold size_of. simpl. rewrite rd_replicate by done. simpl. lia.
Qed.

(** Along a path the rank grows by at least one at each step. *)
Lemma rpath_rank s x l r :
  ranked s → rpath (parent s) x l r →
  rank_of s x + Z.of_nat (length l) ≤ rank_of s r + 1.
Proof.
  intros Hr. induction 1 as [x Hx | x y l r Hx Hne H IH]; simpl length.
  - lia.
  - pose proof (rk_parent s Hr x y Hx Hne). lia.
Qed.

Lemma ranked_compress s x l r :
  ranked s → rpath (parent s) x l r →
  ranked (set_parent (compress (parent s) l r) s).
Proof.
  intros Hr H. constructor.
  - intros v. apply (rk_nonneg s Hr).
  - intros v y Hv Hne. simpl in Hv.
    rewrite rd_compress in Hv
      by (intros z Hz; exact (rpath_bounds _ _ _ _ _ H Hz)).
    change (rank_of s v < rank_of s y).
    case_decide as Hin; [|by apply (rk_parent s Hr)].
    injection Hv as <-.
    destruct (rpath_suffix _ _ _ _ _ H Hin) as (l' & H' & _).
    pose proof (rpath_rank s v l' r Hr H') as Hlen.
    destruct H' as [v Hv | v y l' r Hv Hy H']; [done|].
    pose proof (rpath_start _ _ _ _ H') as Hs.
    destruct l' as [|w l']; [inversion Hs|]. simpl length in Hlen. lia.
  - intros r0 Hr0.
    apply (compress_is_root s x l r H) in Hr0.
    by apply (rk_size s Hr).
Qed.

Lemma ranked_merged s a b ka kb za zb zsum rk' :
  ranked s → is_root s a → is_root s b → a ≠ b →
  rd (rank s) a = Some ka → rd (rank s) b = Some kb →
  rd (size s) a = Some za → rd (size s) b = Some zb → zsum = za + zb →
  (rk' = rank s ∧ ka < kb ∨ rk' = upd (rank s) b (kb + 1) ∧ ka = kb) →
  ranked (merged s a b zsum rk').
Proof.
  intros Hr Ha Hb Hab Hka Hkb Hza Hzb -> Hrk.
  pose proof (rd_Some_bounds _ _ _ Ha) as Hba.
  pose proof (rd_Some_bounds _ _ _ Hkb) as Hbb.
  pose proof (rd_Some_bounds _ _ _ Hzb) as Hbz.
  pose proof (rk_nonneg s Hr a) as Hka0. rewrite (rank_of_rd _ _ _ Hka) in Hka0.
  pose proof (rk_nonneg s Hr b) as Hkb0. rewrite (rank_of_rd _ _ _ Hkb) in Hkb0.
  pose proof (rk_size s Hr a Ha) as Hsa.
  rewrite (rank_of_rd _ _ _ Hka), (size_of_rd _ _ _ Hza) in Hsa.
  pose proof (rk_size s Hr b Hb) as Hsb.
  rewrite (rank_of_rd _ _ _ Hkb), (size_of_rd _ _ _ Hzb) in Hsb.
  assert (Hpa : 0 < 2 ^ ka) by (apply Z.pow_pos_nonneg; lia).
  set (s' := merged s a b (za + zb) rk').
  assert (Hother : ∀ x, x ≠ b → rank_of s' x = rank_of s x).
  { intros x Hx. unfold rank_of. simpl.
    destruct Hrk as [[-> _] | [-> _]]; [done|].
    by rewrite rd_upd_ne by (try lia; congruence). }
  assert (Hnew : kb ≤ rank_of s' b ∧ ka < rank_of s' b ∧
                 2 ^ rank_of s' b ≤ za + zb).
  { unfold rank_of. simpl. destruct Hrk as [[-> ?] | [-> ?]].
    - rewrite Hkb. simpl. lia.
    - rewrite rd_upd_eq by done. simpl. subst ka.
      rewrite Z.pow_add_r, Z.pow_1_r by lia. lia. }
  assert (Hmono : ∀ x, rank_of s x ≤ rank_of s' x).
  { intros x. destruct (decide (x = b)) as [->|Hx].
    - rewrite (rank_of_rd _ _ _ Hkb). lia.
    - rewrite Hother by done. lia. }
  constructor.
  - intros x. pose proof (rk_nonneg s Hr x). pose proof (Hmono x). lia.
  - intros x y Hx Hne. simpl in Hx. rewrite rd_upd in Hx by done.
    case_decide as E.
    + subst x. injection Hx as <-. rewrite Hother by done.
      rewrite (rank_of_rd _ _ _ Hka). lia.
    + assert (x ≠ b) by (intros ->; unfold is_root in Hb; congruence).
      rewrite Hother by done.
      pose proof (rk_parent s Hr x y Hx Hne). pose proof (Hmono y). lia.
  - intros r Hroot. unfold is_root in Hroot. simpl in Hroot.
    rewrite rd_upd in Hroot by done. case_decide as E; [congruence|].
    destruct (decide (r = b)) as [->|Hrb].
    + unfold size_of at 1. simpl. rewrite rd_upd_eq by done. simpl. lia.
    + rewrite Hother by done. unfold size_of. simpl.
      rewrite rd_upd_ne by (try lia; congruence).
      by apply (rk_size s Hr).
Qed.

Lemma ranked_link_state s rx ry kx ky zx zy :
  ranked s → is_root s rx → is_root s ry → rx ≠ ry →
  rd (rank s) rx = Some kx → rd (rank s) ry = Some ky →
  rd (size s) rx = Some zx → rd (size s) ry = Some zy →
  ranked (link_state s rx ry kx ky zx zy).
Proof.
  intros Hr Hrx Hry Hne Hkx Hky Hzx Hzy. unfold link_state.
  destruct (kx <? ky) eqn:E1; [|destruct (kx >? ky) eqn:E2].
  - apply (ranked_merged s rx ry kx ky zx zy); try done; [lia|].
    left. split; [done | lia].
  - apply (ranked_merged s ry rx ky kx zy zx); try done; [lia|].
    left. split; [done | lia].
  - assert (kx = ky) as <- by lia.
    apply (ranked_merged s ry rx kx kx zy zx); try done; [lia|]. by right.
Qed.

Lemma find_ranked s x r s1 :
  wf s → ranked s → 0 ≤ x < n s → find x s = Ok r s1 → ranked s1.
Proof.
  intros Hwf Hr Hx Hf.
  destruct (find_wf s x Hwf Hx) as (l & r' & H & Hfind & _).
  rewrite Hfind in Hf. injection Hf as _ <-.
  by apply (ranked_compress s x l r').
Qed.

Lemma unite_ranked s x y b s' :
  wf s → ranked s → 0 ≤ x < n s → 0 ≤ y < n s →
  unite x y s = Ok b s' → ranked s'.
Proof.
  intros Hwf Hr Hx Hy Hu.
  destruct (find_spec s x Hwf Hx) as (rx & s1 & Hf1 & Hwf1 & Hs1 & _ & Hirx).
  pose proof (find_ranked s x rx s1 Hwf Hr Hx Hf1) as Hr1.
  assert (Hy1 : 0 ≤ y < n s1) by (by rewrite (sp_n _ _ Hs1)).
  destruct (find_spec s1 y Hwf1 Hy1) as (ry & s2 & Hf2 & Hwf2 & Hs2 & _ & Hiry).
  pose proof (find_ranked s1 y ry s2 Hwf1 Hr1 Hy1 Hf2) as Hr2.
  rewrite unite_unfold in Hu.
  rewrite (bind_Ok _ _ _ _ _ Hf1), (bind_Ok _ _ _ _ _ Hf2) in Hu.
  destruct (decide (rx = ry)) as [E|E].
  - unfold link in Hu. rewrite (proj2 (Z.eqb_eq rx ry) E) in Hu.
    injection Hu as _ <-. done.
  - assert (Hirx2 : is_root s2 rx).
    { apply (sp_is_root _ _ Hs2 rx). by apply (sp_is_root _ _ Hs1 rx). }
    assert (Hiry2 : is_root s2 ry) by (by apply (sp_is_root _ _ Hs2 ry)).
    destruct (link_spec s2 rx ry Hwf2 Hirx2 Hiry2 E)
      as (kx & ky & zx & zy & Hkx & Hky & Hzx & Hzy & Hlink & _).
    rewrite Hlink in Hu. injection Hu as _ <-.
    by apply ranked_link_state.
Qed.

Lemma moves_ranked s s' : moves s s' → wf s → ranked s → wf s' ∧ ranked s'.
Proof.
  induction 1 as [s | s x r s1 s2 Hx Hf _ IH | s x y b s1 s2 Hx Hy Hu _ IH];
    intros Hwf Hr; [done | |].
  - apply IH; [|exact (find_ranked s x r s1 Hwf Hr Hx Hf)].
    destruct (find_spec s x Hwf Hx) as (r' & s1' & Hf' & Hwf' & _).
    congruence.
  - apply IH; [|exact (unite_ranked s x y b s1 Hwf Hr Hx Hy Hu)].
    destruct (unite_connected_aux s x y Hwf Hx Hy) as (b' & s1' & Hu' & Hwf' & _).
    congruence.
Qed.

Lemma reachable_ranked s : reachable s → ranked s.
Proof.
  intros H. destruct (reachable_steps s H) as (Hwf & _ & Hm).
  apply (moves_ranked _ _ Hm); [|apply ranked_singletons].
  apply singletons_wf, (wf_n s Hwf).
Qed.

(** The rank and the size that the two queries return for an element of
    a reachable partition: the rank [k] is not negative and the class has
    at least [2^k] elements, so [k] is at most the binary logarithm of
    [n]. *)
Theorem rank_bounds_size s x :
  reachable s → 0 ≤ x < n s →
  ∃ k z s1 s2,
    get_component_rank x s = Ok k s1 ∧ get_component_size x s = Ok z s2 ∧
    0 ≤ k ∧ 2 ^ k ≤ z ∧ z ≤ n s ∧ k ≤ Z.log2 (n s).
Proof.
  intros Hreach Hx.
  pose proof (reachable_wf s Hreach) as Hwf.
  pose proof (reachable_ranked s Hreach) as Hr.
  destruct (get_component_rank_spec s x Hwf Hx)
    as (r & k & s1 & Hrank & _ & _ & Hroot & Hk).
  destruct (get_component_size_spec s x Hwf Hx)
    as (r' & s2 & Hsize & _ & _ & Hroot').
  assert (r' = r) as -> by congruence.
  pose proof (root_of_is_root s x r (wf_forest s Hwf) (wf_parent_len s Hwf) Hroot)
    as Hir.
  pose proof (rk_nonneg s Hr r) as H0. pose proof (rk_size s Hr r Hir) as H2.
  rewrite (rank_of_rd _ _ _ Hk) in H0, H2.
  rewrite (size_of_rd _ _ _ (wf_size s Hwf r Hir)) in H2.
  pose proof (members_length_le s r (proj1 (wf_n s Hwf))) as Hle.
  exists k, (Z.of_nat (length (members s r))), s1, s2.
  do 5 (split; [done|]).
  rewrite <- (Z.log2_pow2 k) by done. apply Z.log2_le_mono. lia.
Qed.

Lemma rank_bounds_size_witness :
  ∃ k z s1 s2,
    get_component_rank 3 sample_chain = Ok k s1 ∧
    get_component_size 3 sample_chain = Ok z s2 ∧
    0 ≤ k ∧ 2 ^ k ≤ z ∧ z ≤ n sample_chain ∧ k ≤ Z.log2 (n sample_chain).
Proof.
  apply (rank_bounds_size sample_chain 3).
  - exact sample_chain_reachable.
  - simpl. lia.
Defined.

(** On a reachable partition the recursion of [find] is at most
    [log2 n + 1] calls deep: [find_fuel k] is [find] with the depth of the
    recursion limited to [k], and with any limit from [log2 n + 1] on it
    returns what [find] returns. *)
Theorem find_depth_logarithmic s x fuel :
  reachable s → 0 ≤ x < n s →
  Z.log2 (n s) + 1 ≤ Z.of_nat fuel →
  find_fuel fuel x s = find x s ∧ ∃ r s', find x s = Ok r s'.
Proof.
  intros Hreach Hx Hfuel.
  pose proof (reachable_wf s Hreach) as Hwf.
  pose proof (reachable_ranked s Hreach) as Hr.
  destruct (wf_forest s Hwf x Hx) as (l & r & H).
  pose proof (rpath_is_root _ _ _ _ H) as Hir.
  pose proof (rpath_rank s x l r Hr H) as Hlen.
  pose proof (rk_nonneg s Hr x) as H0. pose proof (rk_nonneg s Hr r) as H0r.
  pose proof (rk_size s Hr r Hir) as H2.
  rewrite (size_of_rd _ _ _ (wf_size s Hwf r Hir)) in H2.
  pose proof (members_length_le s r (proj1 (wf_n s Hwf))) as Hle.
  assert (Hlog : rank_of s r ≤ Z.log2 (n s)).
  { rewrite <- (Z.log2_pow2 (rank_of s r)) by done. apply Z.log2_le_mono. lia. }
  rewrite (find_rpath s x l r H). split; [|by eauto].
  apply find_fuel_rpath; [done | lia].
Qed.

Lemma find_depth_logarithmic_witness :
  find_fuel 3 3 sample_chain = find 3 sample_chain ∧
  ∃ r s', find 3 sample_chain = Ok r s'.
Proof.
  apply (find_depth_logarithmic sample_chain 3 3).
  - exact sample_chain_reachable.
  - simpl. lia.
  - simpl. lia.
Defined.

(** The bound is reached: on the sample the chain [3 → 2 → 0] needs the
    three levels, and two are not enough. *)
Example find_depth_sample :
  find_fuel 2 3 sample_chain = OutOfFuel ∧
  find_fuel 3 3 sample_chain
    = Ok 0 (mkDS [0; 0; 0; 0] [2; 0; 1; 0] [4; 1; 2; 1] 4 1).
Proof. split; reflexivity. Qed.

(** ** [find] on any memory *)

Lemma find_fuel_inv fuel x s r s' :
  find_fuel fuel x s = Ok r s' →
  ∃ l, rpath (parent s) x l r ∧ s' = set_parent (compress (parent s) l r) s.
Proof.
  revert x s r s'. induction fuel as [|k IH]; intros x s r s' H; [done|].
  simpl in H.
  apply bind_inv_Ok in H as (px & s1 & H1 & H).
  apply bind_inv_Ok in H as ([] & s2 & H2 & H3).
  unfold load_parent, lift_opt in H1.
  destruct (rd (parent s) x) as [y|] eqn:Hpx; [|done].
  injection H1 as <- <-.
  destruct (negb (y =? x)) eqn:E.
  - apply negb_true_iff, Z.eqb_neq in E.
    apply bind_inv_Ok in H2 as (r' & s3 & H2 & H4).
    apply IH in H2 as (l & Hpath & ->).
    unfold store_parent in H4. simpl in H4.
    destruct (wr (compress (parent s) l r') x r') as [q|] eqn:Hwr; [|done].
    injection H4 as <-.
    unfold wr in Hwr. destruct (in_bounds _ x) eqn:Hb; [|done].
    injection Hwr as <-. apply in_bounds_iff in Hb.
    unfold load_parent, lift_opt in H3. simpl in H3.
    change (<[Z.to_nat x:=r']> (compress (parent s) l r'))
      with (upd (compress (parent s) l r') x r') in H3.
    rewrite rd_upd_eq in H3 by done. injection H3 as <- <-.
    exists (x :: l). split; [by econstructor | done].
  - apply negb_false_iff, Z.eqb_eq in E. subst y.
    injection H2 as <-.
    unfold load_parent, lift_opt in H3. rewrite Hpx in H3.
    injection H3 as <- <-.
    exists [x]. split; [by constructor|]. simpl.
    by rewrite (upd_id _ _ _ Hpx), set_parent_id.
Qed.

Lemma epath_bounds p x l y :
  epath p x l → y ∈ l → 0 ≤ y < Z.of_nat (length p).
Proof.
  induction 1 as [x Hx | x z l Hx Hne H IH]; intros Hy; [inversion Hy|].
  apply elem_of_cons in Hy as [-> | Hy]; [by eapply rd_Some_bounds | auto].
Qed.

Lemma epath_fun p x l l' : epath p x l → epath p x l' → l = l'.
Proof.
  intros H. revert l'. induction H as [x Hx | x y l Hx Hne H IH];
    intros l' H'; inversion H'; subst; try congruence.
  assert (y0 = y) by congruence. subst. f_equal. by apply IH.
Qed.

Lemma epath_suffix p x l y :
  epath p x l → y ∈ l → ∃ l', epath p y l' ∧ (length l' ≤ length l)%nat.
Proof.
  induction 1 as [x Hx | x z l Hx Hne H IH]; intros Hy; [inversion Hy|].
  apply elem_of_cons in Hy as [-> | Hy].
  - exists (x :: l). split; [by econstructor | done].
  - destruct (IH Hy) as (l' & H' & Hlen). exists l'. split; [done | simpl; lia].
Qed.

Lemma epath_NoDup p x l : epath p x l → NoDup l.
Proof.
  induction 1 as [x Hx | x z l Hx Hne H IH]; [constructor|].
  constructor; [|done]. intros Hin.
  destruct (epath_suffix _ _ _ _ H Hin) as (l' & H' & Hlen).
  assert (Hfull : epath p x (x :: l)) by (by econstructor).
  rewrite (epath_fun _ _ _ _ H' Hfull) in Hlen. simpl in Hlen. lia.
Qed.

Lemma epath_length p x l : epath p x l → (length l ≤ length p)%nat.
Proof.
  intros H.
  assert (Hnd : NoDup (Z.to_nat <$> l)).
  { apply NoDup_fmap_2_strong; [|by eapply epath_NoDup].
    intros a b Ha Hb Hab.
    pose proof (epath_bounds _ _ _ _ H Ha).
    pose proof (epath_bounds _ _ _ _ H Hb). lia. }
  assert (Hsub : Z.to_nat <$> l ⊆ seq 0 (length p)).
  { intros k Hk. apply list_elem_of_fmap in Hk as (y & -> & Hy).
    pose proof (epath_bounds _ _ _ _ H Hy).
    apply elem_of_seq. lia. }
  pose proof (submseteq_length _ _ (NoDup_submseteq _ _ Hnd Hsub)) as Hlen.
  rewrite length_fmap, length_seq in Hlen. done.
Qed.

Lemma find_fuel_epath s x l fuel :
  epath (parent s) x l → (length l < fuel)%nat →
  find_fuel fuel x s = Undefined.
Proof.
  intros H. revert fuel.
  induction H as [x Hx | x y l Hx Hne H IH]; intros fuel Hfuel;
    (destruct fuel as [|k]; [simpl in Hfuel; lia|]); simpl.
  - apply bind_Undefined. unfold load_parent, lift_opt. by rewrite Hx.
  - rewrite (bind_Ok _ _ _ _ _ (load_parent_Ok _ _ _ Hx)).
    rewrite (proj2 (Z.eqb_neq y x) Hne). simpl.
    apply bind_Undefined, bind_Undefined. apply IH. simpl in Hfuel. lia.
Qed.

Lemma find_fuel_Undefined_inv fuel x s :
  find_fuel fuel x s = Undefined → ∃ l, epath (parent s) x l.
Proof.
  revert x s. induction fuel as [|k IH]; intros x s H; [done|].
  simpl in H. unfold mbind at 1, M_bind at 1, load_parent at 1, lift_opt in H.
  destruct (rd (parent s) x) as [y|] eqn:Hpx;
    [|exists []; by constructor].
  destruct (negb (y =? x)) eqn:E.
  - apply negb_true_iff, Z.eqb_neq in E.
    unfold mbind at 1 2, M_bind at 1 2 in H.
    destruct (find_fuel k y s) as [r s1 | msg s1 | |] eqn:Hf; try done.
    + exfalso. apply find_fuel_inv in Hf as (l & Hpath & ->).
      pose proof (rd_Some_bounds _ _ _ Hpx) as Hb.
      rewrite store_parent_Ok in H by (simpl; by rewrite length_compress).
      unfold load_parent, lift_opt in H. simpl in H.
      rewrite rd_upd_eq in H by (by rewrite length_compress). done.
    + destruct (IH y s Hf) as (l & Hl). exists (x :: l). by econstructor.
  - unfold mbind, M_bind, mret, M_ret, load_parent, lift_opt in H.
    by rewrite Hpx in H.
Qed.

(** [find(x)] on any contents of the arrays, well-formed or not.  Every
    access of the call is inside the array and the call returns [r]
    exactly when following [parent] from [x] stays inside the array and
    ends at an element [r] that is its own parent; the state it leaves is
    the old one with every element of that path pointing at [r], and
    nothing else changed.  The call reads [parent] outside the array, which
    is undefined behaviour, exactly when following [parent] from [x] comes
    to an index outside the array; nothing is then said about what a
    compiled program returns.  The program itself never throws; in the
    remaining case [parent] has a cycle and the recursion does not end. *)
Theorem find_outcomes s x :
  (∀ r s', find x s = Ok r s' ↔
     ∃ l, rpath (parent s) x l r ∧
          s' = set_parent (compress (parent s) l r) s) ∧
  (find x s = Undefined ↔ ∃ l, epath (parent s) x l) ∧
  (∀ msg s1, find x s ≠ Throw msg s1) ∧
  (find x s = OutOfFuel ↔
     (¬ ∃ l r, rpath (parent s) x l r) ∧ (¬ ∃ l, epath (parent s) x l)).
Proof.
  assert (Hok : ∀ r s', find x s = Ok r s' ↔
     ∃ l, rpath (parent s) x l r ∧
          s' = set_parent (compress (parent s) l r) s).
  { intros r s'. split; [apply find_fuel_inv|].
    intros (l & H & ->). by apply find_rpath. }
  assert (Hun : find x s = Undefined ↔ ∃ l, epath (parent s) x l).
  { split; [apply find_fuel_Undefined_inv|].
    intros (l & H). apply (find_fuel_epath s x l); [done|].
    pose proof (epath_length _ _ _ H). lia. }
  assert (Hth : ∀ msg s1, find x s ≠ Throw msg s1)
    by (intros msg s1; apply find_fuel_no_throw).
  do 3 (split; [done|]). split.
  - intros Hout. split.
    + intros (l & r & H). rewrite (find_rpath s x l r H) in Hout. done.
    + intros Hl. apply Hun in Hl. congruence.
  - intros [Hno1 Hno2].
    destruct (find x s) as [r s' | msg s' | |] eqn:E; [| |  |done].
    + exfalso. apply Hno1.
      destruct (proj1 (Hok r s') eq_refl) as (l & H & _). eauto.
    + exfalso. by apply (Hth msg s').
    + exfalso. apply Hno2. by apply Hun.
Qed.

(** An index past the end, and a parent that points past the end: the
    read is outside the array in both cases. *)
Example find_leaves_array :
  find 3 (singletons 3) = Undefined ∧
  find 0 (mkDS [1; 7] [0; 0] [1; 1] 2 2) = Undefined.
Proof. split; reflexivity. Qed.

(** A cycle in [parent] is not a path to a root: the recursion does not
    end. *)
Example find_on_cycle : find 0 (mkDS [1; 0] [0; 0] [1; 1] 2 2) = OutOfFuel.
Proof. reflexivity. Qed.

(** ** What the size and the constructor say about the classes *)

Lemma component_members s x r :
  root_of s x = Some r → component s x = members s r.
Proof.
  intros Hr. unfold component, members. apply filter_ext_elem.
  intros z _. unfold connected. rewrite Hr. split.
  - intros [_ H]. done.
  - intros H. split; [by exists r | done].
Qed.

Lemma component_connected s x y :
  connected s x y → component s y = component s x.
Proof.
  intros H. apply connected_iff in H as (r & Hx & Hy).
  by rewrite (component_members s x r), (component_members s y r).
Qed.

(** [get_component_size(x)] on a well-formed partition returns the number
    of elements that have the root of [x], [x] among them: at least [1],
    at most [n], and the same number for every element of the class. *)
Theorem get_component_size_counts s x :
  wf s → 0 ≤ x < n s →
  ∃ s', get_component_size x s = Ok (Z.of_nat (length (component s x))) s' ∧
    wf s' ∧ same_partition s s' ∧
    x ∈ component s x ∧
    1 ≤ Z.of_nat (length (component s x)) ≤ n s ∧
    ∀ y, connected s x y →
      ∃ s'', get_component_size y s = Ok (Z.of_nat (length (component s x))) s''.
Proof.
  intros Hwf Hx.
  destruct (get_component_size_spec s x Hwf Hx) as (r & s' & Hrun & Hwf' & Hs & Hr).
  rewrite <- (component_members s x r Hr) in Hrun.
  assert (Hin : x ∈ component s x).
  { unfold component. apply list_elem_of_filter.
    split; [by apply connected_refl | by apply elem_of_indices]. }
  exists s'. do 4 (split; [done|]). split.
  - split.
    + destruct (component s x); [inversion Hin | simpl; lia].
    + rewrite (component_members s x r Hr).
      apply members_length_le, (wf_n s Hwf).
  - intros y Hy. destruct (connected_range s x y Hwf Hy) as [_ Hyr].
    destruct (get_component_size_spec s y Hwf Hyr) as (ry & s'' & Hrun' & _ & _ & Hry).
    exists s''. rewrite <- (component_members s y ry Hry) in Hrun'.
    by rewrite <- (component_connected s x y Hy).
Qed.

Lemma get_component_size_counts_witness :
  ∃ s', get_component_size 3 sample_chain
          = Ok (Z.of_nat (length (component sample_chain 3))) s' ∧
    wf s' ∧ same_partition sample_chain s' ∧
    3 ∈ component sample_chain 3 ∧
    1 ≤ Z.of_nat (length (component sample_chain 3)) ≤ n sample_chain ∧
    ∀ y, connected sample_chain 3 y →
      ∃ s'', get_component_size y sample_chain
               = Ok (Z.of_nat (length (component sample_chain 3))) s''.
Proof.
  apply (get_component_size_counts sample_chain 3).
  - exact sample_chain_wf.
  - simpl. lia.
Defined.

(** [DisjointSet(n)] with [0 <= n] returns the partition of [n] classes
    of one element each: no two distinct elements are connected, every
    class has size [1] and rank [0]. *)
Theorem new_is_discrete n0 :
  0 ≤ n0 ≤ Int.INT_MAX →
  ∃ s, new n0 = Ok s tt ∧ wf s ∧ n s = n0 ∧
    get_component_number s = Ok n0 s ∧
    (∀ a b, connected s a b ↔ 0 ≤ a < n0 ∧ a = b) ∧
    ∀ x, 0 ≤ x < n0 →
      get_component_size x s = Ok 1 s ∧ get_component_rank x s = Ok 0 s.
Proof.
  intros Hn. exists (singletons n0).
  pose proof (singletons_wf n0 Hn) as Hwf.
  split; [by apply new_singletons|]. split; [done|]. split; [done|].
  split; [|split].
  - unfold get_component_number. simpl. by rewrite to_int_small.
  - intros a b. by apply singletons_connected.
  - intros x Hx.
    assert (Hf : find x (singletons n0) = Ok x (singletons n0)).
    { rewrite (find_rpath (singletons n0) x [x] x).
      - simpl. rewrite (upd_id _ _ _ (rd_seqZ n0 x Hx)). done.
      - constructor. simpl. by apply rd_seqZ. }
    unfold get_component_size, get_component_rank.
    rewrite !(bind_Ok _ _ _ _ _ Hf). split.
    + apply load_size_Ok. simpl. by apply rd_replicate.
    + apply load_rank_Ok. simpl. by apply rd_replicate.
Qed.

Lemma new_is_discrete_witness :
  ∃ s, new 5 = Ok s tt ∧ wf s ∧ n s = 5 ∧
    get_component_number s = Ok 5 s ∧
    (∀ a b, connected s a b ↔ 0 ≤ a < 5 ∧ a = b) ∧
    ∀ x, 0 ≤ x < 5 →
      get_component_size x s = Ok 1 s ∧ get_component_rank x s = Ok 0 s.
Proof.
  apply (new_is_discrete 5). unfold Int.INT_MAX. lia.
Defined.

(** ** The threshold of the spatial builder *)

Ltac order_cases :=
  repeat match goal with
  | H : context [Pos.compare_cont Eq ?a ?b] |- _ =>
      change (Pos.compare_cont Eq a b) with (Pos.compare a b) in H;
      destruct (Pos.compare_spec a b)
  | |- context [Pos.compare_cont Eq ?a ?b] =>
      change (Pos.compare_cont Eq a b) with (Pos.compare a b);
      destruct (Pos.compare_spec a b)
  | H : context [Z.compare ?a ?b] |- _ => destruct (Z.compare_spec a b)
  | |- context [Z.compare ?a ?b] => destruct (Z.compare_spec a b)
  end.

Lemma SFleb_trans a b c :
  SFleb a b = true → SFleb b c = true → SFleb a c = true.
Proof.
  destruct a as [sa|sa| |sa ma ea], b as [sb|sb| |sb mb eb],
    c as [sc|sc| |sc mc ec]; try done;
    unfold SFleb, SFcompare;
    try (by destruct sa); try (by destruct sb); try (by destruct sc);
    try (by destruct sa, sb); try (by destruct sb, sc);
    try (by destruct sa, sc); try (by destruct sa, sb, sc).
  destruct sa, sb, sc; try done; intros H1 H2; order_cases; try done; lia.
Qed.

Lemma within_mono read t1 t2 cols i j :
  F32.le (F32.mul t1 t1) (F32.mul t2 t2) = true →
  within read t1 cols i j → within read t2 cols i j.
Proof.
  intros Hle (d & Hd & H1). exists d. split; [done|].
  by apply (SFleb_trans d (F32.mul t1 t1)).
Qed.

Lemma joined_mono (E E' : Z → Z → Prop) N a b :
  (∀ u v, E u v → E' u v) → joined E N a b → joined E' N a b.
Proof.
  intros Hsub. induction 1;
    [by apply joined_refl | apply joined_edge; auto | by apply joined_sym
    | by eapply joined_trans].
Qed.

(** A larger threshold never splits a class: if [t1 * t1 <= t2 * t2] in
    binary32, two rows that the builder puts in one class with the
    threshold [t1] are in one class with the threshold [t2]. *)
Theorem larger_threshold_coarser array t1 t2 d0 d1 :
  well_formed array → shape array = [d0; d1] →
  d0 ≤ Int.INT_MAX → d1 < Int.UINT32_MOD →
  F32.le (F32.mul t1 t1) (F32.mul t2 t2) = true →
  ∃ s1 s2, new_spatial array t1 = Ok s1 tt ∧ new_spatial array t2 = Ok s2 tt ∧
    ∀ a b, connected s1 a b → connected s2 a b.
Proof.
  intros Hwf Hshape Hd0 Hd1 Hle.
  destruct (new_spatial_joined array t1 d0 d1 Hwf Hshape Hd0 Hd1)
    as (s1 & Hrun1 & _ & _ & Hc1).
  destruct (new_spatial_joined array t2 d0 d1 Hwf Hshape Hd0 Hd1)
    as (s2 & Hrun2 & _ & _ & Hc2).
  exists s1, s2. do 2 (split; [done|]). intros a b Hab.
  apply Hc2. apply Hc1 in Hab. revert Hab. apply joined_mono.
  intros u v [Huv Hw]. split; [done|]. by apply (within_mono _ t1).
Qed.

Lemma larger_threshold_coarser_witness :
  ∃ s1 s2,
    new_spatial sample_points sample_threshold = Ok s1 tt ∧
    new_spatial sample_points (S754_finite false 12582912 (-22)) = Ok s2 tt ∧
    ∀ a b, connected s1 a b → connected s2 a b.
Proof.
  apply (larger_threshold_coarser sample_points sample_threshold
           (S754_finite false 12582912 (-22)) 3 2).
  - exact sample_points_well_formed.
  - reflexivity.
  - unfold Int.INT_MAX. lia.
  - unfold Int.UINT32_MOD. lia.
  - vm_compute. reflexivity.
Defined.

(** With the threshold [1.5] the sample has two classes, with [3] it has
    one. *)
Example larger_threshold_sample :
  new_spatial sample_points sample_threshold
    = Ok (mkDS [0; 0; 2] [1; 0; 0] [2; 1; 1] 3 2) tt ∧
  new_spatial sample_points (S754_finite false 12582912 (-22))
    = Ok (mkDS [0; 0; 0] [1; 0; 0] [3; 1; 1] 3 1) tt.
Proof. split; reflexivity. Qed.

Lemma F32_mul_opp t : F32.mul (SFopp t) (SFopp t) = F32.mul t t.
Proof. destruct t as [[]|[]| |[] m e]; reflexivity. Qed.

Lemma accumulate_threshold read t t' ks i j d :
  F32.mul t t = F32.mul t' t' →
  accumulate read t ks i j d = accumulate read t' ks i j d.
Proof.
  intros H. revert d. induction ks as [|k ks IH]; intros d; [done|].
  cbn [accumulate]. destruct (read i k); [|done]. destruct (read j k); [|done].
  rewrite H. destruct (F32.gt _ _); [done | apply IH].
Qed.

Lemma build_edges_threshold read t t' rows cols s :
  F32.mul t t = F32.mul t' t' →
  build_edges t (accumulate read t) rows cols s =
  build_edges t' (accumulate read t') rows cols s.
Proof.
  intros H. unfold build_edges.
  apply for_each_ext. intros i s1 _. apply for_each_ext. intros j s2 _.
  unfold pair_body. by rewrite (accumulate_threshold read t t'), H.
Qed.

(** The threshold enters the builders through [t * t] only, so its sign
    does not matter: with [-t] the two constructors build what they build
    with [t]; a negative threshold is not rejected. *)
Theorem threshold_sign_irrelevant array rows cols t :
  new_spatial array (SFopp t) = new_spatial array t ∧
  new_spatial_checked array rows cols (SFopp t) =
    new_spatial_checked array rows cols t.
Proof.
  pose proof (F32_mul_opp t) as H.
  unfold new_spatial, new_spatial_checked, new_spatial_with,
    new_spatial_checked_with, construct.
  split.
  - destruct (negb (ndim array =? 2)); [done|].
    destruct (shape array !! 0%nat); [|done].
    destruct (shape array !! 1%nat); [|done].
    by rewrite (build_edges_threshold _ (SFopp t) t).
  - destruct (negb (ndim array =? 2)); [done|].
    destruct (shape array !! 0%nat) as [d0|]; [|done].
    destruct (shape array !! 1%nat) as [d1|]; [|done].
    destruct (negb (d0 =? rows) || negb (d1 =? cols)); [done|].
    by rewrite (build_edges_threshold _ (SFopp t) t).
Qed.

(** With the threshold [-1.5] the sample is clustered as with [1.5]. *)
Example threshold_sign_sample :
  new_spatial sample_points (S754_finite true 12582912 (-23))
    = Ok (mkDS [0; 0; 2] [1; 0; 0] [2; 1; 1] 3 2) tt.
Proof. reflexivity. Qed.

(** ** Points with a coordinate that is not a number *)

Lemma accumulate_full_from_nan read ks i j :
  readable read ks i → readable read ks j →
  accumulate_full read ks i j S754_nan = Some S754_nan.
Proof.
  induction ks as [|k ks IH]; intros Hi Hj; [done|].
  apply readable_cons in Hi as [(a & Ha & _) Hi].
  apply readable_cons in Hj as [(b & Hb & _) Hj].
  cbn [accumulate_full]. rewrite Ha, Hb. by apply IH.
Qed.

Lemma F32_square_nan_l b :
  F32.mul (F32.sub S754_nan b) (F32.sub S754_nan b) = S754_nan.
Proof. reflexivity. Qed.

Lemma F32_square_nan_r a :
  F32.mul (F32.sub a S754_nan) (F32.sub a S754_nan) = S754_nan.
Proof. by destruct a. Qed.

Lemma F32_add_nan_r d : F32.add d S754_nan = S754_nan.
Proof. by destruct d. Qed.

Lemma accumulate_full_nan read ks i j k d :
  k ∈ ks → read i k = Some S754_nan ∨ read j k = Some S754_nan →
  readable read ks i → readable read ks j →
  accumulate_full read ks i j d = Some S754_nan.
Proof.
  revert d. induction ks as [|k' ks IH]; intros d Hk Hnan Hi Hj;
    [inversion Hk|].
  apply readable_cons in Hi as [(a & Ha & _) Hi].
  apply readable_cons in Hj as [(b & Hb & _) Hj].
  cbn [accumulate_full]. rewrite Ha, Hb. cbv zeta.
  apply elem_of_cons in Hk as [-> | Hk]; [|by apply IH].
  destruct Hnan as [Hn | Hn].
  - assert (a = S754_nan) as -> by congruence.
    rewrite F32_square_nan_l, F32_add_nan_r.
    by apply accumulate_full_from_nan.
  - assert (b = S754_nan) as -> by congruence.
    rewrite F32_square_nan_r, F32_add_nan_r.
    by apply accumulate_full_from_nan.
Qed.

Lemma joined_isolated (E : Z → Z → Prop) N i a b :
  (∀ v, 0 ≤ v < N → ¬ E i v) → (∀ u, 0 ≤ u < N → ¬ E u i) →
  joined E N a b → (a = i ↔ b = i).
Proof.
  intros H1 H2. induction 1 as [a Ha | a b He Ha Hb | a b _ IH | a b c _ IH1 _ IH2];
    [done | | tauto | tauto].
  split; intros ->; exfalso; [by apply (H1 b) | by apply (H2 a)].
Qed.

(** A row with a NaN in one of its columns is united with no other row,
    whatever the threshold: its squared distance to every row is a NaN,
    and [NaN <= t * t] is false.  The row is a class of its own. *)
Theorem nan_point_is_alone array t d0 d1 i k :
  well_formed array → shape array = [d0; d1] →
  d0 ≤ Int.INT_MAX → d1 < Int.UINT32_MOD →
  0 ≤ i < d0 → 0 ≤ k < d1 →
  read_unchecked array i k = Some S754_nan →
  ∃ s, new_spatial array t = Ok s tt ∧ ∀ b, connected s i b ↔ b = i.
Proof.
  intros Hwf Hshape Hd0 Hd1 Hi Hk Hnan.
  destruct (new_spatial_joined array t d0 d1 Hwf Hshape Hd0 Hd1)
    as (s & Hrun & _ & _ & Hc).
  pose proof (wfa_shape array Hwf) as Hs. rewrite Hshape in Hs.
  apply Forall_cons in Hs as [H0 Hs]. apply Forall_cons in Hs as [H1 _].
  assert (Hr0 : Int.to_uint32 d0 = d0)
    by (apply to_uint32_small; unfold Int.INT_MAX, Int.UINT32_MOD in *; lia).
  assert (Hr1 : Int.to_uint32 d1 = d1) by (apply to_uint32_small; lia).
  assert (Hread : ∀ v, 0 ≤ v < d0 → readable (read_unchecked array) (seqZ 0 d1) v).
  { intros v Hv. rewrite <- Hr1.
    apply (readable_unchecked array d0 d1); [done | done | by rewrite Hr0]. }
  assert (Hkin : k ∈ seqZ 0 d1) by (apply elem_of_seqZ; lia).
  assert (Hno : ∀ u v, 0 ≤ u < d0 → 0 ≤ v < d0 → u = i ∨ v = i →
            ¬ within (read_unchecked array) t d1 u v).
  { intros u v Hu Hv Huv (d & Hd & Hle).
    rewrite (accumulate_full_nan _ _ u v k F32.zero) in Hd; try done.
    - injection Hd as <-. done.
    - destruct Huv as [-> | ->]; [by left | by right].
    - by apply Hread.
    - by apply Hread. }
  exists s. split; [done|]. intros b. rewrite Hc. split.
  - intros H.
    apply (joined_isolated _ d0 i i b) in H; [by apply H | |].
    + intros v Hv [_ Hw]. revert Hw. apply Hno; [done | done | by left].
    + intros u Hu [_ Hw]. revert Hw. apply Hno; [done | done | by right].
  - intros ->. by apply joined_refl.
Qed.

Lemma nan_point_is_alone_witness :
  ∃ s, new_spatial (mkArr 2 [3; 1] [F32.zero; S754_nan; F32.zero])
         sample_threshold = Ok s tt ∧
       ∀ b, connected s 1 b ↔ b = 1.
Proof.
  apply (nan_point_is_alone (mkArr 2 [3; 1] [F32.zero; S754_nan; F32.zero])
           sample_threshold 3 1 1 0).
  - constructor; simpl; [reflexivity | repeat constructor; lia | reflexivity
                        | repeat constructor].
  - reflexivity.
  - unfold Int.INT_MAX. lia.
  - unfold Int.UINT32_MOD. lia.
  - lia.
  - lia.
  - reflexivity.
Defined.

(** ** A threshold that is not a number, and rows that coincide *)

Lemma F32_le_nan_r d : F32.le d S754_nan = false.
Proof. by destruct d as [[]|[]| |[] m e]. Qed.

(** With a NaN as threshold the builder unites nothing: every comparison
    with [NaN * NaN] is false, and every row stays a class of its own.
    The constructor raises no error for such a threshold. *)
Theorem nan_threshold_unites_nothing array d0 d1 :
  well_formed array → shape array = [d0; d1] →
  d0 ≤ Int.INT_MAX → d1 < Int.UINT32_MOD →
  ∃ s, new_spatial array S754_nan = Ok s tt ∧ n s = d0 ∧
    ∀ a b, connected s a b ↔ 0 ≤ a < d0 ∧ a = b.
Proof.
  intros Hwf Hshape Hd0 Hd1.
  destruct (new_spatial_joined array S754_nan d0 d1 Hwf Hshape Hd0 Hd1)
    as (s & Hrun & _ & Hn & Hc).
  exists s. do 2 (split; [done|]). intros a b. rewrite Hc.
  apply joined_empty. intros u v [_ (d & _ & Hle)].
  change (F32.mul S754_nan S754_nan) with S754_nan in Hle.
  by rewrite F32_le_nan_r in Hle.
Qed.

Lemma nan_threshold_unites_nothing_witness :
  ∃ s, new_spatial sample_points S754_nan = Ok s tt ∧ n s = 3 ∧
    ∀ a b, connected s a b ↔ 0 ≤ a < 3 ∧ a = b.
Proof.
  apply (nan_threshold_unites_nothing sample_points 3 2).
  - exact sample_points_well_formed.
  - reflexivity.
  - unfold Int.INT_MAX. lia.
  - unfold Int.UINT32_MOD. lia.
Defined.

Lemma F32_sub_diag a : finite32 a = true → F32.sub a a = F32.zero.
Proof.
  destruct a as [[]|[]| |s m e]; try done. intros _.
  unfold F32.sub, SFsub. by rewrite Z.sub_diag.
Qed.

Lemma accumulate_full_same read ks i j :
  (∀ k, k ∈ ks → ∃ a, read i k = Some a ∧ read j k = Some a ∧
                      finite32 a = true) →
  accumulate_full read ks i j F32.zero = Some F32.zero.
Proof.
  induction ks as [|k ks IH]; intros H; [done|].
  destruct (H k) as (a & Hi & Hj & Ha); [left|].
  cbn [accumulate_full]. rewrite Hi, Hj. cbv zeta.
  rewrite (F32_sub_diag a Ha).
  change (F32.add F32.zero (F32.mul F32.zero F32.zero)) with F32.zero.
  apply IH. intros k' Hk'. apply H. by right.
Qed.

(** Two rows with the same finite coordinates are put in one class
    whenever [t * t] is a number: their squared distance is [+0].  (With
    an infinite coordinate the difference is [∞ - ∞], a NaN, and the rows
    are not united by this pair.) *)
Theorem equal_rows_united array t d0 d1 i j :
  well_formed array → shape array = [d0; d1] →
  d0 ≤ Int.INT_MAX → d1 < Int.UINT32_MOD →
  0 ≤ i < j → j < d0 →
  (∀ k, 0 ≤ k < d1 →
     ∃ a, read_unchecked array i k = Some a ∧
          read_unchecked array j k = Some a ∧ finite32 a = true) →
  F32.le F32.zero (F32.mul t t) = true →
  ∃ s, new_spatial array t = Ok s tt ∧ connected s i j.
Proof.
  intros Hwf Hshape Hd0 Hd1 Hi Hj Hsame Ht.
  destruct (new_spatial_joined array t d0 d1 Hwf Hshape Hd0 Hd1)
    as (s & Hrun & _ & _ & Hc).
  exists s. split; [done|]. apply Hc. apply joined_edge; [|lia|lia].
  split; [lia|]. exists F32.zero. split; [|done].
  apply accumulate_full_same. intros k Hk. apply elem_of_seqZ in Hk.
  apply Hsame. lia.
Qed.

Lemma equal_rows_united_witness :
  ∃ s, new_spatial
         (mkArr 2 [2; 1] [sample_threshold; sample_threshold]) F32.zero
       = Ok s tt ∧ connected s 0 1.
Proof.
  apply (equal_rows_united
           (mkArr 2 [2; 1] [sample_threshold; sample_threshold]) F32.zero
           2 1 0 1).
  - constructor; simpl; [reflexivity | repeat constructor; lia | reflexivity
                        | repeat constructor].
  - reflexivity.
  - unfold Int.INT_MAX. lia.
  - unfold Int.UINT32_MOD. lia.
  - lia.
  - lia.
  - intros k Hk. assert (k = 0) as -> by lia.
    exists sample_threshold. repeat split; reflexivity.
  - reflexivity.
Defined.

(** Two rows [(∞)] with the threshold [1.5]: not united. *)
Example equal_rows_infinite :
  new_spatial (mkArr 2 [2; 1] [S754_infinity false; S754_infinity false])
    sample_threshold = Ok (mkDS [0; 1] [0; 0] [1; 1] 2 2) tt.
Proof. reflexivity. Qed.
